(** * mqtt_io.server: a shallow embedding of the gateway's orchestration core

    The development follows [src/mqtt_io/server.py].  Python values are
    embedded as Rocq data, coroutines as the sequence of externally visible
    effects they perform between and at their suspension points, and the
    cooperative scheduler as a labelled step relation over task states. *)

From Stdlib Require Import Floats ZArith Ascii String List Bool Lia.
From Stdlib Require Import DecimalString.
From stdpp Require Import gmap strings list.

Local Open Scope Z_scope.

(** ** Module constants (server.py, lines 25-29) *)

Definition SET_TOPIC : string := "set".
Definition SET_ON_MS_TOPIC : string := "set_on_ms".
Definition SET_OFF_MS_TOPIC : string := "set_off_ms".
Definition OUTPUT_TOPIC : string := "output".
Definition SENSOR_TOPIC : string := "sensor".

(** ** Python strings *)

Definition newline : ascii := "010"%char.
Definition slash : ascii := "/"%char.

(** [strip_prefix l s] is [Some r] exactly when [s = l ++ r]. *)
Fixpoint strip_prefix (l s : string) : option string :=
  match l with
  | EmptyString => Some s
  | String a l' =>
      match s with
      | String b s' => if Ascii.eqb a b then strip_prefix l' s' else None
      | EmptyString => None
      end
  end.

(** [str.endswith]: [suffix] is what is left of [s] after dropping some
    leading characters. *)
Fixpoint endswith (s suffix : string) : bool :=
  String.eqb s suffix
  || match s with
     | EmptyString => false
     | String _ s' => endswith s' suffix
     end.

Fixpoint string_mem (c : ascii) (s : string) : bool :=
  match s with
  | EmptyString => false
  | String a s' => Ascii.eqb c a || string_mem c s'
  end.

(** ** Python exceptions and results *)

(** [CancelledError] is what a cancelled task ends with.  The last two
    constructors stand for the exceptions the server does not name: those
    that are instances of [Exception], and those that are not
    ([SystemExit], [KeyboardInterrupt] and the like). *)
Inductive exn :=
| ValueError (msg : string) (arg : string)
| KeyError (key : string)
| CancelledError
| OtherException (what : string)
| OtherBaseException (what : string).

Inductive result (A : Type) :=
| Ok (a : A)
| Raise (e : exn).
Arguments Ok {A} a.
Arguments Raise {A} e.

(** ** The fragment of [re] used by [output_name_from_topic]

    The pattern is ["^{}/{}/(.+?)/.+$"] with the prefix and [OUTPUT_TOPIC]
    spliced in.  Its pieces are: the start anchor, literal text, a [.] of
    the prefix, the lazy [.+?] inside capture group 1, the greedy [.+], and
    the end anchor.
    No flags are given, so [.] matches any character except a newline and
    [$] matches at the end of the string or just before a newline that ends
    the string.  The matcher backtracks the way [re] does: the lazy piece
    tries the shortest extension first, the greedy one the longest. *)

Inductive re_item :=
| ReStart                (* ^ *)
| ReLit (s : string)     (* ordinary characters *)
| ReAny                  (* . *)
| ReGroupLazyDotPlus     (* (.+?) as group 1 *)
| ReDotPlus              (* .+ *)
| ReEnd.                 (* $ *)

Definition at_end (s : string) : bool :=
  match s with
  | EmptyString => true
  | String c EmptyString => Ascii.eqb c newline
  | _ => false
  end.

(** The match object, reduced to its group 1. *)
Definition re_result : Type := option (option string).

(** Greedy [.+] followed by the rest of the pattern [k]: take every
    character up to the next newline, then give characters back one at a
    time until the rest matches; at least one character is kept. *)
Fixpoint greedy_dot_plus (k : nat -> string -> re_result) (pos : nat)
    (s : string) : re_result :=
  match s with
  | EmptyString => None
  | String c s' =>
      if Ascii.eqb c newline then None
      else match greedy_dot_plus k (S pos) s' with
           | Some m => Some m
           | None => k (S pos) s'
           end
  end.

(** Lazy [(.+?)] followed by the rest of the pattern [k]: take one
    character, try the rest, and take one more each time the rest fails.
    [acc] is the text the group holds so far. *)
Fixpoint lazy_dot_plus (k : nat -> string -> option string -> re_result)
    (pos : nat) (s : string) (acc : string) : re_result :=
  match s with
  | EmptyString => None
  | String c s' =>
      if Ascii.eqb c newline then None
      else
        let acc' := acc +:+ String c EmptyString in
        match k (S pos) s' (Some acc') with
        | Some m => Some m
        | None => lazy_dot_plus k (S pos) s' acc'
        end
  end.

(** [re_match p pos s g1] matches the items [p] against [s], the part of the
    subject that starts at offset [pos]; [g1] is the text captured so far by
    group 1.  As with [re.match], the subject need not be consumed. *)
Fixpoint re_match (p : list re_item) (pos : nat) (s : string)
    (g1 : option string) : re_result :=
  match p with
  | [] => Some g1
  | ReStart :: p' =>
      if Nat.eqb pos 0 then re_match p' pos s g1 else None
  | ReLit l :: p' =>
      match strip_prefix l s with
      | Some s' => re_match p' (pos + String.length l)%nat s' g1
      | None => None
      end
  | ReAny :: p' =>
      match s with
      | EmptyString => None
      | String c s' =>
          if Ascii.eqb c newline then None else re_match p' (S pos) s' g1
      end
  | ReEnd :: p' =>
      if at_end s then re_match p' pos s g1 else None
  | ReDotPlus :: p' =>
      greedy_dot_plus (fun pos' s' => re_match p' pos' s' g1) pos s
  | ReGroupLazyDotPlus :: p' =>
      lazy_dot_plus (re_match p') pos s EmptyString
  end.

(** The characters [re] gives a meaning to outside a character class. *)
Definition re_special : string := ".^$*+?{}[]\|()".

Fixpoint re_plain (s : string) : bool :=
  match s with
  | EmptyString => true
  | String c s' => negb (string_mem c re_special) && re_plain s'
  end.

(** The prefix is spliced into the pattern unescaped (line 60), so [re]
    reads it as a pattern of its own: an ordinary character stands for
    itself and a [.] for any character but a newline.  These two are what
    the embedding covers; it is exact for the prefixes whose only special
    character is the dot ([re_dotted]), those without any ([re_plain])
    among them.  The other special characters are not interpreted: the
    properties below are stated for the prefixes the embedding reads as
    [re] does. *)
Definition dot : ascii := "."%char.

Fixpoint prefix_items (prefix : string) : list re_item :=
  match prefix with
  | EmptyString => []
  | String c prefix' =>
      (if Ascii.eqb c dot then ReAny else ReLit (String c EmptyString))
      :: prefix_items prefix'
  end.

Fixpoint re_dotted (s : string) : bool :=
  match s with
  | EmptyString => true
  | String c s' =>
      (Ascii.eqb c dot || negb (string_mem c re_special)) && re_dotted s'
  end.

(** What is spliced in after the prefix. *)
Definition after_prefix : list re_item :=
  [ReLit "/"; ReLit OUTPUT_TOPIC; ReLit "/";
   ReGroupLazyDotPlus; ReLit "/"; ReDotPlus; ReEnd].

(** ["^{}/{}/(.+?)/.+$".format(prefix, OUTPUT_TOPIC)] *)
Definition topic_pattern (prefix : string) : list re_item :=
  ReStart :: prefix_items prefix ++ after_prefix.

(** The pattern of a prefix made of ordinary characters, which is one
    piece of literal text. *)
Definition literal_pattern (prefix : string) : list re_item :=
  ReStart :: ReLit prefix :: after_prefix.

(** What the pattern asks for after the captured name. *)
Definition after_name : list re_item := [ReLit "/"; ReDotPlus; ReEnd].

Definition structure_error (topic : string) : exn :=
  ValueError "Topic %r does not adhere to expected structure" topic.

(** server.py, lines 59-63.  Group 1 is not optional in the pattern, so a
    match always carries it (lemma [topic_match_has_group]). *)
Definition output_name_from_topic (topic prefix : string) : result string :=
  match re_match (topic_pattern prefix) 0 topic None with
  | None => Raise (structure_error topic)
  | Some g1 => Ok (default EmptyString g1)
  end.

(** ** Values, configuration records, observable effects *)

(** Numbers: Python's [int] and [float] (a binary64, as [PrimFloat]). *)
Inductive pynum :=
| PyInt (z : Z)
| PyFloat (f : float).

Inductive pin :=
| PinNum (n : Z)
| PinName (s : string).

(** A handle on a capability-module object.  [gpio_modules] holds one object
    per configured module name, and the handle is that name. *)
Definition gpio_module := string.

(** One entry of [config["digital_outputs"]], with the keys the server reads. *)
Record out_conf := {
  oc_name : string;
  oc_module : string;
  oc_pin : pin;
  oc_inverted : bool;
  oc_on_payload : string;
  oc_off_payload : string;
  oc_retain : bool;
}.

(** One entry of [config["sensor_inputs"]]. *)
Record sens_conf := {
  sc_name : string;
  sc_module : string;
  sc_digits : Z;
  sc_interval : pynum;
}.

Inductive pyval :=
| VStr (s : string)
| VBool (b : bool)
| VNum (n : pynum)
| VExn (e : exn)
| VTask (t : nat).

Inductive loglevel := DEBUG | INFO | WARNING | EXCEPTION.

(** Events of [mqtt_io.io] placed on the event bus. *)
Inductive bus_event :=
| DigitalInputChangedEvent (input_name : string) (to_value : bool)
| SensorReadEvent (sensor_name : string) (value : pynum).

(** What a coroutine does to the outside world, in program order.  A log
    record keeps the format string of the source and its arguments. *)
Inductive event :=
| EvLog (lvl : loglevel) (fmt : string) (args : list pyval)
| EvSetPin (module : gpio_module) (p : pin) (value : bool)
| EvPublish (topic payload : string) (qos : option Z) (retain : option bool)
| EvSleep (secs : pynum)
| EvGetValue (sensor_module : string) (sensor : string)
| EvFire (e : bus_event)
| EvSetupPin (module : gpio_module) (p : pin) (name : string)
| EvDisconnect
| EvQueuePut (queue : nat) (c : gpio_module * out_conf * string)
| EvQueueGet (c : gpio_module * out_conf * string).

Definition is_set_pin (e : event) : bool :=
  match e with EvSetPin _ _ _ => true | _ => false end.
Definition is_publish (e : event) : bool :=
  match e with EvPublish _ _ _ _ => true | _ => false end.
Definition is_sleep (e : event) : bool :=
  match e with EvSleep _ => true | _ => false end.
Definition is_warning (e : event) : bool :=
  match e with EvLog WARNING _ _ => true | _ => false end.
Definition is_fire (e : event) : bool :=
  match e with EvFire _ => true | _ => false end.
Definition is_get_value (e : event) : bool :=
  match e with EvGetValue _ _ => true | _ => false end.

(** The hardware writes, publishes and sleeps of a trace, in order. *)
Definition actions (tr : list event) : list event :=
  List.filter (fun e => is_set_pin e || is_publish e || is_sleep e) tr.

(** ["%s/output/%s" % (topic_prefix, name)] *)
Definition output_topic (prefix name : string) : string :=
  prefix +:+ "/output/" +:+ name.

(** ["%s/%s/%s/%s" % (topic_prefix, OUTPUT_TOPIC, name, suffix)], the topics
    subscribed to in [_init_mqtt] (lines 225-233). *)
Definition control_topic (prefix name suffix : string) : string :=
  prefix +:+ "/" +:+ OUTPUT_TOPIC +:+ "/" +:+ name +:+ "/" +:+ suffix.

Definition on_off (value : bool) : string := if value then "on" else "off".

(** server.py, lines 48-56.  [value != output_config["inverted"]] on two
    booleans is their exclusive or.  The coroutine suspends in
    [module.async_set_pin] and writes its log record once that returns. *)
Definition set_value (output_config : out_conf) (value : bool) : bool :=
  xorb value (oc_inverted output_config).

Definition set_pin_call (module : gpio_module) (output_config : out_conf)
    (value : bool) : event :=
  EvSetPin module (oc_pin output_config) (set_value output_config value).

Definition set_pin_log (output_config : out_conf) (value : bool) : event :=
  EvLog INFO "Digital output '%s' set to %s (%s)"
    [VStr (oc_name output_config); VBool (set_value output_config value);
     VStr (on_off value)].

Definition set_digital_output (module : gpio_module) (output_config : out_conf)
    (value : bool) : list event :=
  [set_pin_call module output_config value; set_pin_log output_config value].

(** [self.mqtt.publish("%s/output/%s" % ..., payload.encode("utf8"), qos=1,
    retain=output_config["retain"])] *)
Definition publish_output (topic_prefix : string) (output_config : out_conf)
    (payload : string) : event :=
  EvPublish (output_topic topic_prefix (oc_name output_config)) payload
    (Some 1) (Some (oc_retain output_config)).

(** ** The per-module worker, [digital_output_loop] (lines 377-398) *)

(** An [OutputCommand]: the tuple put on a module's queue (line 282). *)
Definition command : Type := gpio_module * out_conf * string.

(** Where the worker is suspended: in [queue.get()] on an empty queue, in
    the hardware write of [set_digital_output], or in [mqtt.publish]. *)
Inductive worker_pc :=
| WGet
| WSetPin (c : command)
| WPublish (c : command).

(** [payload not in (on_payload, off_payload)], negated *)
Definition valid_payload (output_config : out_conf) (payload : string) : bool :=
  String.eqb payload (oc_on_payload output_config)
  || String.eqb payload (oc_off_payload output_config).

Definition invalid_payload_warning (output_config : out_conf) (payload : string)
    : event :=
  EvLog WARNING
    "'%s' is not a valid payload for output %s. Only '%s' and '%s' are allowed."
    [VStr payload; VStr (oc_name output_config);
     VStr (oc_on_payload output_config); VStr (oc_off_payload output_config)].

(** The worker at the head of its loop.  [queue.get()] returns at once while
    the queue has items, and [continue] leads back here without a
    suspension: rejected commands are consumed in the same stretch, up to
    the first accepted one, whose hardware write is then started. *)
Fixpoint loop_head (queue : list command)
    : list event * worker_pc * list command :=
  match queue with
  | [] => ([], WGet, [])
  | (module, output_config, payload) :: queue' =>
      if negb (valid_payload output_config payload) then
        let '(tr, pc, rest) := loop_head queue' in
        (EvQueueGet (module, output_config, payload)
           :: invalid_payload_warning output_config payload :: tr, pc, rest)
      else
        ([EvQueueGet (module, output_config, payload);
          set_pin_call module output_config
            (String.eqb payload (oc_on_payload output_config))],
         WSetPin (module, output_config, payload), queue')
  end.

(** One scheduling of the worker: it runs from the suspension point [pc] to
    the next one.  [None]: it stays blocked on the empty queue.  The result
    is the effects of the stretch, the new suspension point and the queue
    content left. *)
Definition worker_step (topic_prefix : string) (pc : worker_pc)
    (queue : list command) : option (list event * worker_pc * list command) :=
  match pc with
  | WGet =>
      match queue with
      | [] => None
      | _ :: _ => Some (loop_head queue)
      end
  | WSetPin (module, output_config, payload) =>
      Some ([set_pin_log output_config
               (String.eqb payload (oc_on_payload output_config));
             publish_output topic_prefix output_config payload],
            WPublish (module, output_config, payload), queue)
  | WPublish _ => Some (loop_head queue)
  end.

(** [n] schedulings of the worker in a row with nothing put on the queue in
    between; it stops early when the worker blocks. *)
Fixpoint worker_run (topic_prefix : string) (n : nat) (pc : worker_pc)
    (queue : list command) : list event * worker_pc * list command :=
  match n with
  | O => ([], pc, queue)
  | S n' =>
      match worker_step topic_prefix pc queue with
      | None => ([], pc, queue)
      | Some (tr, pc', queue') =>
          let '(tr', pc'', queue'') := worker_run topic_prefix n' pc' queue' in
          (tr ++ tr', pc'', queue'')
      end
  end.

(** ** Tasks and the server object *)

(** The coroutines the server hands to [loop.create_task], with what their
    closures capture. *)
Inductive coro :=
| CoDigitalOutputLoop (queue : nat)
| CoSetMs (module : gpio_module) (output_config : out_conf)
    (desired_value : bool) (payload : string)
| CoPollSensor (sensor_module : string) (sc : sens_conf)
| CoOther (label : string).

(** How a task stands: not done, returned, or ended by an exception. *)
Inductive task_state :=
| Pending
| Returned
| Failed (e : exn).

Definition done (s : task_state) : bool :=
  match s with Pending => false | _ => true end.

Definition failed (s : task_state) : bool :=
  match s with Failed _ => true | _ => false end.

(** The fields of [MqttGpio] the modelled methods use.  [queues] is the
    store of [asyncio.Queue] objects and [loop_tasks] the loop's tasks, each
    in creation order; an object is referred to by its index, so that what
    one holder of a reference does to it is seen by the others. *)
Record MqttGpio := {
  topic_prefix : string;
  status_topic : string;
  status_payload_stopped : string;
  config_digital_outputs : list out_conf;
  digital_output_configs : gmap string out_conf;
  gpio_modules : gmap string gpio_module;
  module_output_queues : gmap string nat;
  queues : list (list command);
  loop_tasks : list (coro * task_state);
  unawaited_tasks : list nat;
}.

Definition set_digital_output_configs (self : MqttGpio)
    (d : gmap string out_conf) : MqttGpio :=
  {| topic_prefix := topic_prefix self;
     status_topic := status_topic self;
     status_payload_stopped := status_payload_stopped self;
     config_digital_outputs := config_digital_outputs self;
     digital_output_configs := d;
     gpio_modules := gpio_modules self;
     module_output_queues := module_output_queues self;
     queues := queues self;
     loop_tasks := loop_tasks self;
     unawaited_tasks := unawaited_tasks self |}.

Definition set_queues (self : MqttGpio) (qs : list (list command)) : MqttGpio :=
  {| topic_prefix := topic_prefix self;
     status_topic := status_topic self;
     status_payload_stopped := status_payload_stopped self;
     config_digital_outputs := config_digital_outputs self;
     digital_output_configs := digital_output_configs self;
     gpio_modules := gpio_modules self;
     module_output_queues := module_output_queues self;
     queues := qs;
     loop_tasks := loop_tasks self;
     unawaited_tasks := unawaited_tasks self |}.

Definition set_unawaited_tasks (self : MqttGpio) (ts : list nat) : MqttGpio :=
  {| topic_prefix := topic_prefix self;
     status_topic := status_topic self;
     status_payload_stopped := status_payload_stopped self;
     config_digital_outputs := config_digital_outputs self;
     digital_output_configs := digital_output_configs self;
     gpio_modules := gpio_modules self;
     module_output_queues := module_output_queues self;
     queues := queues self;
     loop_tasks := loop_tasks self;
     unawaited_tasks := ts |}.

(** [self.unawaited_tasks.append(self.loop.create_task(co))] *)
Definition spawn_unawaited (self : MqttGpio) (co : coro) : MqttGpio :=
  {| topic_prefix := topic_prefix self;
     status_topic := status_topic self;
     status_payload_stopped := status_payload_stopped self;
     config_digital_outputs := config_digital_outputs self;
     digital_output_configs := digital_output_configs self;
     gpio_modules := gpio_modules self;
     module_output_queues := module_output_queues self;
     queues := queues self;
     loop_tasks := loop_tasks self ++ [(co, Pending)];
     unawaited_tasks := unawaited_tasks self ++ [length (loop_tasks self)] |}.

(** [queue = asyncio.Queue(); self.module_output_queues[module] = queue] *)
Definition new_module_queue (self : MqttGpio) (module : string) : MqttGpio :=
  {| topic_prefix := topic_prefix self;
     status_topic := status_topic self;
     status_payload_stopped := status_payload_stopped self;
     config_digital_outputs := config_digital_outputs self;
     digital_output_configs := digital_output_configs self;
     gpio_modules := gpio_modules self;
     module_output_queues :=
       <[module := length (queues self)]> (module_output_queues self);
     queues := queues self ++ [[]];
     loop_tasks := loop_tasks self;
     unawaited_tasks := unawaited_tasks self |}.

(** [queue.put_nowait(c)] on the queue object [q] (unbounded: never full) *)
Definition put_nowait (self : MqttGpio) (q : nat) (c : command) : MqttGpio :=
  set_queues self (alter (fun content => content ++ [c]) q (queues self)).

(** [MqttGpio.__init__] (lines 67-82): every registry starts empty. *)
Definition MqttGpio_init (prefix status stopped : string)
    (outputs : list out_conf) : MqttGpio :=
  {| topic_prefix := prefix;
     status_topic := status;
     status_payload_stopped := stopped;
     config_digital_outputs := outputs;
     digital_output_configs := ∅;
     gpio_modules := ∅;
     module_output_queues := ∅;
     queues := [];
     loop_tasks := [];
     unawaited_tasks := [] |}.

(** [_init_gpio_modules] (lines 86-90), given the names of
    [config["gpio_modules"]]: one module object per name. *)
Definition _init_gpio_modules (self : MqttGpio) (names : list string) : MqttGpio :=
  {| topic_prefix := topic_prefix self;
     status_topic := status_topic self;
     status_payload_stopped := status_payload_stopped self;
     config_digital_outputs := config_digital_outputs self;
     digital_output_configs := digital_output_configs self;
     gpio_modules := fold_left (fun m n => <[n := n]> m) names ∅;
     module_output_queues := module_output_queues self;
     queues := queues self;
     loop_tasks := loop_tasks self;
     unawaited_tasks := unawaited_tasks self |}.

(** ** [_init_digital_outputs] (lines 128-147) *)

(** The body of the [for] loop over [config["digital_outputs"]]. *)
Fixpoint init_outputs_loop (self : MqttGpio) (confs : list out_conf)
    : list event * result MqttGpio :=
  match confs with
  | [] => ([], Ok self)
  | out_conf :: confs' =>
      match gpio_modules self !! oc_module out_conf with
      | None => ([], Raise (KeyError (oc_module out_conf)))
      | Some module =>
          let self' :=
            match module_output_queues self !! oc_module out_conf with
            | Some _ => self
            | None =>
                let queue := length (queues self) in
                spawn_unawaited (new_module_queue self (oc_module out_conf))
                  (CoDigitalOutputLoop queue)
            end in
          let '(tr, r) := init_outputs_loop self' confs' in
          (EvSetupPin module (oc_pin out_conf) (oc_name out_conf) :: tr, r)
      end
  end.

(** [{x["name"]: x for x in l}]: a later entry replaces an earlier one of
    the same name. *)
Definition dict_by_name (l : list out_conf) : gmap string out_conf :=
  fold_left (fun d x => <[oc_name x := x]> d) l ∅.

Definition _init_digital_outputs (self : MqttGpio)
    : list event * result MqttGpio :=
  init_outputs_loop
    (set_digital_output_configs self
       (dict_by_name (config_digital_outputs self)))
    (config_digital_outputs self).

(** ** The message router, [_handle_mqtt_msg] (lines 261-335)

    The result is the effects of the call and either the server after it or
    the exception that leaves the method.  The pulse coroutine [set_ms] is
    only created here; it runs as a task of its own. *)

Definition control_suffixes : list string :=
  [SET_TOPIC; SET_ON_MS_TOPIC; SET_OFF_MS_TOPIC].

Definition _handle_mqtt_msg (self : MqttGpio) (topic payload : string)
    : list event * result MqttGpio :=
  if negb (existsb (fun x => endswith topic ("/" +:+ x)) control_suffixes) then
    ([EvLog DEBUG
        "Ignoring message to topic '%s' which doesn't end with '/set' etc."
        [VStr topic]], Ok self)
  else
    match output_name_from_topic topic (topic_prefix self) with
    | Raise (ValueError _ _ as e) =>
        ([EvLog WARNING "Unable to parse topic: %s" [VExn e]], Ok self)
    | Raise e => ([], Raise e)
    | Ok output_name =>
        match digital_output_configs self !! output_name with
        | None => ([], Raise (KeyError output_name))
        | Some output_config =>
            match gpio_modules self !! oc_module output_config with
            | None => ([], Raise (KeyError (oc_module output_config)))
            | Some module =>
                if endswith topic ("/" +:+ SET_TOPIC) then
                  match module_output_queues self !! oc_module output_config with
                  | None => ([], Raise (KeyError (oc_module output_config)))
                  | Some q =>
                      ([EvQueuePut q (module, output_config, payload)],
                       Ok (put_nowait self q (module, output_config, payload)))
                  end
                else
                  let desired_value :=
                    endswith topic ("/" +:+ SET_ON_MS_TOPIC) in
                  ([], Ok (spawn_unawaited self
                             (CoSetMs module output_config desired_value payload)))
            end
        end
    end.

(** ** The receive loop, [_mqtt_rx_loop] (lines 339-360) *)

(** The [finally] block: the retained "stopped" status, then the disconnect. *)
Definition rx_finalizer (self : MqttGpio) : list event :=
  [EvPublish (topic_prefix self +:+ "/" +:+ status_topic self)
     (status_payload_stopped self) (Some 1) (Some true);
   EvLog INFO "Disconnecting from MQTT..." [];
   EvDisconnect;
   EvLog INFO "MQTT disconnected" []].

(** How the loop stands once the messages delivered so far are consumed:
    suspended in [deliver_message], or ended by the exception that left the
    [try] block, after the [finally] block ran. *)
Inductive rx_state :=
| RxWaiting
| RxEnded (e : exn).

Fixpoint _mqtt_rx_loop (self : MqttGpio) (msgs : list (string * string))
    : list event * MqttGpio * rx_state :=
  match msgs with
  | [] => ([], self, RxWaiting)
  | (topic, payload) :: msgs' =>
      let received :=
        EvLog INFO "Received message on topic %r: %r" [VStr topic; VStr payload] in
      match _handle_mqtt_msg self topic payload with
      | (tr, Ok self') =>
          let '(tr', self'', st) := _mqtt_rx_loop self' msgs' in
          (received :: tr ++ tr', self'', st)
      | (tr, Raise e) =>
          (received :: tr ++ rx_finalizer self, self, RxEnded e)
      end
  end.

(** The loop on the messages as the client delivers them, the payload
    being the packet's bytes: [_mqtt_rx_loop] above is this loop on
    messages whose data is UTF-8 text.  [data.decode("utf8")] (line 344)
    is inside the [try] block and before the record of the message; on
    data that is not UTF-8 it raises [UnicodeDecodeError], which no one
    catches: the [finally] block runs and the loop is over. *)
Section Delivered.

(** [data.decode("utf8")]; [None] when it raises [UnicodeDecodeError]. *)
Variable decode_utf8 : list Byte.byte -> option string.

Definition UnicodeDecodeError : exn := OtherException "UnicodeDecodeError".

Fixpoint _mqtt_rx_loop_data (self : MqttGpio)
    (msgs : list (string * list Byte.byte)) : list event * MqttGpio * rx_state :=
  match msgs with
  | [] => ([], self, RxWaiting)
  | (topic, data) :: msgs' =>
      match decode_utf8 data with
      | None => (rx_finalizer self, self, RxEnded UnicodeDecodeError)
      | Some payload =>
          let received :=
            EvLog INFO "Received message on topic %r: %r"
              [VStr topic; VStr payload] in
          match _handle_mqtt_msg self topic payload with
          | (tr, Ok self') =>
              let '(tr', self'', st) := _mqtt_rx_loop_data self' msgs' in
              (received :: tr ++ tr', self'', st)
          | (tr, Raise e) =>
              (received :: tr ++ rx_finalizer self, self, RxEnded e)
          end
      end
  end.

End Delivered.

(** ** The event bus

    Modelled from the spec: [EventBus] of [mqtt_io.events], which is not
    part of the sources at hand.  Section 4.1: [subscribe(event_type,
    async_handler)] registers a handler for a tagged event variant, and
    [fire(event)] schedules all matching handlers to run. *)
Inductive event_type := TDigitalInputChanged | TSensorRead.

Definition type_of (e : bus_event) : event_type :=
  match e with
  | DigitalInputChangedEvent _ _ => TDigitalInputChanged
  | SensorReadEvent _ _ => TSensorRead
  end.

Definition event_type_eqb (a b : event_type) : bool :=
  match a, b with
  | TDigitalInputChanged, TDigitalInputChanged | TSensorRead, TSensorRead => true
  | _, _ => false
  end.

Definition handler : Type := bus_event -> list event.

Definition fire (subscribers : list (event_type * handler)) (e : bus_event)
    : list (list event) :=
  map (fun s => snd s e)
    (List.filter (fun s => event_type_eqb (fst s) (type_of e)) subscribers).

(** What the handlers scheduled by the [fire] calls of a trace do. *)
Definition dispatched (subscribers : list (event_type * handler))
    (tr : list event) : list event :=
  flat_map (fun e => match e with
                     | EvFire b => concat (fire subscribers b)
                     | _ => []
                     end) tr.

(** ** Coroutines that depend on Python built-ins *)

(** [await asyncio.sleep(secs)] returns once the delay has elapsed, and
    after one turn of the loop when the delay is not positive.  A delay of
    plus infinity never elapses: the coroutine stays suspended in the
    sleep.  A NaN delay is taken to return: [nan <= 0] is false, so a
    timer is made, and as [nan >= t] is false for every time [t], the loop
    runs that timer when it comes first in the schedule. *)
Definition sleep_returns (secs : float) : bool :=
  negb (PrimFloat.eqb secs infinity).

Section Builtins.

(** [float(s)] for a [str]: [None] when it raises [ValueError]. *)
Variable float_of_str : string -> option float.

(** [round(value, digits)] and [str(value)] on numbers *)
Variable py_round : pynum -> Z -> pynum.
Variable py_str : pynum -> string.

(** The pulse coroutine [set_ms] (lines 288-332) run as far as it gets,
    the hardware writes and the publishes returning normally: to its end
    when the sleep returns, and up to the sleep when it does not. *)
Definition set_ms (topic_prefix : string) (module : gpio_module)
    (output_config : out_conf) (desired_value : bool) (payload : string)
    : list event :=
  match float_of_str payload with
  | None =>
      [EvLog WARNING "Unable to parse ms value as float from payload %r"
         [VStr payload]]
  | Some ms =>
      let secs := PyFloat (ms / 1000)%float in
      [EvLog INFO "Turning output '%s' %s for %s second(s)"
         [VStr (oc_name output_config); VStr (on_off desired_value); VNum secs]]
      ++ set_digital_output module output_config desired_value
      ++ [publish_output topic_prefix output_config
            (if desired_value then oc_on_payload output_config
             else oc_off_payload output_config);
          EvSleep secs]
      ++ (if sleep_returns (ms / 1000)%float then
            [EvLog INFO "Turning output '%s' %s after %s second(s) elapsed"
               [VStr (oc_name output_config);
                VStr (on_off (negb desired_value)); VNum secs]]
            ++ set_digital_output module output_config (negb desired_value)
            ++ [publish_output topic_prefix output_config
                  (if desired_value then oc_off_payload output_config
                   else oc_on_payload output_config)]
          else [])
  end.


(** [publish_sensor_callback] (lines 152-157): no [qos], no [retain]. *)
Definition publish_sensor_callback (topic_prefix : string) : handler :=
  fun e =>
    match e with
    | SensorReadEvent sensor_name value =>
        [EvPublish
           (topic_prefix +:+ "/" +:+ SENSOR_TOPIC +:+ "/" +:+ sensor_name)
           (py_str value) None None]
    | _ => []
    end.

(** One turn of [poll_sensor]'s loop (lines 168-176), given what
    [async_get_value] returned: [None] for Python's [None]. *)
Definition poll_sensor_turn (sensor_module : string) (sc : sens_conf)
    (value : option pynum) : list event :=
  EvGetValue sensor_module (sc_name sc)
  :: match value with
     | Some v =>
         let value := py_round v (sc_digits sc) in
         [EvLog INFO "Read sensor '%s' value of %s"
            [VStr (sc_name sc); VNum value];
          EvFire (SensorReadEvent (sc_name sc) value)]
     | None => []
     end
  ++ [EvSleep (sc_interval sc)].

(** [poll_sensor] over the successive answers of the sensor module: the
    loop has no exit, so it takes one turn per answer it is given. *)
Fixpoint poll_sensor (sensor_module : string) (sc : sens_conf)
    (values : list (option pynum)) : list event :=
  match values with
  | [] => []
  | v :: values' =>
      poll_sensor_turn sensor_module sc v
      ++ poll_sensor sensor_module sc values'
  end.

End Builtins.

(** ** The task reaper, [_remove_finished_tasks] (lines 362-375) *)

Section Reaper.

(** Whether [CancelledError] is an instance of [Exception]: it is up to
    Python 3.7 and derives from [BaseException] alone from 3.8 on. *)
Variable cancelled_is_exception : bool.

(** [isinstance(e, Exception)] *)
Definition is_Exception (e : exn) : bool :=
  match e with
  | ValueError _ _ | KeyError _ | OtherException _ => true
  | CancelledError => cancelled_is_exception
  | OtherBaseException _ => false
  end.

(** [x.done()] for the task object [t] *)
Definition task_state_of (self : MqttGpio) (t : nat) : task_state :=
  match loop_tasks self !! t with
  | Some (_, s) => s
  | None => Pending
  end.

Definition task_done (self : MqttGpio) (t : nat) : bool :=
  done (task_state_of self t).

Definition task_failed (self : MqttGpio) (t : nat) : bool :=
  failed (task_state_of self t).


(** [_LOG.exception("Exception in task: %r:", task)] *)
Definition exception_log (task : nat) : event :=
  EvLog EXCEPTION "Exception in task: %r:" [VTask task].

(** The [for] loop over [finished_tasks]: awaiting a task that is done
    does not suspend; it returns, or raises what ended the task, and
    [except Exception] catches the instances of [Exception] only.  The
    result is the log written and the exception that leaves the loop, if
    one does. *)
Fixpoint await_finished (self : MqttGpio) (finished_tasks : list nat)
    : list event * option exn :=
  match finished_tasks with
  | [] => ([], None)
  | task :: rest =>
      match task_state_of self task with
      | Failed e =>
          if is_Exception e then
            let '(tr, r) := await_finished self rest in
            (exception_log task :: tr, r)
          else ([], Some e)
      | _ => await_finished self rest
      end
  end.

(** One pass of the [while True] loop.  It ends at the top of the loop
    again, with the server it leaves, or with the exception that ends the
    reaper task. *)
Definition reaper_pass (self : MqttGpio) : list event * result MqttGpio :=
  let finished_tasks := List.filter (task_done self) (unawaited_tasks self) in
  match finished_tasks with
  | [] => ([EvSleep (PyInt 1)], Ok self)
  | _ :: _ =>
      match await_finished self finished_tasks with
      | (tr, Some e) => (EvSleep (PyInt 1) :: tr, Raise e)
      | (tr, None) =>
          (EvSleep (PyInt 1) :: tr,
           Ok (set_unawaited_tasks self
                 (List.filter (fun x => negb (task_done self x))
                    (unawaited_tasks self))))
      end
  end.

(** The reaper over the successive states of the task store it finds when
    it wakes up: [progress] maps the store the reaper left to the one it
    finds after its next sleep.  The loop has no exit; it takes one pass
    per element of [progress] unless an exception ends it. *)
Fixpoint _remove_finished_tasks (self : MqttGpio)
    (progress : list (MqttGpio -> MqttGpio)) : list event * result MqttGpio :=
  match progress with
  | [] => ([], Ok self)
  | env :: progress' =>
      match reaper_pass (env self) with
      | (tr, Ok self') =>
          let '(tr', r) := _remove_finished_tasks self' progress' in
          (tr ++ tr', r)
      | (tr, Raise e) => (tr, Raise e)
      end
  end.

End Reaper.





(** The modules of the configured outputs in the order in which they are
    first referenced, leaving out those in [seen]. *)
Fixpoint new_modules (seen : list string) (confs : list out_conf) : list string :=
  match confs with
  | [] => []
  | c :: confs' =>
      if bool_decide (oc_module c ∈ seen) then new_modules seen confs'
      else oc_module c :: new_modules (seen ++ [oc_module c]) confs'
  end.

Definition first_modules (confs : list out_conf) : list string :=
  new_modules [] confs.

(** [n] worker tasks, the one of index [q] draining the queue [q]. *)
Definition worker_tasks (n : nat) : list (coro * task_state) :=
  map (fun q => (CoDigitalOutputLoop q, Pending)) (seq 0 n).

(** The server while [_init_digital_outputs] runs, when the modules met so
    far are [ms], in this order: the module of rank [i] owns the queue [i],
    still empty, and the task [i], tracked, is the worker of that queue. *)
Definition aligned (self : MqttGpio) (ms : list string) : Prop :=
  NoDup ms
  /\ (forall m i, module_output_queues self !! m = Some i <-> ms !! i = Some m)
  /\ queues self = replicate (length ms) []
  /\ loop_tasks self = worker_tasks (length ms)
  /\ unawaited_tasks self = seq 0 (length ms).

(** The whole of one turn of the worker's loop on the command [c], as it
    would run with no other task in between. *)
Definition process (topic_prefix : string) (c : command) : list event :=
  let '(module, output_config, payload) := c in
  EvQueueGet c
  :: (if negb (valid_payload output_config payload) then
        [invalid_payload_warning output_config payload]
      else
        set_digital_output module output_config
          (String.eqb payload (oc_on_payload output_config))
        ++ [publish_output topic_prefix output_config payload]).

(** What is left of the current turn at a suspension point. *)
Definition pending (topic_prefix : string) (pc : worker_pc) : list event :=
  match pc with
  | WGet => []
  | WSetPin (module, output_config, payload) =>
      [set_pin_log output_config
         (String.eqb payload (oc_on_payload output_config));
       publish_output topic_prefix output_config payload]
  | WPublish _ => []
  end.

Definition executing (pc : worker_pc) : option command :=
  match pc with
  | WGet => None
  | WSetPin c | WPublish c => Some c
  end.

(** ** The scheduler, restricted to the router and the workers

    The event loop runs one callback at a time.  A step is either the
    receive loop handing a message to [_handle_mqtt_msg] (which returns
    normally), or a worker task running from one suspension point to the
    next.  Which one comes next is the scheduler's choice. *)
Module Serial.

Record system := {
  server : MqttGpio;
  pcs : gmap nat worker_pc;  (* where each worker task is suspended *)
}.

Definition pc_of (s : system) (t : nat) : worker_pc :=
  default WGet (pcs s !! t).

Inductive label :=
| LMsg (topic payload : string)
| LRun (task : nat).

Definition is_worker (self : MqttGpio) (t q : nat) : Prop :=
  loop_tasks self !! t = Some (CoDigitalOutputLoop q, Pending).

Inductive step : system -> label -> list event -> system -> Prop :=
| step_msg s topic payload tr self' :
    _handle_mqtt_msg (server s) topic payload = (tr, Ok self') ->
    step s (LMsg topic payload) tr {| server := self'; pcs := pcs s |}
| step_worker s t q content tr pc' content' :
    is_worker (server s) t q ->
    queues (server s) !! q = Some content ->
    worker_step (topic_prefix (server s)) (pc_of s t) content
      = Some (tr, pc', content') ->
    step s (LRun t) tr
      {| server := set_queues (server s) (<[q := content']> (queues (server s)));
         pcs := <[t := pc']> (pcs s) |}.

(** An execution with its history: the steps taken, oldest first, each
    with the effects it had. *)
Inductive run : system -> list (label * list event) -> system -> Prop :=
| run_nil s : run s [] s
| run_snoc s h s' l tr s'' :
    run s h s' -> step s' l tr s'' -> run s (h ++ [(l, tr)]) s''.

(** The commands the router put on the queue [q], in the order of the
    puts. *)
Definition puts_in (q : nat) (tr : list event) : list command :=
  flat_map (fun e => match e with
                     | EvQueuePut q' c => if Nat.eqb q' q then [c] else []
                     | _ => []
                     end) tr.

Definition puts_of (q : nat) (h : list (label * list event)) : list command :=
  flat_map (fun x => match fst x with
                     | LMsg _ _ => puts_in q (snd x)
                     | LRun _ => []
                     end) h.

(** Everything the task [t] did, in order. *)
Definition trace_of (t : nat) (h : list (label * list event)) : list event :=
  flat_map (fun x => match fst x with
                     | LRun t' => if Nat.eqb t' t then snd x else []
                     | LMsg _ _ => []
                     end) h.

(** The server as [run] leaves it before the loop starts: a fresh object,
    [_init_gpio_modules], then [_init_digital_outputs]. *)
Definition booted (prefix status stopped : string) (modules : list string)
    (outputs : list out_conf) (s : system) : Prop :=
  exists tr,
    _init_digital_outputs
      (_init_gpio_modules (MqttGpio_init prefix status stopped outputs) modules)
    = (tr, Ok (server s))
    /\ pcs s = ∅.

(** What the registries of queues and worker tasks satisfy from
    [_init_digital_outputs] on. *)
Definition wf (self : MqttGpio) : Prop :=
  (forall m q, module_output_queues self !! m = Some q ->
     q < length (queues self))%nat
  /\ (forall m1 m2 q,
        module_output_queues self !! m1 = Some q ->
        module_output_queues self !! m2 = Some q -> m1 = m2)
  /\ (forall t1 t2 q, is_worker self t1 q -> is_worker self t2 q -> t1 = t2)
  /\ (forall m q, module_output_queues self !! m = Some q ->
        exists t, is_worker self t q)
  /\ (forall t q, is_worker self t q -> (q < length (queues self))%nat).

Definition module_of (c : command) : string := oc_module (snd (fst c)).

(** The invariant of an execution with history [h]: a command waits on,
    or is taken from, the queue of its output's module; and for each
    worker, what it did so far, what is left of its current turn and the
    turns its queue still holds make up the turns of all the commands put
    on the queue, in the order of the puts. *)
Definition inv (prefix : string) (h : list (label * list event))
    (s : system) : Prop :=
  topic_prefix (server s) = prefix
  /\ wf (server s)
  /\ (forall q content c, queues (server s) !! q = Some content ->
        In c content ->
        module_output_queues (server s) !! module_of c = Some q)
  /\ (forall t c, executing (pc_of s t) = Some c ->
        exists q, is_worker (server s) t q
          /\ module_output_queues (server s) !! module_of c = Some q)
  /\ (forall t q content, is_worker (server s) t q ->
        queues (server s) !! q = Some content ->
        trace_of t h ++ pending prefix (pc_of s t)
          ++ flat_map (process prefix) content
        = flat_map (process prefix) (puts_of q h)).

End Serial.

(** ** The scheduler during [shutdown] (lines 446-473)

    Tasks are the loop's task objects, referred to by index.  A step runs
    one task from a suspension point to the next, or to its end.
    [t.cancel()] on a task that is not done marks it; the mark is delivered
    as a [CancelledError] at the task's suspension point when it next runs.
    The receive loop and the shutdown coroutine follow the source line by
    line; the reaper and every other task (workers, pollers, pulses, the
    client library's own) may do anything and end at any time. *)
Module Shutdown.

(** Where the receive loop is suspended: in [deliver_message], or inside
    its [finally] block in [publish] or in [disconnect]. *)
Inductive rx_pc := RxDeliver | RxFinPublish | RxFinDisconnect.

(** Where [shutdown] is suspended: not started yet, in the sleep of the
    first polling loop, or in the sleep of the second one. *)
Inductive shutdown_pc :=
| SdCreated (signal_name : string)
| SdWaitMain (all_done : bool)
| SdWaitRest (tasks : list nat) (all_done : bool).

Inductive code :=
| RxLoop (pc : rx_pc)
| Reaper
| ShutdownTask (pc : shutdown_pc)
| Other.

Record task := {
  t_code : code;
  t_done : bool;
  t_must_cancel : bool;
}.

Record loop_state := {
  srv : MqttGpio;
  all_tasks : list task;   (* asyncio.Task.all_tasks(loop=self.loop) *)
  main_tasks : list nat;   (* self.tasks *)
}.

Inductive obs :=
| ObsCancel (t : nat)              (* t.cancel() *)
| ObsDone (t : nat)                (* the task t ended *)
| ObsEffect (t : nat) (e : event)  (* an effect of the task t *)
| ObsStop.                         (* loop.stop() *)

(** [t.done()] *)
Definition is_done (ts : list task) (t : nat) : bool :=
  match ts !! t with
  | Some x => t_done x
  | None => false
  end.

(** [t.cancel()]: no effect on a task that is done *)
Definition mark (x : task) : task :=
  if t_done x then x
  else {| t_code := t_code x; t_done := false; t_must_cancel := true |}.

Definition cancel (ts : list task) (t : nat) : list task :=
  alter mark t ts.

Definition cancel_each (ts : list task) (l : list nat) : list task :=
  fold_left cancel l ts.

Definition with_tasks (s : loop_state) (ts : list task) : loop_state :=
  {| srv := srv s; all_tasks := ts; main_tasks := main_tasks s |}.

Definition suspend_at (c : code) : task :=
  {| t_code := c; t_done := false; t_must_cancel := false |}.

Definition ended (c : code) : task :=
  {| t_code := c; t_done := true; t_must_cancel := false |}.

(** The three stretches of the receive loop's [finally] block. *)
Definition fin_publish (self : MqttGpio) : list event :=
  [EvPublish (topic_prefix self +:+ "/" +:+ status_topic self)
     (status_payload_stopped self) (Some 1) (Some true)].
Definition fin_disconnect : list event :=
  [EvLog INFO "Disconnecting from MQTT..." []; EvDisconnect].
Definition fin_end : list event :=
  [EvLog INFO "MQTT disconnected" []].

Definition received (topic payload : string) : event :=
  EvLog INFO "Received message on topic %r: %r" [VStr topic; VStr payload].

(** [[t for t in all_tasks if not t.done() and t is not current_task]] *)
Definition remaining (ts : list task) (current : nat) : list nat :=
  List.filter (fun t => negb (is_done ts t) && negb (Nat.eqb t current))
    (seq 0 (length ts)).

(** [asyncio.sleep(0.1)]: the binary64 nearest to one tenth *)
Definition sleep_tenth : event := EvSleep (PyFloat 0x1.999999999999ap-4%float).

Inductive step : loop_state -> list obs -> loop_state -> Prop :=
(* the receive loop *)
| rx_message s i topic payload tr self' :
    all_tasks s !! i = Some (suspend_at (RxLoop RxDeliver)) ->
    _handle_mqtt_msg (srv s) topic payload = (tr, Ok self') ->
    step s (map (ObsEffect i) (received topic payload :: tr))
      {| srv := self'; all_tasks := all_tasks s; main_tasks := main_tasks s |}
| rx_message_raises s i topic payload tr e :
    all_tasks s !! i = Some (suspend_at (RxLoop RxDeliver)) ->
    _handle_mqtt_msg (srv s) topic payload = (tr, Raise e) ->
    step s (map (ObsEffect i)
              (received topic payload :: tr ++ fin_publish (srv s)))
      (with_tasks s (<[i := suspend_at (RxLoop RxFinPublish)]> (all_tasks s)))
| rx_cancelled s i :
    all_tasks s !! i
      = Some {| t_code := RxLoop RxDeliver; t_done := false;
                t_must_cancel := true |} ->
    step s (map (ObsEffect i) (fin_publish (srv s)))
      (with_tasks s (<[i := suspend_at (RxLoop RxFinPublish)]> (all_tasks s)))
| rx_published s i :
    all_tasks s !! i = Some (suspend_at (RxLoop RxFinPublish)) ->
    step s (map (ObsEffect i) fin_disconnect)
      (with_tasks s (<[i := suspend_at (RxLoop RxFinDisconnect)]> (all_tasks s)))
| rx_disconnected s i :
    all_tasks s !! i = Some (suspend_at (RxLoop RxFinDisconnect)) ->
    step s (map (ObsEffect i) fin_end ++ [ObsDone i])
      (with_tasks s (<[i := ended (RxLoop RxFinDisconnect)]> (all_tasks s)))
| rx_cancelled_in_finally s i pc :
    all_tasks s !! i
      = Some {| t_code := RxLoop pc; t_done := false; t_must_cancel := true |} ->
    pc <> RxDeliver ->
    step s [ObsDone i] (with_tasks s (<[i := ended (RxLoop pc)]> (all_tasks s)))
(* the reaper and the other tasks *)
| task_runs s i x tr :
    all_tasks s !! i = Some x -> t_done x = false ->
    t_code x = Reaper \/ t_code x = Other ->
    step s (map (ObsEffect i) tr) s
| task_ends s i x tr :
    all_tasks s !! i = Some x -> t_done x = false ->
    t_code x = Reaper \/ t_code x = Other ->
    step s (map (ObsEffect i) tr ++ [ObsDone i])
      (with_tasks s (<[i := ended (t_code x)]> (all_tasks s)))
| task_created s :
    step s [] (with_tasks s (all_tasks s ++ [suspend_at Other]))
(* shutdown *)
| sd_start s i sig x :
    all_tasks s !! i = Some x -> t_done x = false ->
    t_code x = ShutdownTask (SdCreated sig) ->
    let ts := cancel_each (all_tasks s) (main_tasks s) in
    step s
      (ObsEffect i (EvLog WARNING "Received exit signal %s" [VStr sig])
       :: map ObsCancel (main_tasks s)
       ++ [ObsEffect i (EvLog INFO "Waiting for main task to complete..." []);
           ObsEffect i sleep_tenth])
      (with_tasks s
         (<[i := suspend_at (ShutdownTask
                   (SdWaitMain (forallb (is_done ts) (main_tasks s))))]> ts))
| sd_wait_main s i x :
    all_tasks s !! i = Some x -> t_done x = false ->
    t_code x = ShutdownTask (SdWaitMain false) ->
    step s [ObsEffect i sleep_tenth]
      (with_tasks s
         (<[i := suspend_at (ShutdownTask
                   (SdWaitMain (forallb (is_done (all_tasks s)) (main_tasks s))))]>
            (all_tasks s)))
| sd_cancel_rest s i x :
    all_tasks s !! i = Some x -> t_done x = false ->
    t_code x = ShutdownTask (SdWaitMain true) ->
    let tasks := remaining (all_tasks s) i in
    let ts := cancel_each (all_tasks s) tasks in
    step s
      (ObsEffect i (EvLog INFO "Cancelling %s remaining tasks"
                      [VNum (PyInt (Z.of_nat (length tasks)))])
       :: map ObsCancel tasks
       ++ [ObsEffect i (EvLog INFO "Waiting for %s remaining tasks to complete..."
                          [VNum (PyInt (Z.of_nat (length tasks)))]);
           ObsEffect i sleep_tenth])
      (with_tasks s
         (<[i := suspend_at (ShutdownTask
                   (SdWaitRest tasks (forallb (is_done ts) tasks)))]> ts))
| sd_wait_rest s i x tasks :
    all_tasks s !! i = Some x -> t_done x = false ->
    t_code x = ShutdownTask (SdWaitRest tasks false) ->
    step s [ObsEffect i sleep_tenth]
      (with_tasks s
         (<[i := suspend_at (ShutdownTask
                   (SdWaitRest tasks (forallb (is_done (all_tasks s)) tasks)))]>
            (all_tasks s)))
| sd_stop s i x tasks :
    all_tasks s !! i = Some x -> t_done x = false ->
    t_code x = ShutdownTask (SdWaitRest tasks true) ->
    step s
      [ObsEffect i (EvLog DEBUG "Tasks all finished. Stopping loop..." []);
       ObsStop;
       ObsEffect i (EvLog DEBUG "Loop stopped" []);
       ObsDone i]
      (with_tasks s (<[i := ended (ShutdownTask (SdWaitRest tasks true))]>
                       (all_tasks s))).

Inductive run : loop_state -> list obs -> loop_state -> Prop :=
| run_nil s : run s [] s
| run_snoc s h s' o s'' : run s h s' -> step s' o s'' -> run s (h ++ o) s''.

(** An execution given step by step. *)
Fixpoint run_through (s : loop_state) (steps : list (list obs))
    (s' : loop_state) : Prop :=
  match steps with
  | [] => s = s'
  | o :: steps' => exists s1, step s o s1 /\ run_through s1 steps' s'
  end.

(** In [h], every observation satisfying [Q] has one satisfying [P]
    somewhere before it. *)
Definition precedes (P Q : obs -> bool) (h : list obs) : Prop :=
  forall h1 y h2, h = h1 ++ y :: h2 -> Q y = true -> existsb P h1 = true.

(** A checker for [precedes]: [seen] tells whether an observation
    satisfying [P] has been met. *)
Fixpoint precedesb (P Q : obs -> bool) (seen : bool) (h : list obs) : bool :=
  match h with
  | [] => true
  | y :: h' => (negb (Q y) || seen) && precedesb P Q (seen || P y) h'
  end.

Definition is_cancel_of (t : nat) (o : obs) : bool :=
  match o with ObsCancel t' => Nat.eqb t' t | _ => false end.
Definition is_done_of (t : nat) (o : obs) : bool :=
  match o with ObsDone t' => Nat.eqb t' t | _ => false end.
Definition is_stop (o : obs) : bool :=
  match o with ObsStop => true | _ => false end.
Definition is_disconnect_by (t : nat) (o : obs) : bool :=
  match o with ObsEffect t' EvDisconnect => Nat.eqb t' t | _ => false end.
Definition is_stopped_status_by (self : MqttGpio) (t : nat) (o : obs) : bool :=
  match o with
  | ObsEffect t' (EvPublish topic payload (Some 1) (Some true)) =>
      Nat.eqb t' t
      && String.eqb topic (topic_prefix self +:+ "/" +:+ status_topic self)
      && String.eqb payload (status_payload_stopped self)
  | _ => false
  end.
(** a cancellation of a task outside [self.tasks] *)
Definition is_cancel_outside (main : list nat) (o : obs) : bool :=
  match o with
  | ObsCancel t => negb (existsb (Nat.eqb t) main)
  | _ => false
  end.

Definition is_cancel (o : obs) : bool :=
  match o with ObsCancel _ => true | _ => false end.
Definition is_effect_by (t : nat) (o : obs) : bool :=
  match o with ObsEffect t' _ => Nat.eqb t' t | _ => false end.



(** Which task may run which code: the receive loop is the task [rx], the
    reaper is [rp], [shutdown] runs in [sd], and no other task runs any
    of the three. *)
Definition role_ok (rx rp sd j : nat) (c : code) : Prop :=
  match c with
  | RxLoop _ => j = rx
  | Reaper => j = rp
  | ShutdownTask _ => j = sd
  | Other => j <> rx /\ j <> rp /\ j <> sd
  end.

Definition roles (rx rp sd : nat) (ts : list task) : Prop :=
  (rx < length ts /\ rp < length ts /\ sd < length ts)%nat
  /\ (rx <> rp /\ rx <> sd /\ rp <> sd)
  /\ forall j x, ts !! j = Some x -> role_ok rx rp sd j (t_code x).

Definition same_role (c c' : code) : Prop :=
  match c, c' with
  | RxLoop _, RxLoop _ | Reaper, Reaper
  | ShutdownTask _, ShutdownTask _ | Other, Other => True
  | _, _ => False
  end.

Definition same_config (a b : MqttGpio) : Prop :=
  topic_prefix a = topic_prefix b
  /\ status_topic a = status_topic b
  /\ status_payload_stopped a = status_payload_stopped b.

(** The invariants of an execution that starts in [s0], with history [h]
    and current state [s]. *)
Section Invariants.

Variables (s0 : loop_state) (rx rp sd : nat).

(** Who is who, and every end of a primary task is in the history. *)
Definition shape (h : list obs) (s : loop_state) : Prop :=
  main_tasks s = [rx; rp]
  /\ same_config (srv s) (srv s0)
  /\ roles rx rp sd (all_tasks s)
  /\ forall t, t = rx \/ t = rp ->
       is_done (all_tasks s) t = true -> existsb (is_done_of t) h = true.

(** How far [shutdown] is, and what the history holds at that point. *)
Definition phase (h : list obs) (s : loop_state) : Prop :=
  match all_tasks s !! sd with
  | Some x =>
      match t_code x with
      | ShutdownTask (SdCreated _) =>
          t_done x = false
          /\ existsb is_cancel h = false /\ existsb is_stop h = false
      | ShutdownTask (SdWaitMain b) =>
          t_done x = false
          /\ existsb (is_cancel_of rx) h = true
          /\ existsb (is_cancel_of rp) h = true
          /\ existsb (is_cancel_outside [rx; rp]) h = false
          /\ existsb is_stop h = false
          /\ (b = true -> is_done (all_tasks s) rx = true
                          /\ is_done (all_tasks s) rp = true)
      | ShutdownTask (SdWaitRest tasks b) =>
          is_done (all_tasks s) rx = true
          /\ is_done (all_tasks s) rp = true
          /\ existsb (is_cancel_of rx) h = true
          /\ existsb (is_cancel_of rp) h = true
          /\ (forall t, existsb (is_cancel_of t) h = true ->
                t = rx \/ t = rp \/ In t tasks)
          /\ (forall t, In t tasks ->
                t <> sd
                /\ (is_done (all_tasks s) t = true ->
                    existsb (is_done_of t) h = true))
          /\ (t_done x = false ->
                existsb is_stop h = false
                /\ (b = true ->
                    forall t, In t tasks -> is_done (all_tasks s) t = true))
      | _ => False
      end
  | None => False
  end.

(** Once the receive loop is in its [finally] block, the "stopped"
    status is in the history. *)
Definition finalizing (h : list obs) (s : loop_state) : Prop :=
  forall x pc, all_tasks s !! rx = Some x -> t_code x = RxLoop pc ->
    pc <> RxDeliver ->
    existsb (is_stopped_status_by (srv s0) rx) h = true.

(** The receive loop when it did nothing between the signal and its
    cancellation: it is cancelled once, while it waits for a message,
    and its [finally] block runs to its end. *)
Definition undisturbed (h : list obs) (s : loop_state) : Prop :=
  match all_tasks s !! rx with
  | Some x =>
      match t_code x, t_done x, t_must_cancel x with
      | RxLoop RxDeliver, false, false => existsb is_cancel h = false
      | RxLoop RxDeliver, false, true
      | RxLoop RxFinPublish, false, false =>
          existsb (is_cancel_of rx) h = true
      | RxLoop RxFinDisconnect, _, false =>
          existsb (is_cancel_of rx) h = true
          /\ existsb (is_disconnect_by rx) h = true
      | _, _, _ => False
      end
  | None => False
  end.


(** The order of the observations. *)
Definition ordered (h : list obs) : Prop :=
  precedes (is_cancel_of rx) (is_cancel_outside [rx; rp]) h
  /\ precedes (is_cancel_of rp) (is_cancel_outside [rx; rp]) h
  /\ precedes (is_done_of rx) (is_cancel_outside [rx; rp]) h
  /\ precedes (is_done_of rp) (is_cancel_outside [rx; rp]) h
  /\ precedes (is_stopped_status_by (srv s0) rx) (is_disconnect_by rx) h
  /\ (forall t, existsb (is_cancel_of t) h = true ->
        precedes (is_done_of t) is_stop h).

End Invariants.

(** The loop when the signal handler has just made the shutdown task:
    the two primary tasks are running, the receive loop waits for a
    message, and there is no other receive loop or shutdown task. *)
Definition signalled (s : loop_state) (rx rp sd : nat) (sig : string) : Prop :=
  all_tasks s !! rx = Some (suspend_at (RxLoop RxDeliver))
  /\ all_tasks s !! rp = Some (suspend_at Reaper)
  /\ all_tasks s !! sd = Some (suspend_at (ShutdownTask (SdCreated sig)))
  /\ main_tasks s = [rx; rp]
  /\ forall j x, all_tasks s !! j = Some x ->
       j <> rx -> j <> rp -> j <> sd -> t_code x = Other.

End Shutdown.

(** ** Shapes of topics *)

(** A string usable as one level of a topic: not empty, no level
    separator, no newline. *)
Definition segment (s : string) : bool :=
  negb (String.eqb s EmptyString)
  && negb (string_mem slash s) && negb (string_mem newline s).

(** The topic does not start with [<prefix>/output/]. *)
Definition wrong_prefix (prefix topic : string) : Prop :=
  forall rest, topic <> prefix +:+ "/" +:+ OUTPUT_TOPIC +:+ "/" +:+ rest.

(** The topic is [<prefix>/output/<suffix>] or [<prefix>/output//<suffix>]:
    the level between [output] and the last one is absent or empty. *)
Definition name_missing (prefix topic : string) : Prop :=
  exists suffix,
    string_mem slash suffix = false
    /\ (topic = prefix +:+ "/" +:+ OUTPUT_TOPIC +:+ "/" +:+ suffix
        \/ topic = prefix +:+ "/" +:+ OUTPUT_TOPIC +:+ "//" +:+ suffix).

(** ** A small configuration

    One module [gpio] with the outputs [relay1] and (inverted) [lamp], topic
    prefix [P]; the server is taken through [__init__],
    [_init_gpio_modules] and [_init_digital_outputs] as [run] does. *)
Module Demo.

Definition relay1 : out_conf :=
  {| oc_name := "relay1"; oc_module := "gpio"; oc_pin := PinNum 4;
     oc_inverted := false; oc_on_payload := "ON"; oc_off_payload := "OFF";
     oc_retain := true |}.

Definition lamp : out_conf :=
  {| oc_name := "lamp"; oc_module := "gpio"; oc_pin := PinNum 17;
     oc_inverted := true; oc_on_payload := "1"; oc_off_payload := "0";
     oc_retain := false |}.

Definition fresh : MqttGpio :=
  _init_gpio_modules (MqttGpio_init "P" "status" "stopped" [relay1; lamp])
    ["gpio"].

Definition server : MqttGpio :=
  match snd (_init_digital_outputs fresh) with
  | Ok self => self
  | Raise _ => fresh
  end.

(** The server some time later: a pulse task returned, another one ended
    with an error, a third one is still sleeping. *)
Definition busy : MqttGpio :=
  {| topic_prefix := topic_prefix server;
     status_topic := status_topic server;
     status_payload_stopped := status_payload_stopped server;
     config_digital_outputs := config_digital_outputs server;
     digital_output_configs := digital_output_configs server;
     gpio_modules := gpio_modules server;
     module_output_queues := module_output_queues server;
     queues := queues server;
     loop_tasks :=
       [(CoDigitalOutputLoop 0, Pending);
        (CoSetMs "gpio" relay1 true "250", Returned);
        (CoSetMs "gpio" lamp true "10",
         Failed (OtherException "OSError('pin busy')"));
        (CoSetMs "gpio" relay1 false "5000", Pending)];
     unawaited_tasks := [0; 1; 2; 3]%nat |}.

(** An execution: two [set] messages for the two outputs, then the worker
    of the module takes the first command and starts its hardware write. *)
Definition relay_on : command := ("gpio", relay1, "ON").
Definition lamp_on : command := ("gpio", lamp, "1").

Definition s0 : Serial.system := {| Serial.server := server; Serial.pcs := ∅ |}.
Definition s1 : Serial.system :=
  {| Serial.server := put_nowait server 0 relay_on; Serial.pcs := ∅ |}.
Definition s2 : Serial.system :=
  {| Serial.server := put_nowait (Serial.server s1) 0 lamp_on;
     Serial.pcs := ∅ |}.
Definition s3 : Serial.system :=
  {| Serial.server :=
       set_queues (Serial.server s2)
         (<[0%nat := [lamp_on]]> (queues (Serial.server s2)));
     Serial.pcs := <[0%nat := WSetPin relay_on]> ∅ |}.


(** A shutdown: the receive loop, the reaper, the worker and the shutdown
    task the signal handler made for SIGTERM. *)
Definition loop0 : Shutdown.loop_state :=
  {| Shutdown.srv := server;
     Shutdown.all_tasks :=
       [Shutdown.suspend_at (Shutdown.RxLoop Shutdown.RxDeliver);
        Shutdown.suspend_at Shutdown.Reaper;
        Shutdown.suspend_at Shutdown.Other;
        Shutdown.suspend_at
          (Shutdown.ShutdownTask (Shutdown.SdCreated "SIGTERM"))];
     Shutdown.main_tasks := [0; 1]%nat |}.

Definition shutdown_steps : list (list Shutdown.obs) :=
  let by3 := Shutdown.ObsEffect 3 in
  let by0 := Shutdown.ObsEffect 0 in
  [ (* shutdown starts: it cancels the two primary tasks *)
    [by3 (EvLog WARNING "Received exit signal %s" [VStr "SIGTERM"]);
     Shutdown.ObsCancel 0; Shutdown.ObsCancel 1;
     by3 (EvLog INFO "Waiting for main task to complete..." []);
     by3 Shutdown.sleep_tenth];
    (* the receive loop is cancelled: its finalizer publishes *)
    [by0 (EvPublish "P/status" "stopped" (Some 1) (Some true))];
    (* the reaper ends *)
    [Shutdown.ObsDone 1];
    (* shutdown polls: the receive loop is not done *)
    [by3 Shutdown.sleep_tenth];
    [by0 (EvLog INFO "Disconnecting from MQTT..." []); by0 EvDisconnect];
    [by0 (EvLog INFO "MQTT disconnected" []); Shutdown.ObsDone 0];
    (* shutdown polls: both primary tasks are done *)
    [by3 Shutdown.sleep_tenth];
    (* it cancels what remains: the worker *)
    [by3 (EvLog INFO "Cancelling %s remaining tasks" [VNum (PyInt 1)]);
     Shutdown.ObsCancel 2;
     by3 (EvLog INFO "Waiting for %s remaining tasks to complete..."
            [VNum (PyInt 1)]);
     by3 Shutdown.sleep_tenth];
    [Shutdown.ObsDone 2];
    [by3 Shutdown.sleep_tenth];
    [by3 (EvLog DEBUG "Tasks all finished. Stopping loop..." []);
     Shutdown.ObsStop;
     by3 (EvLog DEBUG "Loop stopped" []);
     Shutdown.ObsDone 3] ].

Definition shutdown_history : list Shutdown.obs := concat shutdown_steps.

(** A stand-in for [float]: it knows the decimal payloads used below. *)
Definition float_of_str (s : string) : option float :=
  if String.eqb s "250" then Some 250%float
  else if String.eqb s "0" then Some 0%float
  else if String.eqb s "-5" then Some (-5)%float
  else None.

End Demo.

(** ** Signs of binary64 values *)

(** Zero of either sign, a negative finite number or minus infinity: the
    values [x] with [x <= 0]. *)
Definition nonpos_sf (x : spec_float) : bool :=
  match x with
  | S754_zero _ | S754_finite true _ _ | S754_infinity true => true
  | _ => false
  end.

(** ** The dict of outputs, in order

    [self.digital_output_configs] is built by a comprehension over
    [config["digital_outputs"]] (lines 129-131).  A Python dict keeps its
    keys in the order in which they were first inserted; assigning to a key
    that is present replaces the value and leaves the key in its place. *)
Fixpoint dict_set (x : out_conf) (d : list out_conf) : list out_conf :=
  match d with
  | [] => [x]
  | y :: d' =>
      if String.eqb (oc_name y) (oc_name x) then x :: d'
      else y :: dict_set x d'
  end.

(** [{x["name"]: x for x in l}.values()] *)
Definition dict_values (l : list out_conf) : list out_conf :=
  fold_left (fun d x => dict_set x d) l [].

Definition has_name (n : string) (x : out_conf) : bool :=
  String.eqb (oc_name x) n.

(** What follows the first character of a string. *)
Definition after_first (s : string) : string :=
  match s with
  | String _ s' => s'
  | EmptyString => EmptyString
  end.

(** ** What [.+$] accepts

    One or more characters other than a newline, up to the end of the
    string or up to a newline that ends it. *)
Fixpoint to_end (s : string) : bool :=
  match s with
  | EmptyString => false
  | String c s' =>
      negb (Ascii.eqb c newline)
      && (to_end s'
          || match s' with
             | EmptyString => true
             | String c' EmptyString => Ascii.eqb c' newline
             | _ => false
             end)
  end.

Definition is_disconnect (e : event) : bool :=
  match e with EvDisconnect => true | _ => false end.

(** [self.module.setup_pin(out_conf["pin"], PinDirection.OUTPUT, None,
    out_conf)] of line 133, on the module object [module]. *)
Definition setup_output (module : gpio_module) (out_conf : out_conf) : event :=
  EvSetupPin module (oc_pin out_conf) (oc_name out_conf).

(** ** Connecting: [_init_mqtt] (lines 180-257) *)

(** The truth value of a configuration string: false for [None] and for
    the empty string. *)
Definition truthy (s : option string) : bool :=
  match s with
  | Some (String _ _) => true
  | _ => false
  end.

(** [config["mqtt"]["tls"]], with the keys [_init_mqtt] reads. *)
Record tls_conf := {
  tls_enabled : bool;
  tls_certfile : option string;
  tls_keyfile : option string;
  tls_insecure : bool;
  tls_ca_certs : option string;
  tls_ca_file : option string;
  tls_ca_data : option string;
}.

(** [config["mqtt"]], with the keys [_init_mqtt] reads beside
    [topic_prefix] and [status_topic], which the server record holds. *)
Record mqtt_conf := {
  mc_client_id : option string;
  mc_tls : option tls_conf;
  mc_user : option string;
  mc_password : option string;
  mc_host : string;
  mc_port : Z;
  mc_clean_session : bool;
  mc_status_payload_dead : string;
  mc_status_payload_running : string;
}.

Record will_conf := {
  will_retain : bool;
  will_topic : string;
  will_message : string;
  will_qos : Z;
}.

(** The [client_config] dict; [None] stands for a key that is not set. *)
Record client_config := {
  cc_certfile : option string;
  cc_keyfile : option string;
  cc_check_hostname : option bool;
  cc_will : will_conf;
}.

(** The keyword arguments of [connect]; the three certificate-authority
    arguments are given when TLS is enabled, each with the value the
    configuration has for it, [None] included. *)
Record connect_kwargs := {
  ck_cleansession : bool;
  ck_ca : option (option string * option string * option string);
}.

(** What [_init_mqtt] does to the outside world, in program order. *)
Inductive init_event :=
| MqttClient (client_id : string) (config : client_config)
| MqttConnect (uri : string) (kwargs : connect_kwargs)
| MqttSubscribe (topic : string) (qos : Z)
| Init (e : event).

(** [str] of an [int] *)
Definition str_of_int (z : Z) : string := NilZero.string_of_int (Z.to_int z).

(** [QOS_1] of [hbmqtt.mqtt.constants] *)
Definition QOS_1 : Z := 1.

(** The payload published for an output at start-up (lines 246-251). *)
Definition initial_payload (initial : string) (out_conf : out_conf) : string :=
  let value := String.eqb initial "high" in
  if xorb value (oc_inverted out_conf) then oc_on_payload out_conf
  else oc_off_payload out_conf.

Definition subscribed (tr : list init_event) : list string :=
  flat_map (fun e => match e with
                     | MqttSubscribe topic _ => [topic]
                     | _ => []
                     end) tr.

Section Connect.

(** [sha1(s.encode("utf8")).hexdigest()] *)
Variable sha1_hexdigest : string -> string.

(** [out_conf["publish_initial"]] and [out_conf["initial"]]: the two keys
    of an entry of [config["digital_outputs"]] that only [_init_mqtt]
    reads. *)
Variable publish_initial : out_conf -> bool.
Variable initial : out_conf -> string.

Definition mqtt_uri (config : mqtt_conf) (tls_enabled : bool) : string :=
  ("mqtt" +:+ (if tls_enabled then "s" else "") +:+ "://")
  +:+ (if truthy (mc_user config) && truthy (mc_password config)
       then default "" (mc_user config) +:+ ":"
            +:+ default "" (mc_password config) +:+ "@"
       else "")
  +:+ (mc_host config +:+ ":" +:+ str_of_int (mc_port config)).

(** The coroutine run to its end, every awaited call returning.  [run]
    calls it after [_init_digital_outputs], so the values of
    [self.digital_output_configs] are those of the dict built from
    [config["digital_outputs"]], in the dict's order. *)
Definition _init_mqtt (self : MqttGpio) (config : mqtt_conf) : list init_event :=
  let topic_prefix := topic_prefix self in
  let client_id :=
    if truthy (mc_client_id config) then default "" (mc_client_id config)
    else "mqtt-gpio-" +:+ sha1_hexdigest topic_prefix in
  let tls_enabled :=
    match mc_tls config with
    | Some tls_config => tls_enabled tls_config
    | None => false
    end in
  let uri := mqtt_uri config tls_enabled in
  let with_cert :=
    match mc_tls config with
    | Some tls_config =>
        tls_enabled
        && truthy (tls_certfile tls_config) && truthy (tls_keyfile tls_config)
    | None => false
    end in
  let client_config :=
    {| cc_certfile :=
         if with_cert then mc_tls config ≫= tls_certfile else None;
       cc_keyfile :=
         if with_cert then mc_tls config ≫= tls_keyfile else None;
       cc_check_hostname :=
         if tls_enabled
         then (fun tls_config => negb (tls_insecure tls_config)) <$> mc_tls config
         else None;
       cc_will :=
         {| will_retain := true;
            will_topic := topic_prefix +:+ "/" +:+ status_topic self;
            will_message := mc_status_payload_dead config;
            will_qos := 1 |} |} in
  let connect_kwargs :=
    {| ck_cleansession := mc_clean_session config;
       ck_ca :=
         if tls_enabled
         then (fun tls_config =>
                 (tls_ca_certs tls_config, tls_ca_file tls_config,
                  tls_ca_data tls_config)) <$> mc_tls config
         else None |} in
  let values := dict_values (config_digital_outputs self) in
  [MqttClient client_id client_config;
   Init (EvLog INFO "Connecting to MQTT..." []);
   MqttConnect uri connect_kwargs;
   Init (EvLog INFO "Connected to MQTT" [])]
  ++ flat_map
       (fun out_conf =>
          flat_map
            (fun suffix =>
               let topic :=
                 control_topic topic_prefix (oc_name out_conf) suffix in
               [MqttSubscribe topic QOS_1;
                Init (EvLog INFO "Subscribed to topic: %r" [VStr topic])])
            control_suffixes)
       values
  ++ [Init (EvPublish (topic_prefix +:+ "/" +:+ status_topic self)
              (mc_status_payload_running config) (Some 1) (Some true))]
  ++ flat_map
       (fun out_conf =>
          if negb (publish_initial out_conf) then []
          else
            [Init (publish_output topic_prefix out_conf
                     (initial_payload (initial out_conf) out_conf))])
       values.

End Connect.

(** ** Leaving [run] (lines 425-444) *)

Inductive exit_event :=
| LoopClose                      (* self.loop.close() *)
| Cleanup (module : string)      (* module.cleanup() *)
| Exit (e : event).

Section Exit.

Variable cancelled_is_exception : bool.

(** One of the two [for] loops of the [finally] block, over the module
    objects in the order of the dict, each with what its [cleanup()] does:
    it returns ([None]) or raises.  [except Exception] catches the
    instances of [Exception]; any other exception leaves the loop. *)
Fixpoint cleanup_modules (fmt : string) (modules : list (string * option exn))
    : list exit_event * option exn :=
  match modules with
  | [] => ([], None)
  | (module, None) :: rest =>
      let '(tr, r) := cleanup_modules fmt rest in
      (Cleanup module :: tr, r)
  | (module, Some e) :: rest =>
      if is_Exception cancelled_is_exception e then
        let '(tr, r) := cleanup_modules fmt rest in
        (Cleanup module :: Exit (EvLog EXCEPTION fmt [VStr module]) :: tr, r)
      else ([Cleanup module], Some e)
  end.

(** [run] from the moment [self.loop.run_forever()] is left, by a return
    ([forever = None]) or by an exception.  The result is what is done and
    the exception that leaves [run], if one does: the one raised in the
    [finally] block, or else the one that left the [try] block. *)
Definition run_exit (forever : option exn)
    (gpio_modules sensor_modules : list (string * option exn))
    : list exit_event * option exn :=
  let closed := [LoopClose; Exit (EvLog DEBUG "Loop closed" [])] in
  let '(tr1, r1) :=
    cleanup_modules "Exception while cleaning up gpio module %s"
      gpio_modules in
  match r1 with
  | Some e => (closed ++ tr1, Some e)
  | None =>
      let '(tr2, r2) :=
        cleanup_modules "Exception while cleaning up sensor module %s"
          sensor_modules in
      match r2, forever with
      | Some e, _ => (closed ++ tr1 ++ tr2, Some e)
      | None, Some e => (closed ++ tr1 ++ tr2, Some e)
      | None, None =>
          (closed ++ tr1 ++ tr2 ++ [Exit (EvLog DEBUG "run() complete" [])],
           None)
      end
  end.

End Exit.

Definition is_cleanup (e : exit_event) : bool :=
  match e with Cleanup _ => true | _ => false end.

(** ** A second configuration: a broker with credentials, no TLS *)

Definition demo_broker : mqtt_conf :=
  {| mc_client_id := None;
     mc_tls := None;
     mc_user := Some "gateway";
     mc_password := Some "secret";
     mc_host := "broker.local";
     mc_port := 1883;
     mc_clean_session := false;
     mc_status_payload_dead := "dead";
     mc_status_payload_running := "running" |}.

(** The server some time later: a pulse task that failed, a poller that was
    cancelled, a pulse task that returned. *)
Definition demo_cancelled : MqttGpio :=
  {| topic_prefix := topic_prefix Demo.server;
     status_topic := status_topic Demo.server;
     status_payload_stopped := status_payload_stopped Demo.server;
     config_digital_outputs := config_digital_outputs Demo.server;
     digital_output_configs := digital_output_configs Demo.server;
     gpio_modules := gpio_modules Demo.server;
     module_output_queues := module_output_queues Demo.server;
     queues := queues Demo.server;
     loop_tasks :=
       [(CoDigitalOutputLoop 0, Pending);
        (CoSetMs "gpio" Demo.lamp true "10",
         Failed (OtherException "OSError('pin busy')"));
        (CoOther "poller", Failed CancelledError);
        (CoSetMs "gpio" Demo.relay1 true "250", Returned)];
     unawaited_tasks := [0; 1; 2; 3]%nat |}.

(** An execution in which the worker finishes what it was given: one [set]
    message, then the worker's two stretches. *)
Definition demo_writing : Serial.system :=
  {| Serial.server :=
       set_queues (Serial.server Demo.s1)
         (<[0%nat := []]> (queues (Serial.server Demo.s1)));
     Serial.pcs := <[0%nat := WSetPin Demo.relay_on]> ∅ |}.

Definition demo_written : Serial.system :=
  {| Serial.server :=
       set_queues (Serial.server demo_writing)
         (<[0%nat := []]> (queues (Serial.server demo_writing)));
     Serial.pcs :=
       <[0%nat := WPublish Demo.relay_on]> (Serial.pcs demo_writing) |}.

Definition demo_drained : list (Serial.label * list event) :=
  [(Serial.LMsg "P/output/relay1/set" "ON", [EvQueuePut 0 Demo.relay_on]);
   (Serial.LRun 0,
    [EvQueueGet Demo.relay_on; set_pin_call "gpio" Demo.relay1 true]);
   (Serial.LRun 0,
    [set_pin_log Demo.relay1 true; publish_output "P" Demo.relay1 "ON"])].

Definition is_exception_record (e : exit_event) : bool :=
  match e with Exit (EvLog EXCEPTION _ _) => true | _ => false end.

(** The module's [cleanup()] raises. *)
Definition cleanup_fails (x : string * option exn) : bool :=
  match snd x with Some _ => true | None => false end.

(** An output on a module that is not configured. *)
Definition demo_valve : out_conf :=
  {| oc_name := "valve"; oc_module := "expander"; oc_pin := PinNum 2;
     oc_inverted := false; oc_on_payload := "open"; oc_off_payload := "shut";
     oc_retain := false |}.

Definition demo_orphan : MqttGpio :=
  _init_gpio_modules
    (MqttGpio_init "P" "status" "stopped" [Demo.relay1; demo_valve; Demo.lamp])
    ["gpio"].

(** ** Digital inputs: [_init_digital_inputs] (lines 98-126) *)

(** One entry of [config["digital_inputs"]], with the keys the server
    reads. *)
Record in_conf := {
  ic_name : string;
  ic_module : string;
  ic_pin : pin;
  ic_pullup : bool;
  ic_pulldown : bool;
  ic_on_payload : string;
  ic_off_payload : string;
}.

(** [PinPUD.UP] and [PinPUD.DOWN]; [PinDirection.INPUT] *)
Inductive PinPUD := PUD_UP | PUD_DOWN.
Inductive PinDirection := INPUT | OUTPUT.

Inductive input_event :=
| BusSubscribe              (* subscribe(DigitalInputChangedEvent, publish_callback) *)
| SetupPin (module : gpio_module) (p : pin) (direction : PinDirection)
    (pud : option PinPUD) (name : string)
| CreatePoller (module : gpio_module) (in_conf : in_conf).

(** Lines 113-117: [pud] stays [None] unless one of the two flags is set;
    [pullup] is looked at first. *)
Definition pud_of (in_conf : in_conf) : option PinPUD :=
  if ic_pullup in_conf then Some PUD_UP
  else if ic_pulldown in_conf then Some PUD_DOWN
  else None.

(** The task of [digital_input_poller(self.event_bus, module, in_conf)];
    the coroutine itself belongs to [mqtt_io.io]. *)
Definition input_poller : coro := CoOther "digital_input_poller".

(** What the loop does for one entry, on the module object [module]
    (lines 119-126). *)
Definition input_setup (in_conf : in_conf) (module : gpio_module)
    : list input_event :=
  [SetupPin module (ic_pin in_conf) INPUT (pud_of in_conf) (ic_name in_conf);
   CreatePoller module in_conf].

(** The [for] loop over [config["digital_inputs"]]. *)
Fixpoint init_inputs_loop (self : MqttGpio) (confs : list in_conf)
    : list input_event * result MqttGpio :=
  match confs with
  | [] => ([], Ok self)
  | in_conf :: confs' =>
      match gpio_modules self !! ic_module in_conf with
      | None => ([], Raise (KeyError (ic_module in_conf)))
      | Some module =>
          let '(tr, r) :=
            init_inputs_loop (spawn_unawaited self input_poller) confs' in
          (input_setup in_conf module ++ tr, r)
      end
  end.

(** [{x["name"]: x for x in config["digital_inputs"]}] *)
Definition inputs_by_name (l : list in_conf) : gmap string in_conf :=
  fold_left (fun d x => <[ic_name x := x]> d) l ∅.

(** The result is what is done, and either the server and the dict
    [self.digital_input_configs] the method leaves, or the exception that
    leaves it. *)
Definition _init_digital_inputs (self : MqttGpio) (digital_inputs : list in_conf)
    : list input_event * result (MqttGpio * gmap string in_conf) :=
  let '(tr, r) := init_inputs_loop self digital_inputs in
  (BusSubscribe :: tr,
   match r with
   | Ok self' => Ok (self', inputs_by_name digital_inputs)
   | Raise e => Raise e
   end).

(** [publish_callback] (lines 102-108): the status of an input, published
    with the client's default [qos] and [retain]. *)
Definition publish_callback (digital_input_configs : gmap string in_conf)
    (topic_prefix : string) (input_name : string) (to_value : bool)
    : list event * option exn :=
  match digital_input_configs !! input_name with
  | None => ([], Some (KeyError input_name))
  | Some in_conf =>
      ([EvPublish (topic_prefix +:+ "/input/" +:+ input_name)
          (if to_value then ic_on_payload in_conf else ic_off_payload in_conf)
          None None], None)
  end.

Definition demo_button : in_conf :=
  {| ic_name := "button"; ic_module := "gpio"; ic_pin := PinNum 22;
     ic_pullup := true; ic_pulldown := true;
     ic_on_payload := "pressed"; ic_off_payload := "released" |}.

Definition demo_door : in_conf :=
  {| ic_name := "door"; ic_module := "gpio"; ic_pin := PinNum 23;
     ic_pullup := false; ic_pulldown := false;
     ic_on_payload := "open"; ic_off_payload := "closed" |}.





(** A stand-in for [bytes.decode("utf8")], exact on the data used below:
    ASCII data is the text it spells, and data with the byte [0xff], which
    no UTF-8 text holds, does not decode. *)
Definition demo_decode (data : list Byte.byte) : option string :=
  if existsb (Byte.eqb Byte.xff) data then None
  else Some (string_of_list_byte data).








(** * Properties *)

(** ** Strings *)

#[local] Arguments String.append !_ _ / : simpl nomatch.
#[local] Arguments Ascii.eqb : simpl never.

Lemma strip_prefix_app (l r : string) : strip_prefix l (l +:+ r) = Some r.
Proof.
  induction l as [|a l IH]; simpl; [reflexivity|].
  rewrite Ascii.eqb_refl. exact IH.
Qed.

Lemma strip_prefix_Some (l s r : string) :
  strip_prefix l s = Some r -> s = l +:+ r.
Proof.
  revert s. induction l as [|a l IH]; intros s; simpl.
  - intros [= ->]. reflexivity.
  - destruct s as [|b s]; [discriminate|].
    destruct (Ascii.eqb_spec a b) as [->|]; [|discriminate].
    intros H. f_equal. apply IH, H.
Qed.

Lemma string_app_assoc (a b c : string) : (a +:+ b) +:+ c = a +:+ (b +:+ c).
Proof. induction a as [|x a IH]; simpl; [reflexivity|]. f_equal. exact IH. Qed.

Lemma string_app_nil_r (a : string) : a +:+ "" = a.
Proof. induction a as [|x a IH]; simpl; [reflexivity|]. f_equal. exact IH. Qed.

Lemma endswith_app (s suffix : string) : endswith (s +:+ suffix) suffix = true.
Proof.
  induction s as [|x s IH]; simpl.
  - destruct suffix; unfold endswith; fold endswith;
      rewrite String.eqb_refl; reflexivity.
  - rewrite IH. apply orb_true_r.
Qed.

Lemma string_mem_app (c : ascii) (a b : string) :
  string_mem c (a +:+ b) = string_mem c a || string_mem c b.
Proof.
  induction a as [|x a IH]; simpl; [reflexivity|].
  rewrite IH. apply orb_assoc.
Qed.

(** ** The topic pattern *)

Lemma lazy_dot_plus_cons k pos c s acc :
  lazy_dot_plus k pos (String c s) acc
  = if Ascii.eqb c newline then None
    else match k (S pos) s (Some (acc +:+ String c "")) with
         | Some m => Some m
         | None => lazy_dot_plus k (S pos) s (acc +:+ String c "")
         end.
Proof. reflexivity. Qed.

Lemma greedy_dot_plus_cons k pos c s :
  greedy_dot_plus k pos (String c s)
  = if Ascii.eqb c newline then None
    else match greedy_dot_plus k (S pos) s with
         | Some m => Some m
         | None => k (S pos) s
         end.
Proof. reflexivity. Qed.

Lemma string_mem_cons c a s :
  string_mem c (String a s) = Ascii.eqb c a || string_mem c s.
Proof. reflexivity. Qed.

Lemma after_name_cons pos c s g :
  re_match after_name pos (String c s) g
  = if Ascii.eqb slash c
    then greedy_dot_plus (fun pos' s' => re_match [ReEnd] pos' s' g)
           (pos + 1) s
    else None.
Proof. unfold after_name. simpl. fold slash. destruct (Ascii.eqb slash c); reflexivity. Qed.

Lemma after_name_nil pos g : re_match after_name pos "" g = None.
Proof. reflexivity. Qed.

Lemma greedy_to_end (g : option string) (s : string) : forall pos,
  s <> EmptyString -> string_mem newline s = false ->
  greedy_dot_plus (fun pos' s' => re_match [ReEnd] pos' s' g) pos s = Some g.
Proof.
  induction s as [|c s IH]; intros pos Hne Hnl; [congruence|].
  rewrite string_mem_cons in Hnl. apply orb_false_elim in Hnl as [Hc Hs].
  rewrite greedy_dot_plus_cons, Ascii.eqb_sym, Hc.
  destruct s as [|d s].
  - reflexivity.
  - rewrite IH; [reflexivity|discriminate|exact Hs].
Qed.

Lemma after_name_slash (pos : nat) (s : string) (g : option string) :
  re_match after_name pos s g <> None -> exists t, s = String slash t.
Proof.
  destruct s as [|c s]; [rewrite after_name_nil; intros H; contradiction|].
  rewrite after_name_cons.
  destruct (Ascii.eqb_spec slash c) as [<-|]; [eauto|].
  intros H; contradiction.
Qed.

Lemma lazy_no_slash (s : string) : forall pos acc,
  string_mem slash s = false ->
  lazy_dot_plus (re_match after_name) pos s acc = None.
Proof.
  induction s as [|c s IH]; intros pos acc H; [reflexivity|].
  rewrite string_mem_cons in H. apply orb_false_elim in H as [_ Hs].
  rewrite lazy_dot_plus_cons. destruct (Ascii.eqb c newline); [reflexivity|].
  destruct (re_match after_name (S pos) s (Some (acc +:+ String c "")))
    eqn:E; [|apply IH, Hs].
  destruct (after_name_slash (S pos) s (Some (acc +:+ String c "")))
    as [t ->]; [congruence|].
  rewrite string_mem_cons, Ascii.eqb_refl in Hs. discriminate.
Qed.

(** Without a separator after its first character, the text that follows
    [<prefix>/output/] cannot be split into a name and a rest. *)
Lemma lazy_one_level (c : ascii) (s : string) (pos : nat) (acc : string) :
  string_mem slash s = false ->
  lazy_dot_plus (re_match after_name) pos (String c s) acc = None.
Proof.
  intros Hs. rewrite lazy_dot_plus_cons.
  destruct (Ascii.eqb c newline); [reflexivity|].
  destruct (re_match after_name (S pos) s (Some (acc +:+ String c "")))
    eqn:E; [|apply lazy_no_slash, Hs].
  destruct (after_name_slash (S pos) s (Some (acc +:+ String c "")))
    as [t ->]; [congruence|].
  rewrite string_mem_cons, Ascii.eqb_refl in Hs. discriminate.
Qed.

Lemma segment_cons (c : ascii) (s : string) :
  segment (String c s) = true ->
  Ascii.eqb c newline = false /\ Ascii.eqb slash c = false
  /\ (s = EmptyString \/ segment s = true).
Proof.
  intros H. unfold segment in H. rewrite !string_mem_cons in H.
  rewrite !negb_orb, !andb_true_iff, !negb_true_iff in H.
  destruct H as [[_ [H1 H2]] [H3 H4]]. rewrite Ascii.eqb_sym in H3.
  repeat split; try assumption.
  destruct s as [|d s]; [left; reflexivity|right].
  unfold segment. rewrite H2, H4. reflexivity.
Qed.

(** The lazy group stops at the first separator: on [<name>/<suffix>] it
    captures the name. *)
Lemma lazy_captures_segment (name suffix : string) : forall pos acc,
  segment name = true ->
  suffix <> EmptyString -> string_mem newline suffix = false ->
  lazy_dot_plus (re_match after_name) pos (name +:+ "/" +:+ suffix) acc
  = Some (Some (acc +:+ name)).
Proof.
  induction name as [|c name IH]; intros pos acc Hseg Hne Hnl; [discriminate|].
  apply segment_cons in Hseg as (Hc & Hsl & Hrest).
  change (String c name +:+ "/" +:+ suffix)
    with (String c (name +:+ "/" +:+ suffix)).
  rewrite lazy_dot_plus_cons, Hc.
  destruct Hrest as [->|Hseg].
  - change ("" +:+ "/" +:+ suffix) with (String slash suffix).
    rewrite after_name_cons, Ascii.eqb_refl, greedy_to_end by assumption.
    reflexivity.
  - destruct name as [|d name]; [discriminate|].
    pose proof (segment_cons _ _ Hseg) as (_ & Hd & _).
    change (String d name +:+ "/" +:+ suffix)
      with (String d (name +:+ "/" +:+ suffix)) in *.
    rewrite after_name_cons, Hd, IH by assumption.
    rewrite string_app_assoc. reflexivity.
Qed.

Lemma string_mem_special_dot (c : ascii) :
  string_mem c re_special = false -> Ascii.eqb c dot = false.
Proof.
  unfold re_special. rewrite string_mem_cons. intros H.
  apply orb_false_elim in H as [H _]. exact H.
Qed.

(** A prefix of ordinary characters is matched as one piece of text. *)
Lemma prefix_items_plain (prefix : string) (rest : list re_item)
    (g : option string) :
  re_plain prefix = true ->
  forall pos s,
    re_match (prefix_items prefix ++ rest) pos s g
    = match strip_prefix prefix s with
      | Some s' => re_match rest (pos + String.length prefix) s' g
      | None => None
      end.
Proof.
  induction prefix as [|c prefix IH]; intros Hp pos s.
  - cbn [prefix_items app strip_prefix String.length].
    rewrite Nat.add_0_r. reflexivity.
  - cbn [re_plain] in Hp. apply andb_true_iff in Hp as [Hc Hp].
    apply negb_true_iff, string_mem_special_dot in Hc.
    cbn [prefix_items app]. rewrite Hc. cbn [re_match strip_prefix].
    destruct s as [|b s]; [reflexivity|].
    destruct (Ascii.eqb c b); [|reflexivity].
    rewrite (IH Hp). cbn [String.length].
    replace (pos + 1 + String.length prefix)%nat
      with (pos + S (String.length prefix))%nat by lia.
    reflexivity.
Qed.

Lemma topic_pattern_literal (prefix topic : string) :
  re_plain prefix = true ->
  re_match (topic_pattern prefix) 0 topic None
  = re_match (literal_pattern prefix) 0 topic None.
Proof.
  intros Hp. unfold topic_pattern, literal_pattern.
  cbn [re_match Nat.eqb]. apply prefix_items_plain, Hp.
Qed.

Lemma topic_pattern_prefix (prefix rest : string) :
  re_match (literal_pattern prefix) 0
    (prefix +:+ "/" +:+ OUTPUT_TOPIC +:+ "/" +:+ rest) None
  = lazy_dot_plus (re_match after_name)
      (String.length prefix + 1 + 6 + 1) rest EmptyString.
Proof.
  unfold literal_pattern, after_prefix.
  cbn [re_match Nat.eqb]. rewrite strip_prefix_app.
  reflexivity.
Qed.

Lemma topic_pattern_wrong_prefix (prefix topic : string) :
  wrong_prefix prefix topic ->
  re_match (literal_pattern prefix) 0 topic None = None.
Proof.
  intros H. unfold literal_pattern, after_prefix. cbn [re_match Nat.eqb].
  destruct (strip_prefix prefix topic) as [s1|] eqn:E1; [|reflexivity].
  apply strip_prefix_Some in E1.
  destruct (strip_prefix "/" s1) as [s2|] eqn:E2; [|reflexivity].
  apply strip_prefix_Some in E2.
  destruct (strip_prefix OUTPUT_TOPIC s2) as [s3|] eqn:E3; [|reflexivity].
  apply strip_prefix_Some in E3.
  destruct (strip_prefix "/" s3) as [s4|] eqn:E4; [|reflexivity].
  apply strip_prefix_Some in E4.
  exfalso. apply (H s4). subst. reflexivity.
Qed.

(** A match of the topic pattern always carries group 1. *)
Lemma lazy_has_group (k : nat -> string -> option string -> re_result)
    (s : string) : forall pos acc m,
  (forall pos' s' g m', k pos' s' (Some g) = Some m' -> is_Some m') ->
  lazy_dot_plus k pos s acc = Some m -> is_Some m.
Proof.
  induction s as [|c s IH]; intros pos acc m Hk; [discriminate|].
  rewrite lazy_dot_plus_cons.
  destruct (Ascii.eqb c newline); [discriminate|].
  destruct (k (S pos) s (Some (acc +:+ String c ""))) as [m'|] eqn:E.
  - intros [= <-]. eapply Hk, E.
  - apply IH, Hk.
Qed.

Lemma greedy_keeps_group (g : option string) (s : string) : forall pos m,
  greedy_dot_plus (fun pos' s' => re_match [ReEnd] pos' s' g) pos s = Some m ->
  m = g.
Proof.
  induction s as [|c s IH]; intros pos m; [discriminate|].
  rewrite greedy_dot_plus_cons.
  destruct (Ascii.eqb c newline); [discriminate|].
  destruct (greedy_dot_plus _ (S pos) s) as [m'|] eqn:E.
  - intros [= <-]. eapply IH, E.
  - cbn [re_match]. destruct (at_end s); [|discriminate].
    intros [= <-]. reflexivity.
Qed.

Lemma after_prefix_has_group (pos : nat) (s : string) (m : option string) :
  re_match after_prefix pos s None = Some m -> is_Some m.
Proof.
  unfold after_prefix. cbn [re_match].
  destruct (strip_prefix "/" s) as [s2|]; [|discriminate].
  destruct (strip_prefix OUTPUT_TOPIC s2) as [s3|]; [|discriminate].
  destruct (strip_prefix "/" s3) as [s4|]; [|discriminate].
  apply lazy_has_group. intros pos' s' g m'. cbn [re_match].
  destruct (strip_prefix "/" s') as [s''|]; [|discriminate].
  intros E. apply greedy_keeps_group in E as ->. eauto.
Qed.

Lemma prefix_items_has_group (prefix : string) : forall pos s m,
  re_match (prefix_items prefix ++ after_prefix) pos s None = Some m ->
  is_Some m.
Proof.
  induction prefix as [|c prefix IH]; intros pos s m.
  - apply after_prefix_has_group.
  - cbn [prefix_items app]. destruct (Ascii.eqb c dot); cbn [re_match].
    + destruct s as [|b s]; [discriminate|].
      destruct (Ascii.eqb b newline); [discriminate|]. apply IH.
    + destruct (strip_prefix (String c "") s) as [s'|]; [|discriminate].
      apply IH.
Qed.

Lemma topic_match_has_group (prefix topic : string) (m : option string) :
  re_match (topic_pattern prefix) 0 topic None = Some m -> is_Some m.
Proof.
  unfold topic_pattern. cbn [re_match Nat.eqb]. apply prefix_items_has_group.
Qed.

Lemma output_name_control_topic (prefix name suffix : string) :
  re_plain prefix = true ->
  segment name = true ->
  suffix <> EmptyString -> string_mem newline suffix = false ->
  output_name_from_topic (control_topic prefix name suffix) prefix = Ok name.
Proof.
  intros Hp Hseg Hne Hnl. unfold output_name_from_topic, control_topic.
  rewrite topic_pattern_literal by exact Hp.
  rewrite topic_pattern_prefix, lazy_captures_segment by assumption.
  reflexivity.
Qed.

Lemma control_suffix_shape (suffix : string) :
  In suffix control_suffixes ->
  suffix <> EmptyString /\ string_mem newline suffix = false.
Proof.
  unfold control_suffixes.
  intros [<-|[<-|[<-|[]]]]; split; (discriminate || reflexivity).
Qed.

Lemma output_name_wrong_prefix (prefix topic : string) :
  re_plain prefix = true ->
  wrong_prefix prefix topic ->
  output_name_from_topic topic prefix = Raise (structure_error topic).
Proof.
  intros Hp H. unfold output_name_from_topic.
  rewrite topic_pattern_literal by exact Hp.
  rewrite topic_pattern_wrong_prefix by assumption. reflexivity.
Qed.

Lemma output_name_missing (prefix topic : string) :
  re_plain prefix = true ->
  name_missing prefix topic ->
  output_name_from_topic topic prefix = Raise (structure_error topic).
Proof.
  intros Hp (suffix & Hs & [->| ->]); unfold output_name_from_topic;
    rewrite topic_pattern_literal by exact Hp.
  - rewrite topic_pattern_prefix.
    destruct suffix as [|c suffix]; [reflexivity|].
    rewrite string_mem_cons in Hs. apply orb_false_elim in Hs as [_ Hs].
    rewrite lazy_one_level by assumption. reflexivity.
  - change (prefix +:+ "/" +:+ OUTPUT_TOPIC +:+ "//" +:+ suffix)
      with (prefix +:+ "/" +:+ OUTPUT_TOPIC +:+ "/" +:+ String slash suffix).
    rewrite topic_pattern_prefix, lazy_one_level by assumption. reflexivity.
Qed.

(** C6.  [output_name_from_topic("P/output/relay1/set", "P")] is ["relay1"];
    for a prefix of ordinary characters, every topic that does not start
    with [<prefix>/output/], and every topic of that start in which the name
    level is absent or empty, makes it raise the [ValueError] that reports
    the structural mismatch, not return a name.  The prefix is not escaped
    when the pattern is built, and a prefix with a dot shows it: for the
    prefix [a.c] the topic [abc/output/x/set], which does not start with
    [a.c/output/], is taken for a control topic of the output [x]. *)
Theorem C6_output_name_from_topic :
  output_name_from_topic "P/output/relay1/set" "P" = Ok "relay1"
  /\ (forall prefix topic,
        re_plain prefix = true ->
        wrong_prefix prefix topic \/ name_missing prefix topic ->
        output_name_from_topic topic prefix = Raise (structure_error topic))
  /\ wrong_prefix "a.c" "abc/output/x/set"
  /\ output_name_from_topic "abc/output/x/set" "a.c" = Ok "x".
Proof.
  split; [reflexivity|]. split; [|split].
  - intros prefix topic Hp [H|H].
    + apply output_name_wrong_prefix; assumption.
    + apply output_name_missing; assumption.
  - intros rest H. cbn in H. discriminate H.
  - reflexivity.
Qed.

Lemma C6_witness :
  output_name_from_topic "P/output/set" "P"
  = Raise (structure_error "P/output/set")
  /\ output_name_from_topic "Q/output/relay1/set" "P"
     = Raise (structure_error "Q/output/relay1/set").
Proof.
  pose proof C6_output_name_from_topic as (_ & H & _).
  split.
  - apply (H "P" "P/output/set"); [reflexivity|].
    right. exists "set". split; [reflexivity|left; reflexivity].
  - apply (H "P" "Q/output/relay1/set"); [reflexivity|].
    left. intros rest E. cbn in E. discriminate E.
Defined.

(** ** The worker on one command *)

Lemma valid_payload_false (output_config : out_conf) (payload : string) :
  payload <> oc_on_payload output_config ->
  payload <> oc_off_payload output_config ->
  valid_payload output_config payload = false.
Proof.
  intros Hon Hoff. unfold valid_payload.
  apply String.eqb_neq in Hon, Hoff. rewrite Hon, Hoff. reflexivity.
Qed.


Lemma loop_head_valid (module : gpio_module) (output_config : out_conf)
    (payload : string) (queue : list command) :
  valid_payload output_config payload = true ->
  loop_head ((module, output_config, payload) :: queue)
  = ([EvQueueGet (module, output_config, payload);
      set_pin_call module output_config
        (String.eqb payload (oc_on_payload output_config))],
     WSetPin (module, output_config, payload), queue).
Proof. intros H. cbn [loop_head]. rewrite H. reflexivity. Qed.

Lemma loop_head_invalid (module : gpio_module) (output_config : out_conf)
    (payload : string) (queue : list command) :
  valid_payload output_config payload = false ->
  loop_head ((module, output_config, payload) :: queue)
  = (let '(tr, pc, rest) := loop_head queue in
     (EvQueueGet (module, output_config, payload)
        :: invalid_payload_warning output_config payload :: tr, pc, rest)).
Proof. intros H. cbn [loop_head]. rewrite H. reflexivity. Qed.

(** C3.  When the worker takes from its queue a command whose payload is
    neither the on-payload nor the off-payload of the output, all it does
    for that command is write the warning; it is then at the head of its
    loop with the rest of the queue, whether it had been waiting for a
    command or had just finished the previous one.  The warning is neither
    a hardware write nor a publish. *)
Theorem C3_invalid_payload_dropped
    (topic_prefix : string) (module : gpio_module) (output_config : out_conf)
    (payload : string) (queue : list command) (previous : command) :
  payload <> oc_on_payload output_config ->
  payload <> oc_off_payload output_config ->
  let c := (module, output_config, payload) in
  let warning := invalid_payload_warning output_config payload in
  loop_head (c :: queue)
  = (let '(tr, pc, rest) := loop_head queue in
     (EvQueueGet c :: warning :: tr, pc, rest))
  /\ worker_step topic_prefix WGet (c :: queue) = Some (loop_head (c :: queue))
  /\ worker_step topic_prefix (WPublish previous) (c :: queue)
     = Some (loop_head (c :: queue))
  /\ process topic_prefix c = [EvQueueGet c; warning]
  /\ is_warning warning = true
  /\ List.filter is_set_pin (process topic_prefix c) = []
  /\ List.filter is_publish (process topic_prefix c) = [].
Proof.
  intros Hon Hoff c warning.
  pose proof (valid_payload_false _ _ Hon Hoff) as Hv.
  assert (Hp : process topic_prefix c = [EvQueueGet c; warning]).
  { unfold process, c. rewrite Hv. reflexivity. }
  rewrite Hp. repeat split.
  cbn [loop_head]. unfold c at 1. cbn [loop_head]. rewrite Hv. reflexivity.
Qed.

Lemma C3_witness :
  process "P" ("gpio", Demo.relay1, "toggle")
  = [EvQueueGet ("gpio", Demo.relay1, "toggle");
     invalid_payload_warning Demo.relay1 "toggle"].
Proof.
  refine (proj1 (proj2 (proj2 (proj2
    (C3_invalid_payload_dropped "P" "gpio" Demo.relay1 "toggle" []
       ("gpio", Demo.relay1, "ON") _ _))))); discriminate.
Defined.

Example demo_server_queues :
  module_output_queues Demo.server !! "gpio" = Some 0%nat
  /\ queues Demo.server = [[]]
  /\ loop_tasks Demo.server = [(CoDigitalOutputLoop 0, Pending)]
  /\ unawaited_tasks Demo.server = [0%nat]
  /\ digital_output_configs Demo.server !! "lamp" = Some Demo.lamp.
Proof. repeat split; vm_compute; reflexivity. Qed.

(** ** Routing *)

Lemma string_length_app (a b : string) :
  String.length (a +:+ b) = (String.length a + String.length b)%nat.
Proof. induction a as [|x a IH]; simpl; [reflexivity|]. rewrite IH. reflexivity. Qed.

(** Whether a string ends with [u] is decided by its last characters. *)
Lemma endswith_app_long (x t u : string) :
  (String.length u <= String.length t)%nat ->
  endswith (x +:+ t) u = endswith t u.
Proof.
  intros Hlen. induction x as [|c x IH]; [reflexivity|].
  change (endswith (String c x +:+ t) u)
    with (String.eqb (String c (x +:+ t)) u || endswith (x +:+ t) u).
  rewrite IH.
  destruct (String.eqb_spec (String c (x +:+ t)) u) as [E|]; [|reflexivity].
  exfalso. apply (f_equal String.length) in E. simpl in E.
  rewrite string_length_app in E. lia.
Qed.

Lemma control_topic_split (prefix name suffix : string) :
  control_topic prefix name suffix
  = (prefix +:+ "/" +:+ OUTPUT_TOPIC +:+ "/" +:+ name) +:+ ("/" +:+ suffix).
Proof. unfold control_topic. rewrite !string_app_assoc. reflexivity. Qed.

Lemma endswith_control_topic (prefix name suffix u : string) :
  (String.length u <= String.length suffix)%nat ->
  endswith (control_topic prefix name suffix) ("/" +:+ u)
  = endswith ("/" +:+ suffix) ("/" +:+ u).
Proof.
  intros H. rewrite control_topic_split. apply endswith_app_long.
  simpl. lia.
Qed.

Section Routing.

Variables (self : MqttGpio) (output_config : out_conf)
  (module : gpio_module) (payload : string).

Hypothesis configured :
  digital_output_configs self !! oc_name output_config = Some output_config.
Hypothesis has_module :
  gpio_modules self !! oc_module output_config = Some module.
Hypothesis name_is_segment : segment (oc_name output_config) = true.
Hypothesis plain_prefix : re_plain (topic_prefix self) = true.

Lemma route_name (suffix : string) :
  In suffix control_suffixes ->
  output_name_from_topic
    (control_topic (topic_prefix self) (oc_name output_config) suffix)
    (topic_prefix self)
  = Ok (oc_name output_config).
Proof.
  intros Hin. apply control_suffix_shape in Hin as [Hne Hnl].
  apply output_name_control_topic; assumption.
Qed.

(** A message on [<prefix>/output/<name>/set] is put on the queue of the
    output's module, as it is. *)
Lemma route_set (q : nat) :
  module_output_queues self !! oc_module output_config = Some q ->
  _handle_mqtt_msg self
    (control_topic (topic_prefix self) (oc_name output_config) SET_TOPIC)
    payload
  = ([EvQueuePut q (module, output_config, payload)],
     Ok (put_nowait self q (module, output_config, payload))).
Proof.
  intros Hq. unfold _handle_mqtt_msg.
  assert (E : endswith
                (control_topic (topic_prefix self) (oc_name output_config)
                   SET_TOPIC) ("/" +:+ SET_TOPIC) = true).
  { rewrite endswith_control_topic by (simpl; lia). reflexivity. }
  unfold control_suffixes. cbn [existsb]. rewrite E. cbn [orb negb].
  rewrite route_name by (left; reflexivity).
  rewrite configured, has_module, Hq. reflexivity.
Qed.

(** A message on [.../set_on_ms] or [.../set_off_ms] makes a pulse task
    whose desired value is on for the former and off for the latter. *)
Lemma route_set_ms (desired_value : bool) :
  _handle_mqtt_msg self
    (control_topic (topic_prefix self) (oc_name output_config)
       (if desired_value then SET_ON_MS_TOPIC else SET_OFF_MS_TOPIC))
    payload
  = ([], Ok (spawn_unawaited self
               (CoSetMs module output_config desired_value payload))).
Proof.
  set (topic := control_topic (topic_prefix self) (oc_name output_config)
                  (if desired_value then SET_ON_MS_TOPIC else SET_OFF_MS_TOPIC)).
  assert (E1 : endswith topic ("/" +:+ SET_TOPIC) = false).
  { unfold topic. rewrite endswith_control_topic
      by (destruct desired_value; simpl; lia).
    destruct desired_value; reflexivity. }
  assert (E2 : endswith topic ("/" +:+ SET_ON_MS_TOPIC) = desired_value).
  { unfold topic. rewrite endswith_control_topic
      by (destruct desired_value; simpl; lia).
    destruct desired_value; reflexivity. }
  assert (E3 : endswith topic ("/" +:+ SET_OFF_MS_TOPIC) = negb desired_value).
  { unfold topic. destruct desired_value.
    - rewrite control_topic_split.
      change ((topic_prefix self +:+ "/" +:+ OUTPUT_TOPIC +:+ "/"
               +:+ oc_name output_config) +:+ "/" +:+ SET_ON_MS_TOPIC)
        with ((topic_prefix self +:+ "/" +:+ OUTPUT_TOPIC +:+ "/"
               +:+ oc_name output_config) +:+ "/set_on_ms").
      generalize (topic_prefix self +:+ "/" +:+ OUTPUT_TOPIC +:+ "/"
                  +:+ oc_name output_config).
      intros x. induction x as [|c x IH]; [reflexivity|].
      change (endswith (String c x +:+ "/set_on_ms") ("/" +:+ SET_OFF_MS_TOPIC))
        with (String.eqb (String c (x +:+ "/set_on_ms")) "/set_off_ms"
              || endswith (x +:+ "/set_on_ms") ("/" +:+ SET_OFF_MS_TOPIC)).
      rewrite IH, orb_false_r. apply String.eqb_neq. intros E.
      assert (L : endswith (String c (x +:+ "/set_on_ms")) "/set_on_ms" = true)
        by apply (endswith_app (String c x) "/set_on_ms").
      rewrite E in L. discriminate L.
    - rewrite endswith_control_topic by (simpl; lia). reflexivity. }
  unfold _handle_mqtt_msg, control_suffixes. cbn [existsb]. fold topic.
  rewrite E1, E2, E3.
  replace (negb (false || (desired_value || (negb desired_value || false))))
    with false by (destruct desired_value; reflexivity).
  unfold topic.
  rewrite route_name by (destruct desired_value; simpl; tauto).
  rewrite configured, has_module. reflexivity.
Qed.

End Routing.

(** ** Dividing a duration by 1000 keeps it from becoming positive *)

Lemma SFleb_zero (x : spec_float) : SFleb x (S754_zero false) = nonpos_sf x.
Proof. destruct x as [s|s| |s m e]; try destruct s; reflexivity. Qed.

Lemma shr_1_nonneg (mrs : shr_record) : 0 <= shr_m mrs -> 0 <= shr_m (shr_1 mrs).
Proof.
  destruct mrs as [m r s]; simpl. destruct m as [|p|p]; simpl; try lia.
  destruct p; simpl; lia.
Qed.

Lemma iter_shr_1_nonneg (p : positive) : forall mrs,
  0 <= shr_m mrs -> 0 <= shr_m (SpecFloat.iter_pos shr_1 p mrs).
Proof.
  induction p as [p IH|p IH|]; intros mrs H; simpl.
  - apply IH, IH, shr_1_nonneg, H.
  - apply IH, IH, H.
  - apply shr_1_nonneg, H.
Qed.

Lemma shr_nonneg (mrs : shr_record) (e n : Z) :
  0 <= shr_m mrs -> 0 <= shr_m (fst (shr mrs e n)).
Proof.
  intros H. destruct n; simpl; auto. apply iter_shr_1_nonneg, H.
Qed.

Lemma shr_record_of_loc_m (m : Z) (l : location) :
  shr_m (shr_record_of_loc m l) = m.
Proof. destruct l as [|[]]; reflexivity. Qed.

Lemma shr_fexp_nonneg (prec emax m e : Z) (l : location) :
  0 <= m -> 0 <= shr_m (fst (shr_fexp prec emax m e l)).
Proof.
  intros H. unfold shr_fexp. apply shr_nonneg.
  rewrite shr_record_of_loc_m. exact H.
Qed.

Lemma round_nearest_even_nonneg (m : Z) (l : location) :
  0 <= m -> 0 <= round_nearest_even m l.
Proof.
  intros H. destruct l as [|[]]; simpl; try lia. destruct (Z.even m); lia.
Qed.

(** Rounding a non-negative mantissa keeps the sign it is given. *)
Lemma binary_round_aux_sign (prec emax : Z) (sx : bool) (mx ex : Z)
    (lx : location) :
  0 <= mx ->
  nonpos_sf (binary_round_aux prec emax sx mx ex lx) = sx
  \/ exists s, binary_round_aux prec emax sx mx ex lx = S754_zero s.
Proof.
  intros H. unfold binary_round_aux.
  pose proof (shr_fexp_nonneg prec emax mx ex lx H) as H1.
  destruct (shr_fexp prec emax mx ex lx) as [mrs' e']. simpl in H1.
  pose proof (shr_fexp_nonneg prec emax _ e' loc_Exact
                (round_nearest_even_nonneg _ (loc_of_shr_record mrs') H1)) as H2.
  destruct (shr_fexp prec emax
              (round_nearest_even (shr_m mrs') (loc_of_shr_record mrs'))
              e' loc_Exact) as [mrs'' e''].
  simpl in H2. destruct (shr_m mrs'') as [|p|p].
  - right. eauto.
  - left. destruct (Z.leb e'' (emax - prec)); destruct sx; reflexivity.
  - lia.
Qed.

Lemma SFdiv_core_nonneg (prec emax : Z) (mx : positive) (ex : Z)
    (my : positive) (ey : Z) :
  0 <= fst (fst (SFdiv_core_binary prec emax (Zpos mx) ex (Zpos my) ey)).
Proof.
  unfold SFdiv_core_binary.
  set (s := _ - _ - _).
  set (m' := match s with Z0 => _ | Zpos _ => _ | Zneg _ => _ end).
  assert (Hm : 0 <= m').
  { subst m'. destruct s; try lia. apply Z.shiftl_nonneg. lia. }
  pose proof (Z_div_mod m' (Zpos my) ltac:(lia)) as Hd.
  destruct (Z.div_eucl m' (Zpos my)) as [q r]. simpl. nia.
Qed.

Lemma SFdiv_nonpos (prec emax : Z) (x : spec_float) (my : positive) (ey : Z) :
  nonpos_sf x = true ->
  nonpos_sf (SFdiv prec emax x (S754_finite false my ey)) = true.
Proof.
  destruct x as [s|s| |s mx ex]; try discriminate;
    try (destruct s; try discriminate; reflexivity).
  destruct s; try discriminate. intros _.
  pose proof (SFdiv_core_nonneg prec emax mx ex my ey) as H.
  unfold SFdiv.
  destruct (SFdiv_core_binary prec emax (Zpos mx) ex (Zpos my) ey)
    as [[mz ez] lz].
  simpl in H.
  destruct (binary_round_aux_sign prec emax true mz ez lz H) as [E|[s E]].
  - exact E.
  - change (xorb true false) with true. rewrite E. reflexivity.
Qed.

Lemma div_1000_nonpos (d : float) :
  (d <=? 0)%float = true -> (d / 1000 <=? 0)%float = true.
Proof.
  rewrite !leb_spec, div_spec.
  change (Prim2SF 0) with (S754_zero false).
  rewrite !SFleb_zero. intros H.
  assert (E : exists m e, Prim2SF 1000 = S754_finite false m e).
  { vm_compute. eauto. }
  destruct E as (m & e & E). rewrite E. apply SFdiv_nonpos, H.
Qed.

(** A delay that is not positive is not plus infinity: the sleep returns. *)
Lemma nonpos_sleep_returns (x : float) :
  (x <=? 0)%float = true -> sleep_returns x = true.
Proof.
  unfold sleep_returns. rewrite leb_spec, FloatAxioms.eqb_spec.
  change (Prim2SF 0) with (S754_zero false).
  change (Prim2SF infinity) with (S754_infinity false).
  rewrite SFleb_zero.
  destruct (Prim2SF x) as [sg|sg| |sg m e]; try destruct sg;
    try discriminate; reflexivity.
Qed.


(** ** Immediate set *)





Example demo_set_on :
  worker_run "P" 2 WGet [("gpio", Demo.lamp, "1")]
  = ([EvQueueGet ("gpio", Demo.lamp, "1");
      EvSetPin "gpio" (PinNum 17) false;
      set_pin_log Demo.lamp true;
      EvPublish "P/output/lamp" "1" (Some 1) (Some false)],
     WPublish ("gpio", Demo.lamp, "1"), []).
Proof. vm_compute. reflexivity. Qed.

(** The name of an output is taken to be one topic level.  With a separator
    in it, the lazy group stops short: [a/b] is read as [a]. *)
Example name_with_separator :
  output_name_from_topic (control_topic "P" "a/b" SET_TOPIC) "P" = Ok "a".
Proof. vm_compute. reflexivity. Qed.

(** ** Timed pulses *)

Section Pulse.

Variable float_of_str : string -> option float.

Variables (topic_prefix : string) (module : gpio_module)
  (output_config : out_conf) (desired_value : bool) (payload : string).

Lemma set_ms_parsed (ms : float) :
  float_of_str payload = Some ms ->
  sleep_returns (ms / 1000)%float = true ->
  let secs := PyFloat (ms / 1000)%float in
  set_ms float_of_str topic_prefix module output_config desired_value payload
  = [EvLog INFO "Turning output '%s' %s for %s second(s)"
       [VStr (oc_name output_config); VStr (on_off desired_value); VNum secs];
     set_pin_call module output_config desired_value;
     set_pin_log output_config desired_value;
     publish_output topic_prefix output_config
       (if desired_value then oc_on_payload output_config
        else oc_off_payload output_config);
     EvSleep secs;
     EvLog INFO "Turning output '%s' %s after %s second(s) elapsed"
       [VStr (oc_name output_config); VStr (on_off (negb desired_value));
        VNum secs];
     set_pin_call module output_config (negb desired_value);
     set_pin_log output_config (negb desired_value);
     publish_output topic_prefix output_config
       (if desired_value then oc_off_payload output_config
        else oc_on_payload output_config)].
Proof. intros H Hs. unfold set_ms. rewrite H, Hs. reflexivity. Qed.

Lemma set_ms_actions (ms : float) :
  float_of_str payload = Some ms ->
  sleep_returns (ms / 1000)%float = true ->
  actions
    (set_ms float_of_str topic_prefix module output_config desired_value
       payload)
  = [set_pin_call module output_config desired_value;
     publish_output topic_prefix output_config
       (if desired_value then oc_on_payload output_config
        else oc_off_payload output_config);
     EvSleep (PyFloat (ms / 1000)%float);
     set_pin_call module output_config (negb desired_value);
     publish_output topic_prefix output_config
       (if desired_value then oc_off_payload output_config
        else oc_on_payload output_config)].
Proof. intros H Hs. rewrite (set_ms_parsed ms H Hs). reflexivity. Qed.


Lemma set_ms_not_warning (ms : float) :
  float_of_str payload = Some ms ->
  List.filter is_warning
    (set_ms float_of_str topic_prefix module output_config desired_value
       payload) = []
  /\ set_ms float_of_str topic_prefix module output_config desired_value
       payload
     <> [EvLog WARNING "Unable to parse ms value as float from payload %r"
           [VStr payload]].
Proof.
  intros H. unfold set_ms. rewrite H.
  destruct (sleep_returns (ms / 1000)); split; (reflexivity || discriminate).
Qed.

Lemma set_ms_unparsable :
  float_of_str payload = None ->
  set_ms float_of_str topic_prefix module output_config desired_value payload
  = [EvLog WARNING "Unable to parse ms value as float from payload %r"
       [VStr payload]].
Proof. intros H. unfold set_ms. rewrite H. reflexivity. Qed.

End Pulse.





Example demo_pulse_routed :
  _handle_mqtt_msg Demo.server "P/output/lamp/set_off_ms" "250"
  = ([], Ok (spawn_unawaited Demo.server
               (CoSetMs "gpio" Demo.lamp false "250"))).
Proof. vm_compute. reflexivity. Qed.

(** C9.  A payload that [float] reads as a value [d <= 0] is not rejected:
    the pulse task performs both writes and both publishes, and the sleep
    between them is for [d / 1000] seconds, which is [<= 0] as well.  The
    task stops at the warning exactly when [float] fails on the payload. *)
Theorem C9_nonpositive_duration
    (float_of_str : string -> option float)
    (topic_prefix : string) (module : gpio_module) (output_config : out_conf)
    (desired_value : bool) (payload : string) :
  let pulse :=
    set_ms float_of_str topic_prefix module output_config desired_value
      payload in
  let write v :=
    EvSetPin module (oc_pin output_config) (xorb v (oc_inverted output_config)) in
  let publish p :=
    EvPublish (output_topic topic_prefix (oc_name output_config)) p
      (Some 1) (Some (oc_retain output_config)) in
  let on := oc_on_payload output_config in
  let off := oc_off_payload output_config in
  (forall d : float,
     float_of_str payload = Some d -> (d <=? 0)%float = true ->
     actions pulse
     = [write desired_value;
        publish (if desired_value then on else off);
        EvSleep (PyFloat (d / 1000)%float);
        write (negb desired_value);
        publish (if desired_value then off else on)]
     /\ (d / 1000 <=? 0)%float = true
     /\ List.filter is_warning pulse = [])
  /\ (float_of_str payload = None
      <-> pulse
          = [EvLog WARNING "Unable to parse ms value as float from payload %r"
               [VStr payload]]).
Proof.
  intros pulse write publish on off. split.
  - intros d Hd Hle.
    pose proof (div_1000_nonpos d Hle) as Hsecs.
    pose proof (nonpos_sleep_returns _ Hsecs) as Hs.
    split; [apply set_ms_actions; assumption|].
    split; [exact Hsecs|].
    unfold pulse. rewrite (set_ms_parsed _ _ _ _ _ _ d Hd Hs). reflexivity.
  - split.
    + apply set_ms_unparsable.
    + destruct (float_of_str payload) as [d|] eqn:E; [|reflexivity].
      intros H. exfalso.
      exact (proj2 (set_ms_not_warning _ _ _ _ _ _ d E) H).
Qed.

Lemma C9_witness :
  actions (set_ms Demo.float_of_str "P" "gpio" Demo.relay1 true "-5")
  = [EvSetPin "gpio" (PinNum 4) true;
     EvPublish "P/output/relay1" "ON" (Some 1) (Some true);
     EvSleep (PyFloat (-5 / 1000)%float);
     EvSetPin "gpio" (PinNum 4) false;
     EvPublish "P/output/relay1" "OFF" (Some 1) (Some true)]
  /\ (-5 / 1000 <=? 0)%float = true
  /\ List.filter is_warning
       (set_ms Demo.float_of_str "P" "gpio" Demo.relay1 true "-5") = [].
Proof.
  refine (proj1 (C9_nonpositive_duration Demo.float_of_str "P" "gpio"
                   Demo.relay1 true "-5") (-5)%float _ _); reflexivity.
Defined.

(** ** Requests the router does not expect *)

(** A topic with a control suffix that does not fit the pattern is dropped
    with a warning, and the server is left as it was. *)
Lemma malformed_topic_dropped (self : MqttGpio) (topic payload : string) :
  existsb (fun x => endswith topic ("/" +:+ x)) control_suffixes = true ->
  output_name_from_topic topic (topic_prefix self)
    = Raise (structure_error topic) ->
  _handle_mqtt_msg self topic payload
  = ([EvLog WARNING "Unable to parse topic: %s" [VExn (structure_error topic)]],
     Ok self).
Proof.
  intros Hs Hn. unfold _handle_mqtt_msg. rewrite Hs, Hn. reflexivity.
Qed.

(** A well-formed topic whose name is not a configured output makes the
    lookup in [digital_output_configs] raise, and nothing catches it. *)
Lemma unconfigured_name_raises (self : MqttGpio) (topic payload name : string) :
  existsb (fun x => endswith topic ("/" +:+ x)) control_suffixes = true ->
  output_name_from_topic topic (topic_prefix self) = Ok name ->
  digital_output_configs self !! name = None ->
  _handle_mqtt_msg self topic payload = ([], Raise (KeyError name)).
Proof.
  intros Hs Hn Hl. unfold _handle_mqtt_msg. rewrite Hs, Hn, Hl. reflexivity.
Qed.

(** C1.  The handler on [P/output/ghost/set] when no output is called
    [ghost]: the [KeyError] of the lookup leaves [_handle_mqtt_msg] without
    a log record; in the receive loop it runs the [finally] block and ends
    the loop, so that the message that follows is never handled. *)
Theorem C1_unknown_output_escapes :
  _handle_mqtt_msg Demo.server "P/output/ghost/set" "ON"
  = ([], Raise (KeyError "ghost"))
  /\ _mqtt_rx_loop Demo.server
       [("P/output/ghost/set", "ON"); ("P/output/relay1/set", "ON")]
     = ([EvLog INFO "Received message on topic %r: %r"
           [VStr "P/output/ghost/set"; VStr "ON"];
         EvPublish "P/status" "stopped" (Some 1) (Some true);
         EvLog INFO "Disconnecting from MQTT..." [];
         EvDisconnect;
         EvLog INFO "MQTT disconnected" []],
        Demo.server, RxEnded (KeyError "ghost")).
Proof. split; vm_compute; reflexivity. Qed.

(** ** Sensor polling *)

Lemma poll_sensor_reads (py_round : pynum -> Z -> pynum)
    (sensor_module : string) (sc : sens_conf) (values : list (option pynum)) :
  length (List.filter is_get_value
            (poll_sensor py_round sensor_module sc values))
  = length values.
Proof.
  induction values as [|v values IH]; [reflexivity|].
  cbn [poll_sensor]. rewrite List.filter_app, length_app, IH.
  destruct v; reflexivity.
Qed.

(** C10.  A turn of the sensor loop in which [async_get_value] returned
    [None] consists of the read and the sleep for the configured interval:
    no event is fired, so no handler is scheduled and nothing is published,
    whoever subscribed.  The loop then takes its next turn: over any
    sequence of answers it reads once per answer.  (A turn with a reading
    fires one event, which the sensor callback turns into one publish.) *)
Theorem C10_no_reading_no_publish
    (py_round : pynum -> Z -> pynum) (py_str : pynum -> string)
    (topic_prefix sensor_module : string) (sc : sens_conf) :
  let turn := poll_sensor_turn py_round sensor_module sc None in
  turn = [EvGetValue sensor_module (sc_name sc); EvSleep (sc_interval sc)]
  /\ List.filter is_fire turn = []
  /\ List.filter is_publish turn = []
  /\ (forall subscribers, dispatched subscribers turn = [])
  /\ (forall values,
        poll_sensor py_round sensor_module sc (None :: values)
        = turn ++ poll_sensor py_round sensor_module sc values)
  /\ (forall values,
        length (List.filter is_get_value
                  (poll_sensor py_round sensor_module sc values))
        = length values)
  /\ (forall v,
        dispatched [(TSensorRead, publish_sensor_callback py_str topic_prefix)]
          (poll_sensor_turn py_round sensor_module sc (Some v))
        = [EvPublish
             (topic_prefix +:+ "/" +:+ SENSOR_TOPIC +:+ "/" +:+ sc_name sc)
             (py_str (py_round v (sc_digits sc))) None None]).
Proof.
  intros turn. repeat split.
  intros values. apply poll_sensor_reads.
Qed.

(** ** The reaper *)

Section ReaperFacts.

Variable cancelled_is_exception : bool.











End ReaperFacts.


(** With a cancelled tracked task, on a Python where [CancelledError] is
    not an [Exception], the [await] in the reaper raises and ends it. *)
Example reaper_ended_by_cancelled_task :
  let self :=
    set_unawaited_tasks
      (spawn_unawaited Demo.server (CoOther "poller")) [1%nat] in
  let cancelled :=
    {| topic_prefix := topic_prefix self;
       status_topic := status_topic self;
       status_payload_stopped := status_payload_stopped self;
       config_digital_outputs := config_digital_outputs self;
       digital_output_configs := digital_output_configs self;
       gpio_modules := gpio_modules self;
       module_output_queues := module_output_queues self;
       queues := queues self;
       loop_tasks := [(CoDigitalOutputLoop 0, Pending);
                      (CoOther "poller", Failed CancelledError)];
       unawaited_tasks := [1%nat] |} in
  reaper_pass false cancelled = ([EvSleep (PyInt 1)], Raise CancelledError)
  /\ fst (reaper_pass true cancelled) = [EvSleep (PyInt 1); exception_log 1].
Proof. split; vm_compute; reflexivity. Qed.

Example demo_reaper_pass :
  fst (reaper_pass false Demo.busy) = [EvSleep (PyInt 1); exception_log 2]
  /\ (forall self', snd (reaper_pass false Demo.busy) = Ok self' ->
        unawaited_tasks self' = [0; 3]%nat).
Proof.
  split; [vm_compute; reflexivity|].
  vm_compute. intros self' [= <-]. reflexivity.
Qed.

(** ** One queue and one worker per module *)

Local Open Scope nat_scope.

Lemma worker_tasks_length (n : nat) : length (worker_tasks n) = n.
Proof. unfold worker_tasks. rewrite length_map, length_seq. reflexivity. Qed.

Lemma worker_tasks_S (n : nat) :
  worker_tasks (S n) = worker_tasks n ++ [(CoDigitalOutputLoop n, Pending)].
Proof. unfold worker_tasks. rewrite seq_S, map_app. reflexivity. Qed.

Lemma worker_tasks_lookup (n t q : nat) :
  worker_tasks n !! t = Some (CoDigitalOutputLoop q, Pending) <-> t = q /\ q < n.
Proof.
  unfold worker_tasks.
  change (map (λ q0, (CoDigitalOutputLoop q0, Pending)) (seq 0 n))
    with ((λ q0, (CoDigitalOutputLoop q0, Pending)) <$> seq 0 n).
  rewrite list_lookup_fmap. split.
  - destruct (seq 0 n !! t) as [j|] eqn:E; [|discriminate].
    apply lookup_seq in E as [-> Hlt]. intros [= <-]. split; [reflexivity|lia].
  - intros [-> Hlt]. rewrite lookup_seq_lt by exact Hlt. reflexivity.
Qed.

Lemma aligned_fresh (self : MqttGpio) :
  module_output_queues self = ∅ -> queues self = [] ->
  loop_tasks self = [] -> unawaited_tasks self = [] ->
  aligned self [].
Proof.
  intros Hq Hqs Ht Hu. unfold aligned. rewrite Hq, Hqs, Ht, Hu.
  split; [constructor|]. split; [|repeat split].
  intros m i. rewrite lookup_empty, lookup_nil. split; discriminate.
Qed.

Lemma aligned_not_seen (self : MqttGpio) (ms : list string) (m : string) :
  aligned self ms ->
  module_output_queues self !! m = None <-> m ∉ ms.
Proof.
  intros (_ & Hmap & _). split.
  - intros Hnone Hin. apply list_elem_of_lookup in Hin as [i Hi].
    apply Hmap in Hi. congruence.
  - intros Hnot. destruct (module_output_queues self !! m) as [i|] eqn:E;
      [|reflexivity].
    exfalso. apply Hnot. apply Hmap in E. eapply list_elem_of_lookup_2, E.
Qed.

(** Meeting a module for the first time adds its queue and its worker. *)
Lemma aligned_new_module (self : MqttGpio) (ms : list string) (m : string) :
  aligned self ms -> m ∉ ms ->
  aligned
    (spawn_unawaited (new_module_queue self m)
       (CoDigitalOutputLoop (length (queues self))))
    (ms ++ [m]).
Proof.
  intros (Hnd & Hmap & Hqs & Hts & Hus) Hnot.
  assert (Hlen : length (queues self) = length ms)
    by (rewrite Hqs; apply length_replicate).
  unfold aligned.
  cbn [module_output_queues queues loop_tasks unawaited_tasks
       spawn_unawaited new_module_queue].
  rewrite length_app, Nat.add_1_r. cbn [length].
  split; [|split; [|split; [|split]]].
  - apply NoDup_app. split; [exact Hnd|]. split; [|apply NoDup_singleton].
    intros x Hx Hx'. apply list_elem_of_singleton in Hx' as ->. contradiction.
  - intros m' i. rewrite Hlen. destruct (decide (m = m')) as [<-|Hne].
    + rewrite lookup_insert_eq. split.
      * intros [= <-]. apply list_lookup_middle. reflexivity.
      * intros Hi. f_equal.
        destruct (decide (i < length ms)) as [Hlt|Hge].
        -- rewrite lookup_app_l in Hi by exact Hlt.
           exfalso. apply Hnot. eapply list_elem_of_lookup_2, Hi.
        -- apply lookup_lt_Some in Hi. rewrite length_app in Hi.
           cbn [length] in Hi. lia.
    + rewrite lookup_insert_ne by exact Hne. rewrite Hmap. split.
      * intros Hi. rewrite lookup_app_l; [exact Hi|].
        eapply lookup_lt_Some, Hi.
      * intros Hi. destruct (decide (i < length ms)) as [Hlt|Hge].
        -- rewrite lookup_app_l in Hi by exact Hlt. exact Hi.
        -- rewrite lookup_app_r in Hi by lia.
           destruct (i - length ms) as [|k]; [|destruct k; discriminate].
           cbn in Hi. congruence.
  - rewrite Hqs. symmetry. apply replicate_S_end.
  - rewrite Hts, Hlen. symmetry. apply worker_tasks_S.
  - rewrite Hus, Hts, worker_tasks_length, seq_S. reflexivity.
Qed.

Lemma init_outputs_loop_aligned (confs : list out_conf) :
  forall self ms tr self',
    aligned self ms ->
    init_outputs_loop self confs = (tr, Ok self') ->
    aligned self' (ms ++ new_modules ms confs)
    /\ topic_prefix self' = topic_prefix self
    /\ gpio_modules self' = gpio_modules self
    /\ digital_output_configs self' = digital_output_configs self.
Proof.
  induction confs as [|c confs IH]; intros self ms tr self' Hal Hrun.
  - cbn in Hrun. injection Hrun as <- <-. cbn [new_modules].
    rewrite app_nil_r. auto.
  - cbn [init_outputs_loop] in Hrun.
    destruct (gpio_modules self !! oc_module c) as [module|]; [|discriminate].
    cbn [new_modules].
    destruct (module_output_queues self !! oc_module c) as [i|] eqn:Eq.
    + assert (Hin : oc_module c ∈ ms).
      { destruct Hal as (_ & Hmap & _). apply Hmap in Eq.
        eapply list_elem_of_lookup_2, Eq. }
      rewrite bool_decide_eq_true_2 by exact Hin.
      destruct (init_outputs_loop self confs) as [tr1 r1] eqn:E1.
      injection Hrun as <- ->. eapply IH; eassumption.
    + assert (Hnot : oc_module c ∉ ms) by (eapply aligned_not_seen; eassumption).
      rewrite bool_decide_eq_false_2 by exact Hnot.
      destruct (init_outputs_loop _ confs) as [tr1 r1] eqn:E1.
      injection Hrun as <- ->.
      destruct (IH _ (ms ++ [oc_module c]) _ _
                  (aligned_new_module _ _ _ Hal Hnot) E1)
        as (Hal' & Hp & Hg & Hd).
      rewrite <- app_assoc in Hal'. auto.
Qed.

Lemma new_modules_elem (confs : list out_conf) : forall seen m,
  m ∈ seen ++ new_modules seen confs
  <-> m ∈ seen \/ exists c, In c confs /\ oc_module c = m.
Proof.
  induction confs as [|c confs IH]; intros seen m; cbn [new_modules].
  - rewrite app_nil_r. split; [auto|]. intros [H|(c & [] & _)]. exact H.
  - destruct (bool_decide (oc_module c ∈ seen)) eqn:E.
    + apply bool_decide_eq_true in E. rewrite IH. split.
      * intros [H|(c' & Hin & Hc)]; [auto|]. right. exists c'. split; [right|]; auto.
      * intros [H|(c' & [<-|Hin] & Hc)]; [auto| |].
        -- left. subst m. exact E.
        -- right. exists c'. auto.
    + change (seen ++ oc_module c :: new_modules (seen ++ [oc_module c]) confs)
        with (seen ++ [oc_module c] ++ new_modules (seen ++ [oc_module c]) confs).
      rewrite app_assoc, IH, elem_of_app, list_elem_of_singleton. split.
      * intros [[H| ->]|(c' & Hin & Hc)]; [auto| |].
        -- right. exists c. split; [left|]; reflexivity.
        -- right. exists c'. split; [right|]; auto.
      * intros [H|(c' & [<-|Hin] & Hc)]; [auto| |].
        -- left. right. symmetry. exact Hc.
        -- right. exists c'. auto.
Qed.

Lemma first_modules_elem (confs : list out_conf) (m : string) :
  m ∈ first_modules confs <-> exists c, In c confs /\ oc_module c = m.
Proof.
  unfold first_modules.
  rewrite <- (app_nil_l (new_modules [] confs)), new_modules_elem.
  split; [|auto]. intros [H|H]; [|exact H]. inversion H.
Qed.

Lemma init_digital_outputs_aligned (self : MqttGpio) (tr : list event)
    (self' : MqttGpio) :
  module_output_queues self = ∅ -> queues self = [] ->
  loop_tasks self = [] -> unawaited_tasks self = [] ->
  _init_digital_outputs self = (tr, Ok self') ->
  aligned self' (first_modules (config_digital_outputs self))
  /\ topic_prefix self' = topic_prefix self.
Proof.
  intros Hq Hqs Ht Hu Hrun. unfold _init_digital_outputs in Hrun.
  apply (init_outputs_loop_aligned _ _ []) in Hrun as (Hal & Hp & _).
  - split; [exact Hal|exact Hp].
  - apply aligned_fresh; assumption.
Qed.


Lemma aligned_wf (self : MqttGpio) (ms : list string) :
  aligned self ms -> Serial.wf self.
Proof.
  intros (Hnd & Hmap & Hqs & Hts & Hus).
  assert (Hlen : length (queues self) = length ms)
    by (rewrite Hqs; apply length_replicate).
  unfold Serial.wf, Serial.is_worker. rewrite Hlen, Hts.
  split; [|split; [|split; [|split]]].
  - intros m q Hq. apply Hmap in Hq. eapply lookup_lt_Some, Hq.
  - intros m1 m2 q H1 H2. apply Hmap in H1, H2. congruence.
  - intros t1 t2 q H1 H2.
    apply worker_tasks_lookup in H1 as [-> _].
    apply worker_tasks_lookup in H2 as [-> _]. reflexivity.
  - intros m q Hq. exists q. apply worker_tasks_lookup. split; [reflexivity|].
    apply Hmap in Hq. eapply lookup_lt_Some, Hq.
  - intros t q H. apply worker_tasks_lookup in H as [_ H]. exact H.
Qed.

Lemma booted_aligned (prefix status stopped : string) (modules : list string)
    (outputs : list out_conf) (s : Serial.system) :
  Serial.booted prefix status stopped modules outputs s ->
  aligned (Serial.server s) (first_modules outputs)
  /\ topic_prefix (Serial.server s) = prefix
  /\ Serial.pcs s = ∅.
Proof.
  intros (tr & Hrun & Hpcs).
  apply init_digital_outputs_aligned in Hrun as [Hal Hp]; try reflexivity.
  auto.
Qed.

Lemma booted_inv (prefix status stopped : string) (modules : list string)
    (outputs : list out_conf) (s : Serial.system) :
  Serial.booted prefix status stopped modules outputs s ->
  Serial.inv prefix [] s.
Proof.
  intros Hb. apply booted_aligned in Hb as (Hal & Hp & Hpcs).
  pose proof (aligned_wf _ _ Hal) as Hwf.
  assert (Hempty : forall q content,
            queues (Serial.server s) !! q = Some content -> content = []).
  { intros q content Hq. destruct Hal as (_ & _ & Hqs & _).
    rewrite Hqs in Hq. apply lookup_replicate in Hq as [-> _]. reflexivity. }
  assert (Hpc : forall t, Serial.pc_of s t = WGet).
  { intros t. unfold Serial.pc_of. rewrite Hpcs, lookup_empty. reflexivity. }
  unfold Serial.inv. split; [exact Hp|]. split; [exact Hwf|].
  split; [|split].
  - intros q content c Hq Hin. rewrite (Hempty _ _ Hq) in Hin. destruct Hin.
  - intros t c. rewrite Hpc. discriminate.
  - intros t q content _ Hq. rewrite Hpc, (Hempty _ _ Hq). reflexivity.
Qed.

(** ** What one step of the scheduler changes *)

Lemma handle_cases (self : MqttGpio) (topic payload : string)
    (tr : list event) (self' : MqttGpio) :
  _handle_mqtt_msg self topic payload = (tr, Ok self') ->
  (self' = self /\ forall q, Serial.puts_in q tr = [])
  \/ (exists q module output_config,
        module_output_queues self !! oc_module output_config = Some q
        /\ tr = [EvQueuePut q (module, output_config, payload)]
        /\ self' = put_nowait self q (module, output_config, payload))
  \/ (exists co, (forall q, co <> CoDigitalOutputLoop q)
        /\ tr = [] /\ self' = spawn_unawaited self co).
Proof.
  unfold _handle_mqtt_msg.
  destruct (negb (existsb _ control_suffixes)).
  { intros [= <- <-]. left. split; [reflexivity|]. intros q. reflexivity. }
  destruct (output_name_from_topic topic (topic_prefix self)) as [name|e].
  2:{ destruct e; intros [= <- <-] || discriminate.
      left. split; [reflexivity|]. intros q. reflexivity. }
  destruct (digital_output_configs self !! name) as [oc|]; [|discriminate].
  destruct (gpio_modules self !! oc_module oc) as [module|]; [|discriminate].
  destruct (endswith topic ("/" +:+ SET_TOPIC)).
  - destruct (module_output_queues self !! oc_module oc) as [q|] eqn:Eq;
      [|discriminate].
    intros [= <- <-]. right. left. exists q, module, oc. auto.
  - intros [= <- <-]. right. right. eexists. split; [|split; reflexivity].
    intros q. discriminate.
Qed.

Lemma loop_head_turns (prefix : string) (content : list command) :
  forall tr pc' content',
    loop_head content = (tr, pc', content') ->
    flat_map (process prefix) content
    = tr ++ pending prefix pc' ++ flat_map (process prefix) content'.
Proof.
  induction content as [|[[module oc] payload] content IH];
    intros tr pc' content'.
  - intros [= <- <- <-]. reflexivity.
  - destruct (valid_payload oc payload) eqn:Ev.
    + rewrite loop_head_valid by exact Ev. intros [= <- <- <-].
      cbn [flat_map process pending]. rewrite Ev. reflexivity.
    + rewrite loop_head_invalid by exact Ev.
      destruct (loop_head content) as [[tr1 pc1] rest1].
      intros [= <- <- <-]. cbn [flat_map process]. rewrite Ev.
      cbn [negb]. rewrite (IH _ _ _ eq_refl). reflexivity.
Qed.

Lemma loop_head_takes (content : list command) :
  forall tr pc' content',
    loop_head content = (tr, pc', content') ->
    (forall c, executing pc' = Some c -> In c content)
    /\ (forall c, In c content' -> In c content).
Proof.
  induction content as [|[[module oc] payload] content IH];
    intros tr pc' content'.
  - intros [= <- <- <-]. split; [discriminate|auto].
  - destruct (valid_payload oc payload) eqn:Ev.
    + rewrite loop_head_valid by exact Ev. intros [= <- <- <-].
      split; [intros c [= <-]; left; reflexivity|].
      intros c Hin. right. exact Hin.
    + rewrite loop_head_invalid by exact Ev.
      destruct (loop_head content) as [[tr1 pc1] rest1].
      intros [= <- <- <-]. destruct (IH _ _ _ eq_refl) as [H1 H2].
      split; intros c Hc; right; auto.
Qed.

Lemma worker_step_turns (prefix : string) (pc pc' : worker_pc)
    (content content' : list command) (tr : list event) :
  worker_step prefix pc content = Some (tr, pc', content') ->
  pending prefix pc ++ flat_map (process prefix) content
  = tr ++ pending prefix pc' ++ flat_map (process prefix) content'.
Proof.
  destruct pc as [|[[module oc] payload]|c]; cbn [worker_step pending].
  - destruct content as [|c content]; [discriminate|].
    intros [= H]. apply loop_head_turns, H.
  - intros [= <- <- <-]. reflexivity.
  - intros [= H]. apply loop_head_turns, H.
Qed.

Lemma worker_step_takes (prefix : string) (pc pc' : worker_pc)
    (content content' : list command) (tr : list event) :
  worker_step prefix pc content = Some (tr, pc', content') ->
  (forall c, executing pc' = Some c -> executing pc = Some c \/ In c content)
  /\ (forall c, In c content' -> In c content).
Proof.
  destruct pc as [|[[module oc] payload]|c0]; cbn [worker_step].
  - destruct content as [|c content]; [discriminate|].
    intros [= H].
    destruct (loop_head_takes (c :: content) _ _ _ H) as [H1 H2]. split; auto.
  - intros [= <- <- <-]. split; auto.
  - intros [= H].
    destruct (loop_head_takes content _ _ _ H) as [H1 H2]. split; auto.
Qed.

Lemma is_worker_spawn (self : MqttGpio) (co : coro) (t q : nat) :
  (forall q', co <> CoDigitalOutputLoop q') ->
  Serial.is_worker (spawn_unawaited self co) t q <-> Serial.is_worker self t q.
Proof.
  intros Hco. unfold Serial.is_worker. cbn [loop_tasks spawn_unawaited].
  split.
  - intros H. destruct (decide (t < length (loop_tasks self))) as [Hlt|Hge].
    + rewrite lookup_app_l in H by exact Hlt. exact H.
    + rewrite lookup_app_r in H by lia.
      destruct (t - length (loop_tasks self)) as [|k];
        [|destruct k; discriminate].
      cbn in H. injection H as H. exfalso. eapply Hco, H.
  - intros H. rewrite lookup_app_l; [exact H|]. eapply lookup_lt_Some, H.
Qed.

Lemma wf_put (self : MqttGpio) (q : nat) (c : command) :
  Serial.wf self -> Serial.wf (put_nowait self q c).
Proof.
  unfold Serial.wf, Serial.is_worker, put_nowait.
  cbn [module_output_queues queues loop_tasks set_queues].
  rewrite length_alter. auto.
Qed.

Lemma wf_set_queue (self : MqttGpio) (q : nat) (content : list command) :
  Serial.wf self ->
  Serial.wf (set_queues self (<[q := content]> (queues self))).
Proof.
  unfold Serial.wf, Serial.is_worker.
  cbn [module_output_queues queues loop_tasks set_queues].
  rewrite length_insert. auto.
Qed.

Lemma wf_spawn (self : MqttGpio) (co : coro) :
  (forall q, co <> CoDigitalOutputLoop q) ->
  Serial.wf self -> Serial.wf (spawn_unawaited self co).
Proof.
  intros Hco (H1 & H2 & H3 & H4 & H5). unfold Serial.wf.
  split; [exact H1|]. split; [exact H2|]. split; [|split].
  - intros t1 t2 q Ha Hb. apply is_worker_spawn in Ha, Hb; try exact Hco.
    eapply H3; eassumption.
  - intros m q Hq. destruct (H4 m q Hq) as [t Ht]. exists t.
    apply is_worker_spawn; assumption.
  - intros t q Ht. apply is_worker_spawn in Ht; [|exact Hco].
    apply (H5 t q Ht).
Qed.

Lemma trace_of_snoc (t : nat) (h : list (Serial.label * list event))
    (l : Serial.label) (tr : list event) :
  Serial.trace_of t (h ++ [(l, tr)])
  = Serial.trace_of t h
    ++ match l with
       | Serial.LRun t' => if Nat.eqb t' t then tr else []
       | Serial.LMsg _ _ => []
       end.
Proof.
  unfold Serial.trace_of. rewrite flat_map_app. cbn [flat_map fst snd].
  rewrite app_nil_r. reflexivity.
Qed.

Lemma puts_of_snoc (q : nat) (h : list (Serial.label * list event))
    (l : Serial.label) (tr : list event) :
  Serial.puts_of q (h ++ [(l, tr)])
  = Serial.puts_of q h
    ++ match l with
       | Serial.LMsg _ _ => Serial.puts_in q tr
       | Serial.LRun _ => []
       end.
Proof.
  unfold Serial.puts_of. rewrite flat_map_app. cbn [flat_map fst snd].
  rewrite app_nil_r. reflexivity.
Qed.

Lemma pc_of_insert (s : Serial.system) (self : MqttGpio) (t0 t : nat)
    (pc' : worker_pc) :
  Serial.pc_of {| Serial.server := self;
                  Serial.pcs := <[t0 := pc']> (Serial.pcs s) |} t
  = if decide (t0 = t) then pc' else Serial.pc_of s t.
Proof.
  unfold Serial.pc_of. cbn [Serial.pcs]. destruct (decide (t0 = t)) as [->|Hne].
  - rewrite lookup_insert_eq. reflexivity.
  - rewrite lookup_insert_ne by exact Hne. reflexivity.
Qed.

Lemma step_msg_inv (prefix : string) (h : list (Serial.label * list event))
    (s : Serial.system) (topic payload : string) (tr : list event)
    (self' : MqttGpio) :
  Serial.inv prefix h s ->
  _handle_mqtt_msg (Serial.server s) topic payload = (tr, Ok self') ->
  Serial.inv prefix (h ++ [(Serial.LMsg topic payload, tr)])
    {| Serial.server := self'; Serial.pcs := Serial.pcs s |}.
Proof.
  intros (Hp & Hwf & Hq & Hx & Hf) Hmsg.
  unfold Serial.inv. cbn [Serial.server].
  assert (Hpc : forall t, Serial.pc_of {| Serial.server := self';
                                          Serial.pcs := Serial.pcs s |} t
                          = Serial.pc_of s t) by reflexivity.
  apply handle_cases in Hmsg
    as [[-> Hputs]|[(q0 & module & oc & Hq0 & -> & ->)|(co & Hco & -> & ->)]].
  - split; [exact Hp|]. split; [exact Hwf|]. split; [exact Hq|].
    split; [intros t c; rewrite Hpc; apply Hx|].
    intros t q content Hw Hc. rewrite Hpc, trace_of_snoc, puts_of_snoc.
    rewrite Hputs, !app_nil_r. apply Hf; assumption.
  - split; [exact Hp|]. split; [apply wf_put, Hwf|].
    split; [|split].
    + intros q content c Hc Hin. cbn [module_output_queues put_nowait set_queues].
      cbn [queues put_nowait set_queues] in Hc.
      destruct (decide (q0 = q)) as [<-|Hne].
      * rewrite list_lookup_alter_eq in Hc.
        destruct (queues (Serial.server s) !! q0) as [old|] eqn:Eold;
          [|discriminate].
        injection Hc as <-. apply in_app_or in Hin as [Hin|[<-|[]]].
        -- eapply Hq; eassumption.
        -- exact Hq0.
      * rewrite list_lookup_alter_ne in Hc by exact Hne.
        eapply Hq; eassumption.
    + intros t c. rewrite Hpc. apply Hx.
    + intros t q content Hw Hc. rewrite Hpc, trace_of_snoc, puts_of_snoc.
      rewrite app_nil_r. cbn [queues put_nowait set_queues] in Hc.
      change (Serial.is_worker (Serial.server s) t q) in Hw.
      cbn [Serial.puts_in flat_map]. rewrite app_nil_r.
      destruct (decide (q0 = q)) as [<-|Hne].
      * rewrite list_lookup_alter_eq in Hc.
        destruct (queues (Serial.server s) !! q0) as [old|] eqn:Eold;
          [|discriminate].
        injection Hc as <-. rewrite Nat.eqb_refl, !flat_map_app.
        rewrite <- (Hf t q0 old Hw Eold), <- !app_assoc. reflexivity.
      * rewrite list_lookup_alter_ne in Hc by exact Hne.
        apply Nat.eqb_neq in Hne. rewrite Hne, app_nil_r.
        apply Hf; assumption.
  - split; [exact Hp|]. split; [apply wf_spawn; assumption|].
    split; [exact Hq|]. split.
    + intros t c. rewrite Hpc. intros Hc. destruct (Hx t c Hc) as (q & Hw & Hm).
      exists q. split; [apply is_worker_spawn; assumption|exact Hm].
    + intros t q content Hw Hc. apply is_worker_spawn in Hw; [|exact Hco].
      rewrite Hpc, trace_of_snoc, puts_of_snoc, !app_nil_r.
      apply Hf; assumption.
Qed.

Lemma step_worker_inv (prefix : string) (h : list (Serial.label * list event))
    (s : Serial.system) (t0 q0 : nat) (content0 content' : list command)
    (tr : list event) (pc' : worker_pc) :
  Serial.inv prefix h s ->
  Serial.is_worker (Serial.server s) t0 q0 ->
  queues (Serial.server s) !! q0 = Some content0 ->
  worker_step (topic_prefix (Serial.server s)) (Serial.pc_of s t0) content0
    = Some (tr, pc', content') ->
  Serial.inv prefix (h ++ [(Serial.LRun t0, tr)])
    {| Serial.server :=
         set_queues (Serial.server s)
           (<[q0 := content']> (queues (Serial.server s)));
       Serial.pcs := <[t0 := pc']> (Serial.pcs s) |}.
Proof.
  intros (Hp & Hwf & Hq & Hx & Hf) Hw0 Hc0 Hstep.
  rewrite Hp in Hstep.
  pose proof (worker_step_turns _ _ _ _ _ _ Hstep) as Hturns.
  pose proof (worker_step_takes _ _ _ _ _ _ Hstep) as [Htake Hleft].
  assert (Hlt : q0 < length (queues (Serial.server s)))
    by (eapply lookup_lt_Some, Hc0).
  unfold Serial.inv. cbn [Serial.server].
  split; [exact Hp|]. split; [apply wf_set_queue, Hwf|].
  cbn [module_output_queues queues set_queues].
  change (Serial.is_worker (set_queues (Serial.server s)
            (<[q0 := content']> (queues (Serial.server s)))))
    with (Serial.is_worker (Serial.server s)).
  split; [|split].
  - intros q content c Hc Hin. destruct (decide (q0 = q)) as [<-|Hne].
    + rewrite list_lookup_insert_eq in Hc by exact Hlt. injection Hc as <-.
      eapply Hq; [exact Hc0|]. apply Hleft, Hin.
    + rewrite list_lookup_insert_ne in Hc by exact Hne. eapply Hq; eassumption.
  - intros t c. rewrite pc_of_insert. destruct (decide (t0 = t)) as [<-|Hne].
    + intros Hc. destruct (Htake c Hc) as [Hold|Hin].
      * apply Hx, Hold.
      * exists q0. split; [exact Hw0|]. eapply Hq; eassumption.
    + apply Hx.
  - intros t q content Hw Hc. rewrite pc_of_insert, trace_of_snoc, puts_of_snoc.
    rewrite app_nil_r. destruct (decide (t0 = t)) as [<-|Hne].
    + assert (q = q0) as ->.
      { unfold Serial.is_worker in Hw, Hw0. rewrite Hw0 in Hw.
        injection Hw as ->. reflexivity. }
      rewrite list_lookup_insert_eq in Hc by exact Hlt. injection Hc as <-.
      rewrite Nat.eqb_refl, <- (Hf t0 q0 content0 Hw0 Hc0), <- !app_assoc.
      f_equal. symmetry. exact Hturns.
    + assert (Hq0 : q0 <> q).
      { intros <-. apply Hne. destruct Hwf as (_ & _ & H3 & _).
        eapply H3; eassumption. }
      rewrite list_lookup_insert_ne in Hc by exact Hq0.
      apply Nat.eqb_neq in Hne. rewrite Hne, app_nil_r.
      apply Hf; assumption.
Qed.

Lemma run_inv (prefix : string) (s0 s : Serial.system)
    (h : list (Serial.label * list event)) :
  Serial.inv prefix [] s0 -> Serial.run s0 h s -> Serial.inv prefix h s.
Proof.
  intros H0 Hrun. induction Hrun as [s|s h s' l tr s'' Hrun IH Hstep].
  - exact H0.
  - specialize (IH H0). destruct Hstep.
    + apply step_msg_inv; assumption.
    + eapply step_worker_inv; eassumption.
Qed.


Lemma demo_booted : Serial.booted "P" "status" "stopped" ["gpio"]
                      [Demo.relay1; Demo.lamp] Demo.s0.
Proof.
  exists (fst (_init_digital_outputs Demo.fresh)).
  split; [vm_compute; reflexivity|reflexivity].
Qed.



(** ** Shutdown: the task table *)

Import Shutdown.

Lemma mark_code (x : task) : t_code (mark x) = t_code x.
Proof. unfold mark. destruct (t_done x); reflexivity. Qed.

Lemma mark_done (x : task) : t_done (mark x) = t_done x.
Proof. unfold mark. destruct (t_done x) eqn:E; [exact E|reflexivity]. Qed.

Lemma mark_mark (x : task) : mark (mark x) = mark x.
Proof. unfold mark. destruct (t_done x) eqn:E; cbn; rewrite ?E; reflexivity. Qed.

Lemma cancel_each_lookup (l : list nat) : forall (ts : list task) (j : nat),
  cancel_each ts l !! j
  = (fun x => if bool_decide (j ∈ l) then mark x else x) <$> ts !! j.
Proof.
  induction l as [|t l IH]; intros ts j; cbn [cancel_each fold_left].
  - destruct (ts !! j); reflexivity.
  - change (fold_left cancel l (cancel ts t)) with (cancel_each (cancel ts t) l).
    rewrite IH. unfold cancel. rewrite list_lookup_alter.
    destruct (decide (t = j)) as [->|Hne].
    + rewrite (bool_decide_eq_true_2 (j ∈ j :: l)) by left.
      destruct (ts !! j) as [x|]; [|reflexivity]. cbn.
      destruct (bool_decide (j ∈ l)); [rewrite mark_mark|]; reflexivity.
    + destruct (ts !! j) as [x|]; [|reflexivity]. cbn.
      destruct (decide (j ∈ l)) as [Hin|Hnot].
      * rewrite !bool_decide_eq_true_2; [reflexivity|right; exact Hin|exact Hin].
      * rewrite !bool_decide_eq_false_2; [reflexivity| |exact Hnot].
        intros Hin. apply elem_of_cons in Hin as [->|Hin]; contradiction.
Qed.

Lemma cancel_each_length (l : list nat) (ts : list task) :
  length (cancel_each ts l) = length ts.
Proof.
  revert ts. induction l as [|t l IH]; intros ts; [reflexivity|].
  cbn [cancel_each fold_left].
  change (fold_left cancel l (cancel ts t)) with (cancel_each (cancel ts t) l).
  rewrite IH. apply length_alter.
Qed.

Lemma cancel_each_done (ts : list task) (l : list nat) (t : nat) :
  is_done (cancel_each ts l) t = is_done ts t.
Proof.
  unfold is_done. rewrite cancel_each_lookup.
  destruct (ts !! t) as [x|]; [|reflexivity]. cbn.
  destruct (bool_decide (t ∈ l)); [apply mark_done|reflexivity].
Qed.

Lemma cancel_each_code (ts : list task) (l : list nat) (j : nat) (x' : task) :
  cancel_each ts l !! j = Some x' ->
  exists x, ts !! j = Some x /\ t_code x' = t_code x /\ t_done x' = t_done x.
Proof.
  rewrite cancel_each_lookup. destruct (ts !! j) as [x|]; [|discriminate].
  cbn. intros [= <-]. exists x. split; [reflexivity|].
  destruct (bool_decide (j ∈ l)); [|auto]. split; [apply mark_code|apply mark_done].
Qed.

Lemma is_done_insert (ts : list task) (i t : nat) (x' : task) :
  i < length ts ->
  is_done (<[i := x']> ts) t
  = if decide (i = t) then t_done x' else is_done ts t.
Proof.
  intros Hlt. unfold is_done. destruct (decide (i = t)) as [->|Hne].
  - rewrite list_lookup_insert_eq by exact Hlt. reflexivity.
  - rewrite list_lookup_insert_ne by exact Hne. reflexivity.
Qed.

Lemma is_done_created (ts : list task) (c : code) (t : nat) :
  is_done (ts ++ [suspend_at c]) t = is_done ts t.
Proof.
  unfold is_done. destruct (decide (t < length ts)) as [Hlt|Hge].
  - rewrite lookup_app_l by exact Hlt. reflexivity.
  - rewrite (lookup_ge_None_2 ts t) by lia.
    rewrite lookup_app_r by lia.
    destruct (t - length ts) as [|k]; [reflexivity|]. destruct k; reflexivity.
Qed.

Lemma role_ok_same (rx rp sd j : nat) (c c' : code) :
  role_ok rx rp sd j c -> same_role c c' -> role_ok rx rp sd j c'.
Proof. destruct c, c'; cbn; tauto. Qed.

Lemma roles_insert (rx rp sd : nat) (ts : list task) (i : nat) (x x' : task) :
  roles rx rp sd ts -> ts !! i = Some x ->
  same_role (t_code x) (t_code x') ->
  roles rx rp sd (<[i := x']> ts).
Proof.
  intros (Hlen & Hne & Hrole) Hi Hsame. unfold roles.
  rewrite length_insert. split; [exact Hlen|]. split; [exact Hne|].
  intros j y Hj. destruct (decide (i = j)) as [->|Hij].
  - rewrite list_lookup_insert_eq in Hj by (eapply lookup_lt_Some, Hi).
    injection Hj as <-. eapply role_ok_same; [eapply Hrole, Hi|exact Hsame].
  - rewrite list_lookup_insert_ne in Hj by exact Hij. eapply Hrole, Hj.
Qed.

Lemma roles_cancel_each (rx rp sd : nat) (ts : list task) (l : list nat) :
  roles rx rp sd ts -> roles rx rp sd (cancel_each ts l).
Proof.
  intros (Hlen & Hne & Hrole). unfold roles. rewrite cancel_each_length.
  split; [exact Hlen|]. split; [exact Hne|].
  intros j x' Hj. apply cancel_each_code in Hj as (x & Hx & Hc & _).
  rewrite Hc. eapply Hrole, Hx.
Qed.

Lemma roles_created (rx rp sd : nat) (ts : list task) :
  roles rx rp sd ts -> roles rx rp sd (ts ++ [suspend_at Other]).
Proof.
  intros (Hlen & Hne & Hrole). unfold roles. rewrite length_app. cbn [length].
  split; [lia|]. split; [exact Hne|].
  intros j x Hj. destruct (decide (j < length ts)) as [Hlt|Hge].
  - rewrite lookup_app_l in Hj by exact Hlt. eapply Hrole, Hj.
  - rewrite lookup_app_r in Hj by lia.
    destruct (j - length ts) as [|k] eqn:E; [|destruct k; discriminate].
    cbn in Hj. injection Hj as <-. cbn. lia.
Qed.

Lemma roles_insert_cancel (rx rp sd : nat) (ts : list task) (l : list nat)
    (i : nat) (x x' : task) :
  roles rx rp sd ts -> ts !! i = Some x ->
  same_role (t_code x) (t_code x') ->
  roles rx rp sd (<[i := x']> (cancel_each ts l)).
Proof.
  intros Hroles Hi Hsame.
  assert (Hc : exists y, cancel_each ts l !! i = Some y /\ t_code y = t_code x).
  { rewrite cancel_each_lookup, Hi. cbn.
    destruct (bool_decide (i ∈ l)); eexists; split; try reflexivity.
    apply mark_code. }
  destruct Hc as (y & Hy & Hcode).
  eapply roles_insert; [apply roles_cancel_each, Hroles|exact Hy|].
  rewrite Hcode. exact Hsame.
Qed.

Lemma roles_rx (rx rp sd : nat) (ts : list task) (i : nat) (x : task)
    (pc : rx_pc) :
  roles rx rp sd ts -> ts !! i = Some x -> t_code x = RxLoop pc -> i = rx.
Proof. intros (_ & _ & H) Hi Hc. apply H in Hi. rewrite Hc in Hi. exact Hi. Qed.

Lemma roles_sd (rx rp sd : nat) (ts : list task) (i : nat) (x : task)
    (pc : shutdown_pc) :
  roles rx rp sd ts -> ts !! i = Some x -> t_code x = ShutdownTask pc -> i = sd.
Proof. intros (_ & _ & H) Hi Hc. apply H in Hi. rewrite Hc in Hi. exact Hi. Qed.

Lemma roles_bystander (rx rp sd : nat) (ts : list task) (i : nat) (x : task) :
  roles rx rp sd ts -> ts !! i = Some x ->
  t_code x = Reaper \/ t_code x = Other -> i <> rx /\ i <> sd.
Proof.
  intros (_ & (H1 & H2 & H3) & H) Hi Hc. apply H in Hi.
  destruct Hc as [Hc|Hc]; rewrite Hc in Hi; cbn in Hi.
  - subst i. split; congruence.
  - tauto.
Qed.

(** ** Shutdown: order in a history *)

Lemma precedes_nil (P Q : obs -> bool) : precedes P Q [].
Proof. intros h1 y h2 H. destruct h1; discriminate. Qed.

Lemma precedes_none (P Q : obs -> bool) (h : list obs) :
  existsb Q h = false -> precedes P Q h.
Proof.
  intros Hno h1 y h2 -> Hy. rewrite existsb_app in Hno. cbn in Hno.
  rewrite Hy, orb_true_r in Hno. discriminate.
Qed.

Lemma precedes_app (P Q : obs -> bool) (h o : list obs) :
  precedes P Q h ->
  existsb Q o = false \/ existsb P h = true ->
  precedes P Q (h ++ o).
Proof.
  intros Hh Hcase h1 y h2 Heq Hy.
  apply app_eq_app in Heq as [l [[-> Hl]|[-> Hl]]].
  - destruct l as [|z l].
    + cbn in Hl. subst o. rewrite app_nil_r in Hcase.
      destruct Hcase as [Hno|Hhave]; [|exact Hhave].
      cbn in Hno. rewrite Hy in Hno. discriminate.
    + injection Hl as <- ->. eapply Hh; [reflexivity|exact Hy].
  - destruct Hcase as [Hno|Hhave].
    + rewrite Hl, existsb_app in Hno. cbn in Hno.
      rewrite Hy, orb_true_r in Hno. discriminate.
    + rewrite existsb_app, Hhave. reflexivity.
Qed.

Lemma precedes_prefix (P Q : obs -> bool) (h o : list obs) :
  precedes P Q (h ++ o) -> precedes P Q h.
Proof.
  intros H h1 y h2 -> Hy. eapply H; [|exact Hy].
  rewrite <- app_assoc. reflexivity.
Qed.

Lemma existsb_effects (P : obs -> bool) (i : nat) (tr : list event) :
  (forall e, P (ObsEffect i e) = false) ->
  existsb P (map (ObsEffect i) tr) = false.
Proof.
  intros H. induction tr as [|e tr IH]; [reflexivity|].
  cbn. rewrite H, IH. reflexivity.
Qed.

Lemma existsb_cancels (P : obs -> bool) (l : list nat) :
  existsb P (map ObsCancel l) = existsb (fun t => P (ObsCancel t)) l.
Proof.
  induction l as [|t l IH]; [reflexivity|]. cbn. rewrite IH. reflexivity.
Qed.

Lemma existsb_false_iff {A} (P : A -> bool) (l : list A) :
  existsb P l = false <-> forall x, In x l -> P x = false.
Proof.
  induction l as [|a l IH]; cbn.
  - split; [intros _ x []|reflexivity].
  - rewrite orb_false_iff, IH. split.
    + intros [Ha Hl] x [<-|Hx]; auto.
    + intros H. split; [apply H; left; reflexivity|].
      intros x Hx. apply H. right. exact Hx.
Qed.

(** What the router does reaches neither the broker nor the connection. *)
Lemma handle_quiet (self : MqttGpio) (topic payload : string)
    (tr : list event) (r : result MqttGpio) :
  _handle_mqtt_msg self topic payload = (tr, r) ->
  forall e, In e tr -> is_publish e = false /\ e <> EvDisconnect.
Proof.
  unfold _handle_mqtt_msg.
  destruct (negb (existsb _ control_suffixes)).
  { intros [= <- <-] e [<-|[]]. split; [reflexivity|discriminate]. }
  destruct (output_name_from_topic topic (topic_prefix self)) as [name|e0].
  2:{ destruct e0; intros [= <- <-] e Hin; try destruct Hin as [<-|[]];
        try destruct Hin; split; (reflexivity || discriminate). }
  destruct (digital_output_configs self !! name) as [oc|];
    [|intros [= <- <-] e []].
  destruct (gpio_modules self !! oc_module oc) as [module|];
    [|intros [= <- <-] e []].
  destruct (endswith topic ("/" +:+ SET_TOPIC)).
  - destruct (module_output_queues self !! oc_module oc) as [q|];
      intros [= <- <-] e Hin; [|destruct Hin].
    destruct Hin as [<-|[]]. split; [reflexivity|discriminate].
  - intros [= <- <-] e [].
Qed.

Lemma handle_config (self : MqttGpio) (topic payload : string)
    (tr : list event) (self' : MqttGpio) :
  _handle_mqtt_msg self topic payload = (tr, Ok self') ->
  topic_prefix self' = topic_prefix self
  /\ status_topic self' = status_topic self
  /\ status_payload_stopped self' = status_payload_stopped self.
Proof.
  intros H. apply handle_cases in H
    as [[-> _]|[(q & m & oc & _ & _ & ->)|(co & _ & _ & ->)]]; auto.
Qed.

(** ** Shutdown: the invariants are kept *)

Section ShutdownInvariants.

Variables (s0 : loop_state) (rx rp sd : nat).

Lemma existsb_done_end (t : nat) (h : list obs) :
  existsb (is_done_of t) (h ++ [ObsDone t]) = true.
Proof.
  rewrite existsb_app. cbn. rewrite Nat.eqb_refl, !orb_true_r. reflexivity.
Qed.

Lemma lookup_lt (ts : list task) (i : nat) (x : task) :
  ts !! i = Some x -> i < length ts.
Proof. apply lookup_lt_Some. Qed.

(** A task that is done stays so. *)
Lemma done_mono (s s' : loop_state) (o : list obs) (t : nat) :
  step s o s' ->
  is_done (all_tasks s) t = true -> is_done (all_tasks s') t = true.
Proof.
  intros Hstep Hd.
  assert (Hnot : forall i x, all_tasks s !! i = Some x -> t_done x = false ->
                   i <> t).
  { intros i x Hi Hx ->. unfold is_done in Hd. rewrite Hi in Hd. congruence. }
  destruct Hstep; cbn [all_tasks with_tasks]; try exact Hd;
    try (rewrite is_done_insert by (eapply lookup_lt; eassumption);
         rewrite decide_False by (eapply Hnot; [eassumption|reflexivity]);
         exact Hd);
    try (rewrite is_done_insert by (eapply lookup_lt; eassumption);
         rewrite decide_False by (eapply Hnot; eassumption);
         exact Hd).
  - rewrite is_done_created. exact Hd.
  - subst ts. rewrite is_done_insert
      by (rewrite cancel_each_length; eapply lookup_lt; eassumption).
    rewrite decide_False by (eapply Hnot; eassumption).
    rewrite cancel_each_done. exact Hd.
  - subst ts tasks. rewrite is_done_insert
      by (rewrite cancel_each_length; eapply lookup_lt; eassumption).
    rewrite decide_False by (eapply Hnot; eassumption).
    rewrite cancel_each_done. exact Hd.
Qed.

Lemma existsb_done_effects (t i : nat) (tr : list event) :
  existsb (is_done_of t) (map (ObsEffect i) tr) = false.
Proof. apply existsb_effects. reflexivity. Qed.

Lemma shape_step (h o : list obs) (s s' : loop_state) :
  shape s0 rx rp sd h s -> step s o s' -> shape s0 rx rp sd (h ++ o) s'.
Proof.
  intros (Hmain & Hcfg & Hroles & Hdone) Hstep.
  assert (Hkeep : forall t, t = rx \/ t = rp ->
            is_done (all_tasks s) t = true ->
            existsb (is_done_of t) (h ++ o) = true).
  { intros t Ht Hd. rewrite existsb_app, (Hdone t Ht Hd). reflexivity. }
  assert (Hins : forall i x c t, all_tasks s !! i = Some x ->
            t = rx \/ t = rp ->
            is_done (<[i := suspend_at c]> (all_tasks s)) t = true ->
            existsb (is_done_of t) (h ++ o) = true).
  { intros i x c t Hi Ht. rewrite is_done_insert by (eapply lookup_lt, Hi).
    destruct (decide (i = t)); [discriminate|]. apply Hkeep, Ht. }
  assert (Hend : forall i x c t o', all_tasks s !! i = Some x ->
            o = o' ++ [ObsDone i] -> t = rx \/ t = rp ->
            is_done (<[i := ended c]> (all_tasks s)) t = true ->
            existsb (is_done_of t) (h ++ o) = true).
  { intros i x c t o' Hi -> Ht. rewrite is_done_insert by (eapply lookup_lt, Hi).
    destruct (decide (i = t)) as [->|]; [|apply Hkeep, Ht].
    intros _. rewrite app_assoc. apply existsb_done_end. }
  assert (Hinc : forall i x c l t, all_tasks s !! i = Some x ->
            t = rx \/ t = rp ->
            is_done (<[i := suspend_at c]> (cancel_each (all_tasks s) l)) t
              = true ->
            existsb (is_done_of t) (h ++ o) = true).
  { intros i x c l t Hi Ht. rewrite is_done_insert
      by (rewrite cancel_each_length; eapply lookup_lt, Hi).
    destruct (decide (i = t)); [discriminate|].
    rewrite cancel_each_done. apply Hkeep, Ht. }
  destruct Hstep; unfold shape; cbn [main_tasks srv all_tasks with_tasks].
  - split; [exact Hmain|]. split; [|split; [exact Hroles|exact Hkeep]].
    apply handle_config in H0 as (H1 & H2 & H3).
    destruct Hcfg as (G1 & G2 & G3). unfold same_config.
    rewrite H1, H2, H3. auto.
  - split; [exact Hmain|]. split; [exact Hcfg|]. split.
    + eapply roles_insert; [exact Hroles|eassumption|exact I].
    + intros t. eapply Hins; eassumption.
  - split; [exact Hmain|]. split; [exact Hcfg|]. split.
    + eapply roles_insert; [exact Hroles|eassumption|exact I].
    + intros t. eapply Hins; eassumption.
  - split; [exact Hmain|]. split; [exact Hcfg|]. split.
    + eapply roles_insert; [exact Hroles|eassumption|exact I].
    + intros t. eapply Hins; eassumption.
  - split; [exact Hmain|]. split; [exact Hcfg|]. split.
    + eapply roles_insert; [exact Hroles|eassumption|exact I].
    + intros t. eapply Hend; [eassumption|reflexivity].
  - split; [exact Hmain|]. split; [exact Hcfg|]. split.
    + eapply roles_insert; [exact Hroles|eassumption|exact I].
    + intros t. eapply (Hend _ _ _ _ []); [eassumption|reflexivity].
  - split; [exact Hmain|]. split; [exact Hcfg|]. split;
      [exact Hroles|exact Hkeep].
  - split; [exact Hmain|]. split; [exact Hcfg|]. split.
    + eapply roles_insert; [exact Hroles|eassumption|].
      cbn. destruct (t_code x); exact I.
    + intros t. eapply Hend; [eassumption|reflexivity].
  - split; [exact Hmain|]. split; [exact Hcfg|]. split.
    + apply roles_created, Hroles.
    + intros t Ht. rewrite is_done_created. apply Hkeep, Ht.
  - split; [exact Hmain|]. split; [exact Hcfg|]. subst ts. split.
    + eapply roles_insert_cancel; [exact Hroles|eassumption|].
      rewrite H1. exact I.
    + intros t. eapply Hinc; eassumption.
  - split; [exact Hmain|]. split; [exact Hcfg|]. split.
    + eapply roles_insert; [exact Hroles|eassumption|].
      rewrite H1. exact I.
    + intros t. eapply Hins; eassumption.
  - split; [exact Hmain|]. split; [exact Hcfg|]. subst ts tasks. split.
    + eapply roles_insert_cancel; [exact Hroles|eassumption|].
      rewrite H1. exact I.
    + intros t. eapply Hinc; eassumption.
  - split; [exact Hmain|]. split; [exact Hcfg|]. split.
    + eapply roles_insert; [exact Hroles|eassumption|].
      rewrite H1. exact I.
    + intros t. eapply Hins; eassumption.
  - split; [exact Hmain|]. split; [exact Hcfg|]. split.
    + eapply roles_insert; [exact Hroles|eassumption|].
      rewrite H1. exact I.
    + intros t. eapply (Hend _ _ _ _ [_; _; _]); [eassumption|reflexivity].
Qed.

(** A task that got done in a step left its end in the step's
    observations. *)
Lemma done_recorded (s s' : loop_state) (o : list obs) (t : nat) :
  step s o s' ->
  is_done (all_tasks s') t = true ->
  is_done (all_tasks s) t = true \/ existsb (is_done_of t) o = true.
Proof.
  intros Hstep.
  assert (Hins : forall ts i x c, ts !! i = Some x ->
            is_done (<[i := suspend_at c]> ts) t = true ->
            is_done ts t = true).
  { intros ts i x c Hi. rewrite is_done_insert by (eapply lookup_lt, Hi).
    destruct (decide (i = t)); [discriminate|auto]. }
  assert (Hend : forall i x c o', all_tasks s !! i = Some x ->
            is_done (<[i := ended c]> (all_tasks s)) t = true ->
            is_done (all_tasks s) t = true
            \/ existsb (is_done_of t) (o' ++ [ObsDone i]) = true).
  { intros i x c o' Hi. rewrite is_done_insert by (eapply lookup_lt, Hi).
    destruct (decide (i = t)) as [->|]; [|auto].
    intros _. right. apply existsb_done_end. }
  assert (Hcan : forall i x l, all_tasks s !! i = Some x ->
            exists y, cancel_each (all_tasks s) l !! i = Some y).
  { intros i x l Hi. rewrite cancel_each_lookup, Hi. cbn. eauto. }
  destruct Hstep; cbn [all_tasks with_tasks]; auto;
    try (intros Hd; left; eapply Hins; eassumption);
    try (eapply Hend; eassumption).
  - apply (Hend _ _ _ [] H).
  - rewrite is_done_created. auto.
  - subst ts. destruct (Hcan i x (main_tasks s) H) as [y Hy].
    intros Hd. left. apply (Hins _ _ _ _ Hy) in Hd.
    rewrite cancel_each_done in Hd. exact Hd.
  - subst ts tasks.
    destruct (Hcan i x (remaining (all_tasks s) i) H) as [y Hy].
    intros Hd. left. apply (Hins _ _ _ _ Hy) in Hd.
    rewrite cancel_each_done in Hd. exact Hd.
  - apply (Hend _ _ _ [_; _; _] H).
Qed.

Lemma no_cancel_of (o : list obs) (t : nat) :
  existsb is_cancel o = false -> existsb (is_cancel_of t) o = false.
Proof.
  rewrite !existsb_false_iff. intros H x Hx. specialize (H x Hx).
  destruct x; try reflexivity. discriminate.
Qed.

Lemma no_cancel_outside (o : list obs) (m : list nat) :
  existsb is_cancel o = false -> existsb (is_cancel_outside m) o = false.
Proof.
  rewrite !existsb_false_iff. intros H x Hx. specialize (H x Hx).
  destruct x; try reflexivity. discriminate.
Qed.

(** A step of a task other than [shutdown] leaves the phase as it is. *)
Lemma phase_frame (h o : list obs) (s s' : loop_state) :
  phase rx rp sd h s ->
  all_tasks s' !! sd = all_tasks s !! sd ->
  existsb is_cancel o = false -> existsb is_stop o = false ->
  (forall t, is_done (all_tasks s) t = true ->
     is_done (all_tasks s') t = true) ->
  (forall t, is_done (all_tasks s') t = true ->
     is_done (all_tasks s) t = true \/ existsb (is_done_of t) o = true) ->
  phase rx rp sd (h ++ o) s'.
Proof.
  intros Hph Hsd Hnc Hns Hmono Hrec. unfold phase in *. rewrite Hsd.
  destruct (all_tasks s !! sd) as [x|]; [|exact Hph].
  destruct (t_code x) as [| |[sig|b|tasks b]|]; try exact Hph.
  - destruct Hph as (H1 & H2 & H3).
    rewrite !existsb_app, H2, H3, Hnc, Hns. auto.
  - destruct Hph as (H1 & H2 & H3 & H4 & H5 & H6).
    rewrite !existsb_app, H2, H3, H4, H5, Hns, (no_cancel_outside _ _ Hnc).
    repeat split; try reflexivity; try assumption; apply Hmono, H6; assumption.
  - destruct Hph as (H1 & H2 & H3 & H4 & H5 & H6 & H7).
    split; [apply Hmono, H1|]. split; [apply Hmono, H2|].
    rewrite !existsb_app, H3, H4. split; [reflexivity|]. split; [reflexivity|].
    split; [|split].
    + intros t. rewrite existsb_app, (no_cancel_of _ _ Hnc), orb_false_r.
      apply H5.
    + intros t Hin. destruct (H6 t Hin) as [Hne Hd]. split; [exact Hne|].
      intros Hd'. rewrite existsb_app.
      destruct (Hrec t Hd') as [Hold| ->]; [|apply orb_true_r].
      rewrite (Hd Hold). reflexivity.
    + intros Hx. destruct (H7 Hx) as [Hs Hall]. rewrite Hs, Hns.
      split; [reflexivity|]. intros Hb t Hin. apply Hmono, Hall; assumption.
Qed.

Lemma cancelled_inside (h : list obs) (t : nat) (m : list nat) :
  existsb (is_cancel_outside m) h = false ->
  existsb (is_cancel_of t) h = true -> In t m.
Proof.
  intros Hout Hin. apply existsb_exists in Hin as (x & Hx & Ht).
  rewrite existsb_false_iff in Hout. specialize (Hout x Hx).
  destruct x as [t'| | |]; try discriminate. cbn in Ht, Hout.
  apply Nat.eqb_eq in Ht as ->. apply negb_false_iff in Hout.
  apply existsb_exists in Hout as (y & Hy & Heq).
  apply Nat.eqb_eq in Heq as ->. exact Hy.
Qed.

Lemma remaining_elem (ts : list task) (current t : nat) :
  In t (remaining ts current) ->
  t <> current /\ is_done ts t = false /\ t < length ts.
Proof.
  unfold remaining. rewrite List.filter_In, in_seq, andb_true_iff.
  rewrite !negb_true_iff, Nat.eqb_neq. intros [Hlt [Hd Hne]].
  repeat split; [exact Hne|exact Hd|lia].
Qed.

Lemma phase_step (h o : list obs) (s s' : loop_state) :
  shape s0 rx rp sd h s -> phase rx rp sd h s -> step s o s' ->
  phase rx rp sd (h ++ o) s'.
Proof.
  intros (Hmain & Hcfg & Hroles & Hdone) Hph Hstep.
  pose proof (fun t => done_mono _ _ _ t Hstep) as Hmono.
  pose proof (fun t => done_recorded _ _ _ t Hstep) as Hrec.
  pose proof Hroles as ((Lrx & Lrp & Lsd) & (Nrp & Nsd & Npd) & Hrole).
  assert (Hrxne : forall i x pc, all_tasks s !! i = Some x ->
            t_code x = RxLoop pc -> i <> sd).
  { intros i x pc Hi Hc. rewrite (roles_rx _ _ _ _ _ _ _ Hroles Hi Hc).
    exact Nsd. }
  assert (Hbyne : forall i x, all_tasks s !! i = Some x ->
            t_code x = Reaper \/ t_code x = Other -> i <> sd).
  { intros i x Hi Hc. eapply roles_bystander; eassumption. }
  destruct Hstep;
    try (eapply phase_frame; [exact Hph| | | |exact Hmono|exact Hrec];
         [cbn [all_tasks with_tasks];
          first [ reflexivity
                | apply list_lookup_insert_ne; eapply Hrxne;
                  [eassumption|reflexivity]
                | apply list_lookup_insert_ne; eapply Hbyne; eassumption
                | apply lookup_app_l; exact Lsd ]
         | rewrite ?existsb_app, ?existsb_effects by reflexivity; reflexivity
         | rewrite ?existsb_app, ?existsb_effects by reflexivity; reflexivity]).
  all: assert (i = sd) as -> by (eapply roles_sd; eassumption).
  all: unfold phase in Hph; rewrite H, H1 in Hph.
  all: unfold phase; cbn [all_tasks with_tasks].
  - (* sd_start *)
    destruct Hph as (_ & Hnc & Hns). subst ts.
    rewrite list_lookup_insert_eq by (rewrite cancel_each_length; exact Lsd).
    cbn [t_code t_done suspend_at]. rewrite Hmain.
    rewrite !is_done_insert by (rewrite cancel_each_length; exact Lsd).
    rewrite !decide_False by congruence.
    rewrite !existsb_app, Hns, (no_cancel_of _ _ Hnc),
      (no_cancel_outside _ _ Hnc).
    cbn. rewrite !Nat.eqb_refl. cbn. rewrite !orb_true_r. cbn.
    repeat split; try reflexivity.
    + apply andb_true_iff in H2 as [H2 _]. exact H2.
    + apply andb_true_iff in H2 as [_ H2].
      apply andb_true_iff in H2 as [H2 _]. exact H2.
  - (* sd_wait_main *)
    destruct Hph as (_ & Hcr & Hcp & Hout & Hns & _).
    rewrite list_lookup_insert_eq by exact Lsd.
    cbn [t_code t_done suspend_at]. rewrite Hmain.
    rewrite !is_done_insert by exact Lsd.
    rewrite !decide_False by congruence.
    rewrite !existsb_app, Hcr, Hcp, Hout, Hns. cbn.
    repeat split; try reflexivity.
    + apply andb_true_iff in H2 as [H2 _]. exact H2.
    + apply andb_true_iff in H2 as [_ H2].
      apply andb_true_iff in H2 as [H2 _]. exact H2.
  - (* sd_cancel_rest *)
    destruct Hph as (_ & Hcr & Hcp & Hout & Hns & Hb).
    destruct (Hb eq_refl) as [Hdr Hdp]. subst ts tasks.
    rewrite list_lookup_insert_eq by (rewrite cancel_each_length; exact Lsd).
    cbn [t_code t_done suspend_at].
    assert (Hsame : forall t, t <> sd ->
              is_done (<[sd := suspend_at (ShutdownTask
                         (SdWaitRest (remaining (all_tasks s) sd)
                            (forallb (is_done (cancel_each (all_tasks s)
                               (remaining (all_tasks s) sd)))
                               (remaining (all_tasks s) sd))))]>
                         (cancel_each (all_tasks s)
                            (remaining (all_tasks s) sd))) t
              = is_done (all_tasks s) t).
    { intros t Ht. rewrite is_done_insert
        by (rewrite cancel_each_length; exact Lsd).
      rewrite decide_False by congruence. apply cancel_each_done. }
    rewrite !Hsame by congruence.
    rewrite !existsb_app, Hcr, Hcp.
    split; [exact Hdr|]. split; [exact Hdp|].
    split; [reflexivity|]. split; [reflexivity|]. split; [|split].
    + intros t Ht. rewrite existsb_app in Ht.
      apply orb_true_iff in Ht as [Ht|Ht].
      * pose proof (cancelled_inside _ _ _ Hout Ht) as [<-|[<-|[]]]; auto.
      * cbn in Ht. rewrite existsb_app, existsb_cancels in Ht.
        cbn in Ht. rewrite !orb_false_r in Ht.
        apply existsb_exists in Ht as (y & Hy & Heq).
        apply Nat.eqb_eq in Heq as ->. auto.
    + intros t Hin. apply remaining_elem in Hin as (Hne & Hd & _).
      split; [exact Hne|]. rewrite Hsame by exact Hne. congruence.
    + intros _. rewrite Hns.
      assert (E : existsb is_stop
                    (map ObsCancel (remaining (all_tasks s) sd)) = false).
      { rewrite existsb_cancels. apply existsb_false_iff. reflexivity. }
      cbn [existsb is_stop orb]. rewrite existsb_app, E.
      split; [reflexivity|].
      intros Hb' t Hin. rewrite Hsame
        by (apply remaining_elem in Hin; tauto).
      rewrite forallb_forall in Hb'. rewrite <- (cancel_each_done _
        (remaining (all_tasks s) sd)). apply Hb', Hin.
  - (* sd_wait_rest *)
    destruct Hph as (Hdr & Hdp & Hcr & Hcp & Hc & Ht & Hg).
    rewrite list_lookup_insert_eq by exact Lsd.
    cbn [t_code t_done suspend_at].
    assert (Hsame : forall t b, t <> sd ->
              is_done (<[sd := suspend_at (ShutdownTask (SdWaitRest tasks b))]>
                         (all_tasks s)) t
              = is_done (all_tasks s) t).
    { intros t b Ht'. rewrite is_done_insert by exact Lsd.
      rewrite decide_False by congruence. reflexivity. }
    rewrite !Hsame by congruence.
    rewrite !existsb_app, Hcr, Hcp.
    split; [exact Hdr|]. split; [exact Hdp|].
    split; [reflexivity|]. split; [reflexivity|]. split; [|split].
    + intros t. rewrite existsb_app. cbn. rewrite !orb_false_r. apply Hc.
    + intros t Hin. destruct (Ht t Hin) as [Hne Hd]. split; [exact Hne|].
      rewrite Hsame by exact Hne. rewrite existsb_app. cbn.
      rewrite !orb_false_r. exact Hd.
    + intros _. destruct (Hg H0) as [Hns _]. rewrite Hns. cbn.
      split; [reflexivity|]. intros Hb t Hin.
      rewrite Hsame by (apply Ht, Hin).
      rewrite forallb_forall in Hb. apply Hb, Hin.
  - (* sd_stop *)
    destruct Hph as (Hdr & Hdp & Hcr & Hcp & Hc & Ht & Hg).
    rewrite list_lookup_insert_eq by exact Lsd.
    cbn [t_code t_done ended].
    assert (Hsame : forall t, t <> sd ->
              is_done (<[sd := ended (ShutdownTask (SdWaitRest tasks true))]>
                         (all_tasks s)) t
              = is_done (all_tasks s) t).
    { intros t Ht'. rewrite is_done_insert by exact Lsd.
      rewrite decide_False by congruence. reflexivity. }
    rewrite !Hsame by congruence.
    rewrite !existsb_app, Hcr, Hcp.
    split; [exact Hdr|]. split; [exact Hdp|].
    split; [reflexivity|]. split; [reflexivity|]. split; [|split].
    + intros t. rewrite existsb_app. cbn. rewrite !orb_false_r. apply Hc.
    + intros t Hin. destruct (Ht t Hin) as [Hne Hd]. split; [exact Hne|].
      rewrite Hsame by exact Hne. intros Hd'.
      rewrite existsb_app, (Hd Hd'). reflexivity.
    + discriminate.
Qed.

Lemma stopped_status_published (s : loop_state) (pre : list event) :
  same_config (srv s) (srv s0) ->
  existsb (is_stopped_status_by (srv s0) rx)
    (map (ObsEffect rx) (pre ++ fin_publish (srv s))) = true.
Proof.
  intros (H1 & H2 & H3). rewrite map_app, existsb_app. cbn.
  rewrite H1, H2, H3, Nat.eqb_refl, !String.eqb_refl. cbn.
  apply orb_true_r.
Qed.

Lemma insert_other (ts : list task) (i j : nat) (x' y : task) :
  i <> j -> <[i := x']> ts !! j = Some y -> ts !! j = Some y.
Proof. intros Hne. rewrite list_lookup_insert_ne by exact Hne. auto. Qed.

Lemma finalizing_step (h o : list obs) (s s' : loop_state) :
  shape s0 rx rp sd h s -> finalizing s0 rx h s -> step s o s' ->
  finalizing s0 rx (h ++ o) s'.
Proof.
  intros (Hmain & Hcfg & Hroles & Hdone) Hfin Hstep.
  pose proof Hroles as ((Lrx & Lrp & Lsd) & (Nrp & Nsd & Npd) & Hrole).
  assert (Hold : forall x pc, all_tasks s !! rx = Some x ->
            t_code x = RxLoop pc -> pc <> RxDeliver ->
            existsb (is_stopped_status_by (srv s0) rx) (h ++ o) = true).
  { intros x pc Hx Hc Hpc. rewrite existsb_app, (Hfin x pc Hx Hc Hpc).
    reflexivity. }
  assert (Hnew : forall pre, o = map (ObsEffect rx) (pre ++ fin_publish (srv s)) ->
            existsb (is_stopped_status_by (srv s0) rx) (h ++ o) = true).
  { intros pre ->. rewrite existsb_app, stopped_status_published by exact Hcfg.
    apply orb_true_r. }
  assert (Hby : forall i x, all_tasks s !! i = Some x ->
            t_code x = Reaper \/ t_code x = Other -> i <> rx).
  { intros i x Hi Hc. exact (proj1 (roles_bystander _ _ _ _ _ _ Hroles Hi Hc)). }
  assert (Hsd : forall i x pc, all_tasks s !! i = Some x ->
            t_code x = ShutdownTask pc -> i <> rx).
  { intros i x pc Hi Hc. rewrite (roles_sd _ _ _ _ _ _ _ Hroles Hi Hc).
    congruence. }
  unfold finalizing.
  destruct Hstep; cbn [all_tasks with_tasks]; intros y pc' Hy Hc Hpc.
  - eapply Hold; eassumption.
  - assert (i = rx) as -> by exact (roles_rx _ _ _ _ _ _ _ Hroles H eq_refl).
    apply (Hnew (received topic payload :: tr)). reflexivity.
  - assert (i = rx) as -> by exact (roles_rx _ _ _ _ _ _ _ Hroles H eq_refl).
    apply (Hnew []). reflexivity.
  - assert (i = rx) as -> by exact (roles_rx _ _ _ _ _ _ _ Hroles H eq_refl).
    eapply Hold; [exact H|reflexivity|discriminate].
  - assert (i = rx) as -> by exact (roles_rx _ _ _ _ _ _ _ Hroles H eq_refl).
    eapply Hold; [exact H|reflexivity|discriminate].
  - assert (i = rx) as -> by exact (roles_rx _ _ _ _ _ _ _ Hroles H eq_refl).
    eapply Hold; [exact H|reflexivity|exact H0].
  - eapply Hold; eassumption.
  - apply insert_other in Hy; [|eapply Hby; eassumption].
    eapply Hold; eassumption.
  - rewrite lookup_app_l in Hy by exact Lrx. eapply Hold; eassumption.
  - subst ts. apply insert_other in Hy; [|eapply Hsd; eassumption].
    apply cancel_each_code in Hy as (x0 & Hx0 & Hc0 & _).
    rewrite Hc0 in Hc. eapply Hold; eassumption.
  - apply insert_other in Hy; [|eapply Hsd; eassumption].
    eapply Hold; eassumption.
  - subst ts tasks. apply insert_other in Hy; [|eapply Hsd; eassumption].
    apply cancel_each_code in Hy as (x0 & Hx0 & Hc0 & _).
    rewrite Hc0 in Hc. eapply Hold; eassumption.
  - apply insert_other in Hy; [|eapply Hsd; eassumption].
    eapply Hold; eassumption.
  - apply insert_other in Hy; [|eapply Hsd; eassumption].
    eapply Hold; eassumption.
Qed.

Lemma no_disconnect_by_other (i : nat) (tr : list event) :
  i <> rx -> existsb (is_disconnect_by rx) (map (ObsEffect i) tr) = false.
Proof.
  intros Hne. apply existsb_effects. intros e.
  destruct e; cbn; try reflexivity. apply Nat.eqb_neq, Hne.
Qed.

Lemma no_disconnect_quiet (i : nat) (tr : list event) :
  (forall e, In e tr -> e <> EvDisconnect) ->
  existsb (is_disconnect_by rx) (map (ObsEffect i) tr) = false.
Proof.
  intros H. induction tr as [|e tr IH]; [reflexivity|].
  cbn [map existsb]. rewrite IH by (intros e' He'; apply H; right; exact He').
  destruct e; try reflexivity. exfalso. apply (H EvDisconnect); [left|];
    reflexivity.
Qed.

(** A step either cancels no task outside [self.tasks], or comes when the
    primary tasks have been cancelled and have ended. *)
Lemma step_outside (h o : list obs) (s s' : loop_state) :
  shape s0 rx rp sd h s -> phase rx rp sd h s -> step s o s' ->
  existsb (is_cancel_outside [rx; rp]) o = false
  \/ (existsb (is_cancel_of rx) h = true
      /\ existsb (is_cancel_of rp) h = true
      /\ existsb (is_done_of rx) h = true
      /\ existsb (is_done_of rp) h = true
      /\ is_done (all_tasks s) rx = true).
Proof.
  intros (Hmain & Hcfg & Hroles & Hdone) Hph Hstep.
  destruct Hstep;
    try (left; apply no_cancel_outside;
         rewrite ?existsb_app, ?existsb_effects by reflexivity; reflexivity).
  - left. rewrite Hmain. cbn. rewrite !Nat.eqb_refl. cbn.
    rewrite !orb_true_r. reflexivity.
  - right. assert (i = sd) as -> by (eapply roles_sd; eassumption).
    unfold phase in Hph. rewrite H, H1 in Hph.
    destruct Hph as (_ & Hcr & Hcp & _ & _ & Hb).
    destruct (Hb eq_refl) as [Hdr Hdp].
    repeat split; auto.
Qed.

(** A step either does not disconnect, or comes when the "stopped" status
    has been published. *)
Lemma step_disconnect (h o : list obs) (s s' : loop_state) :
  shape s0 rx rp sd h s -> finalizing s0 rx h s -> step s o s' ->
  existsb (is_disconnect_by rx) o = false
  \/ existsb (is_stopped_status_by (srv s0) rx) h = true.
Proof.
  intros (Hmain & Hcfg & Hroles & Hdone) Hfin Hstep.
  pose proof Hroles as (_ & (Nrp & Nsd & Npd) & _).
  destruct Hstep.
  - left. apply no_disconnect_quiet. intros ev [<-|Hin]; [discriminate|].
    eapply handle_quiet; eassumption.
  - left. apply no_disconnect_quiet. intros ev [<-|Hin]; [discriminate|].
    apply in_app_or in Hin as [Hin|[<-|[]]]; [|discriminate].
    eapply handle_quiet; eassumption.
  - left. reflexivity.
  - right. assert (i = rx) as -> by exact (roles_rx _ _ _ _ _ _ _ Hroles H eq_refl).
    eapply Hfin; [exact H|reflexivity|discriminate].
  - left. reflexivity.
  - left. reflexivity.
  - left. apply no_disconnect_by_other.
    exact (proj1 (roles_bystander _ _ _ _ _ _ Hroles H H1)).
  - left. rewrite existsb_app, no_disconnect_by_other; [reflexivity|].
    exact (proj1 (roles_bystander _ _ _ _ _ _ Hroles H H1)).
  - left. reflexivity.
  - left. cbn. rewrite existsb_app. cbn. rewrite existsb_cancels.
    rewrite orb_false_r. apply existsb_false_iff. reflexivity.
  - left. reflexivity.
  - left. cbn. rewrite existsb_app. cbn. rewrite existsb_cancels.
    rewrite orb_false_r. apply existsb_false_iff. reflexivity.
  - left. reflexivity.
  - left. reflexivity.
Qed.

(** A step that stops the loop comes when every cancelled task has
    ended; before it the loop was not stopped, and no other step cancels
    or stops anything. *)
Lemma step_stop (h o : list obs) (s s' : loop_state) :
  shape s0 rx rp sd h s -> phase rx rp sd h s -> step s o s' ->
  existsb is_stop (h ++ o) = false
  \/ (existsb is_stop o = false /\ existsb is_cancel o = false)
  \/ (existsb is_cancel o = false
      /\ forall t, existsb (is_cancel_of t) h = true ->
           existsb (is_done_of t) h = true).
Proof.
  intros (Hmain & Hcfg & Hroles & Hdone) Hph Hstep.
  destruct Hstep;
    try (right; left;
         rewrite ?existsb_app, ?existsb_effects by reflexivity;
         split; reflexivity).
  all: assert (i = sd) as -> by (eapply roles_sd; eassumption).
  all: unfold phase in Hph; rewrite H, H1 in Hph.
  - left. destruct Hph as (_ & _ & Hns). rewrite existsb_app, Hns. cbn.
    rewrite existsb_app, existsb_cancels. cbn.
    rewrite orb_false_r. apply existsb_false_iff. reflexivity.
  - left. destruct Hph as (_ & _ & _ & _ & Hns & _).
    rewrite existsb_app, Hns. cbn.
    rewrite existsb_app, existsb_cancels. cbn.
    rewrite orb_false_r. apply existsb_false_iff. reflexivity.
  - right. right. split; [reflexivity|].
    destruct Hph as (Hdr & Hdp & _ & _ & Hc & Ht & Hg).
    destruct (Hg H0) as [_ Hall]. intros t Hcan.
    destruct (Hc t Hcan) as [->|[->|Hin]].
    + apply Hdone; auto.
    + apply Hdone; auto.
    + apply Ht; [exact Hin|]. apply Hall; [reflexivity|exact Hin].
Qed.

Lemma ordered_step (h o : list obs) (s s' : loop_state) :
  shape s0 rx rp sd h s -> phase rx rp sd h s -> finalizing s0 rx h s ->
  ordered s0 rx rp h -> step s o s' -> ordered s0 rx rp (h ++ o).
Proof.
  intros Hsh Hph Hfin (A1 & A2 & A3 & A4 & B & D) Hstep.
  pose proof (step_outside _ _ _ _ Hsh Hph Hstep) as Hout.
  pose proof (step_disconnect _ _ _ _ Hsh Hfin Hstep) as Hdisc.
  pose proof (step_stop _ _ _ _ Hsh Hph Hstep) as Hstop.
  unfold ordered.
  split; [apply precedes_app; [exact A1|tauto]|].
  split; [apply precedes_app; [exact A2|tauto]|].
  split; [apply precedes_app; [exact A3|tauto]|].
  split; [apply precedes_app; [exact A4|tauto]|].
  split; [apply precedes_app; [exact B|exact Hdisc]|].
  intros t Hcan. destruct Hstop as [Hns|[[Hns Hnc]|[Hnc Hall]]].
  - apply precedes_none, Hns.
  - rewrite existsb_app, (no_cancel_of _ _ Hnc), orb_false_r in Hcan.
    apply precedes_app; [apply D, Hcan|left; exact Hns].
  - rewrite existsb_app, (no_cancel_of _ _ Hnc), orb_false_r in Hcan.
    apply precedes_app; [apply D, Hcan|right; apply Hall, Hcan].
Qed.

Lemma undisturbed_frame (h o : list obs) (s s' : loop_state) :
  undisturbed rx h s ->
  all_tasks s' !! rx = all_tasks s !! rx ->
  existsb is_cancel o = false ->
  undisturbed rx (h ++ o) s'.
Proof.
  unfold undisturbed. intros Hu -> Hnc.
  destruct (all_tasks s !! rx) as [x|]; [|exact Hu].
  destruct (t_code x) as [[| |]| | |], (t_done x), (t_must_cancel x);
    try exact Hu; rewrite !existsb_app.
  - rewrite Hu. reflexivity.
  - rewrite Hu, Hnc. reflexivity.
  - rewrite Hu. reflexivity.
  - destruct Hu as [-> ->]. split; reflexivity.
  - destruct Hu as [-> ->]. split; reflexivity.
Qed.

Lemma undisturbed_done (h : list obs) (s : loop_state) :
  undisturbed rx h s -> is_done (all_tasks s) rx = true ->
  existsb (is_disconnect_by rx) h = true
  /\ forall x, all_tasks s !! rx = Some x -> mark x = x.
Proof.
  unfold undisturbed, is_done. intros Hu Hd.
  destruct (all_tasks s !! rx) as [x|]; [|discriminate].
  split.
  - rewrite Hd in Hu.
    destruct (t_code x) as [[| |]| | |], (t_must_cancel x); tauto.
  - intros y [= <-]. unfold mark. rewrite Hd. reflexivity.
Qed.

Lemma undisturbed_step (h o : list obs) (s s' : loop_state) :
  shape s0 rx rp sd h s -> phase rx rp sd h s -> undisturbed rx h s ->
  precedes (is_cancel_of rx) (is_effect_by rx) (h ++ o) ->
  step s o s' -> undisturbed rx (h ++ o) s'.
Proof.
  intros (Hmain & Hcfg & Hroles & Hdone) Hph Hu Hc Hstep.
  pose proof Hroles as ((Lrx & Lrp & Lsd) & (Nrp & Nsd & Npd) & _).
  assert (Hfirst : forall e rest, o = ObsEffect rx e :: rest ->
            existsb (is_cancel_of rx) h = true).
  { intros e rest ->. eapply Hc; [reflexivity|]. cbn. apply Nat.eqb_refl. }
  assert (Hby : forall i x, all_tasks s !! i = Some x ->
            t_code x = Reaper \/ t_code x = Other -> i <> rx).
  { intros i x Hi Hcode.
    exact (proj1 (roles_bystander _ _ _ _ _ _ Hroles Hi Hcode)). }
  destruct Hstep.
  - assert (i = rx) as -> by exact (roles_rx _ _ _ _ _ _ _ Hroles H eq_refl).
    exfalso. unfold undisturbed in Hu. rewrite H in Hu. cbn in Hu.
    rewrite (no_cancel_of _ rx Hu) in Hfirst.
    discriminate (Hfirst _ _ eq_refl).
  - assert (i = rx) as -> by exact (roles_rx _ _ _ _ _ _ _ Hroles H eq_refl).
    exfalso. unfold undisturbed in Hu. rewrite H in Hu. cbn in Hu.
    rewrite (no_cancel_of _ rx Hu) in Hfirst.
    discriminate (Hfirst _ _ eq_refl).
  - assert (i = rx) as -> by exact (roles_rx _ _ _ _ _ _ _ Hroles H eq_refl).
    unfold undisturbed in *. rewrite H in Hu. cbn in Hu.
    cbn [all_tasks with_tasks].
    rewrite list_lookup_insert_eq by exact Lrx. cbn.
    rewrite existsb_app, Hu. reflexivity.
  - assert (i = rx) as -> by exact (roles_rx _ _ _ _ _ _ _ Hroles H eq_refl).
    unfold undisturbed in *. rewrite H in Hu. cbn in Hu.
    cbn [all_tasks with_tasks].
    rewrite list_lookup_insert_eq by exact Lrx. cbn.
    rewrite !existsb_app, Hu. cbn. rewrite Nat.eqb_refl, !orb_true_r.
    split; reflexivity.
  - assert (i = rx) as -> by exact (roles_rx _ _ _ _ _ _ _ Hroles H eq_refl).
    unfold undisturbed in *. rewrite H in Hu. cbn in Hu.
    cbn [all_tasks with_tasks].
    rewrite list_lookup_insert_eq by exact Lrx. cbn.
    destruct Hu as [Hu1 Hu2]. rewrite !existsb_app, Hu1, Hu2.
    split; reflexivity.
  - assert (i = rx) as -> by exact (roles_rx _ _ _ _ _ _ _ Hroles H eq_refl).
    exfalso. unfold undisturbed in Hu. rewrite H in Hu. cbn in Hu.
    destruct pc; [congruence|exact Hu|exact Hu].
  - eapply undisturbed_frame; [exact Hu|reflexivity|].
    apply existsb_effects. reflexivity.
  - eapply undisturbed_frame; [exact Hu| |].
    + cbn [all_tasks with_tasks]. apply list_lookup_insert_ne.
      eapply Hby; eassumption.
    + rewrite existsb_app, existsb_effects by reflexivity. reflexivity.
  - eapply undisturbed_frame; [exact Hu| |reflexivity].
    cbn [all_tasks with_tasks]. apply lookup_app_l. exact Lrx.
  - (* sd_start *)
    assert (i = sd) as -> by (eapply roles_sd; eassumption).
    unfold phase in Hph. rewrite H, H1 in Hph.
    destruct Hph as (_ & Hnc & _).
    unfold undisturbed in *. cbn [all_tasks with_tasks]. subst ts.
    rewrite list_lookup_insert_ne by congruence.
    rewrite cancel_each_lookup, Hmain.
    rewrite bool_decide_eq_true_2 by left.
    destruct (all_tasks s !! rx) as [y|]; [|exact Hu]. cbn [fmap option_fmap option_map].
    rewrite (no_cancel_of _ rx Hnc) in Hu.
    assert (Hy : t_code y = RxLoop RxDeliver /\ t_done y = false
                 /\ t_must_cancel y = false).
    { destruct (t_code y) as [[| |]| | |], (t_done y), (t_must_cancel y);
        try discriminate Hu; try contradiction; try tauto.
      all: destruct Hu; discriminate. }
    destruct Hy as (Hy1 & Hy2 & Hy3). unfold mark. rewrite Hy2. cbn.
    rewrite Hy1, existsb_app. cbn. rewrite Nat.eqb_refl. cbn.
    apply orb_true_r.
  - assert (i = sd) as -> by (eapply roles_sd; eassumption).
    eapply undisturbed_frame; [exact Hu| |reflexivity].
    cbn [all_tasks with_tasks]. apply list_lookup_insert_ne. congruence.
  - (* sd_cancel_rest *)
    assert (i = sd) as -> by (eapply roles_sd; eassumption).
    unfold phase in Hph. rewrite H, H1 in Hph.
    destruct Hph as (_ & _ & _ & _ & _ & Hb).
    destruct (Hb eq_refl) as [Hdr _].
    destruct (undisturbed_done _ _ Hu Hdr) as [Hdisc Hmark].
    unfold undisturbed in *. cbn [all_tasks with_tasks]. subst ts tasks.
    rewrite list_lookup_insert_ne by congruence.
    rewrite cancel_each_lookup.
    destruct (all_tasks s !! rx) as [y|] eqn:Ey; [|exact Hu].
    cbn [fmap option_fmap option_map].
    assert (E : (if bool_decide (rx ∈ remaining (all_tasks s) sd)
                 then mark y else y) = y).
    { destruct (bool_decide _); [apply Hmark; reflexivity|reflexivity]. }
    rewrite E. unfold is_done in Hdr. rewrite Ey in Hdr. rewrite Hdr in *.
    destruct (t_code y) as [[| |]| | |], (t_must_cancel y); try exact Hu.
    destruct Hu as [Hu1 Hu2]. rewrite !existsb_app, Hu1, Hu2.
    split; reflexivity.
  - assert (i = sd) as -> by (eapply roles_sd; eassumption).
    eapply undisturbed_frame; [exact Hu| |reflexivity].
    cbn [all_tasks with_tasks]. apply list_lookup_insert_ne. congruence.
  - assert (i = sd) as -> by (eapply roles_sd; eassumption).
    eapply undisturbed_frame; [exact Hu| |reflexivity].
    cbn [all_tasks with_tasks]. apply list_lookup_insert_ne. congruence.
Qed.

End ShutdownInvariants.

(** ** Shutdown: a receive loop that is not cut short, and the second round *)







Section ShutdownRounds.

Variables (s0 : loop_state) (rx rp sd : nat).





End ShutdownRounds.

(** ** Shutdown: the order of events *)

Lemma signalled_invariants (s0 : loop_state) (rx rp sd : nat) (sig : string) :
  signalled s0 rx rp sd sig ->
  shape s0 rx rp sd [] s0 /\ phase rx rp sd [] s0 /\ finalizing s0 rx [] s0
  /\ ordered s0 rx rp [] /\ undisturbed rx [] s0.
Proof.
  intros (Hrx & Hrp & Hsd & Hmain & Hother).
  assert (Nrp : rx <> rp) by (intros ->; rewrite Hrx in Hrp; discriminate).
  assert (Nsd : rx <> sd) by (intros ->; rewrite Hrx in Hsd; discriminate).
  assert (Npd : rp <> sd) by (intros ->; rewrite Hrp in Hsd; discriminate).
  split; [|split; [|split; [|split]]].
  - split; [exact Hmain|]. split; [repeat split|]. split.
    + split; [|split; [auto|]].
      * repeat split; eapply lookup_lt_Some; eassumption.
      * intros j x Hj.
        destruct (decide (j = rx)) as [->|N1];
          [rewrite Hrx in Hj; injection Hj as <-; reflexivity|].
        destruct (decide (j = rp)) as [->|N2];
          [rewrite Hrp in Hj; injection Hj as <-; reflexivity|].
        destruct (decide (j = sd)) as [->|N3];
          [rewrite Hsd in Hj; injection Hj as <-; reflexivity|].
        rewrite (Hother j x Hj N1 N2 N3). cbn. auto.
    + intros t [-> | ->]; unfold is_done; rewrite ?Hrx, ?Hrp; discriminate.
  - unfold phase. rewrite Hsd. cbn. auto.
  - intros x pc Hx Hc Hpc. rewrite Hrx in Hx. injection Hx as <-.
    cbn in Hc. congruence.
  - repeat split; try apply precedes_nil. discriminate.
  - unfold undisturbed. rewrite Hrx. reflexivity.
Qed.

Lemma run_invariants (s0 s : loop_state) (rx rp sd : nat) (sig : string)
    (h : list obs) :
  signalled s0 rx rp sd sig -> run s0 h s ->
  shape s0 rx rp sd h s /\ phase rx rp sd h s /\ finalizing s0 rx h s
  /\ ordered s0 rx rp h
  /\ (precedes (is_cancel_of rx) (is_effect_by rx) h ->
      undisturbed rx h s
      /\ precedes (is_disconnect_by rx) (is_cancel_outside [rx; rp]) h).
Proof.
  intros Hsig Hrun. induction Hrun as [s|s h s' o s'' Hrun IH Hstep].
  - destruct (signalled_invariants _ _ _ _ _ Hsig) as (H1 & H2 & H3 & H4 & H5).
    split; [exact H1|]. split; [exact H2|]. split; [exact H3|].
    split; [exact H4|]. intros _. split; [exact H5|apply precedes_nil].
  - destruct (IH Hsig) as (Hsh & Hph & Hfin & Hord & Hund).
    split; [eapply shape_step; eassumption|].
    split; [eapply phase_step; eassumption|].
    split; [eapply finalizing_step; eassumption|].
    split; [eapply ordered_step; eassumption|].
    intros Hc. destruct (Hund (precedes_prefix _ _ _ _ Hc)) as [Hu Hd].
    split; [eapply undisturbed_step; eassumption|].
    apply precedes_app; [exact Hd|].
    destruct (step_outside _ _ _ _ _ _ _ _ Hsh Hph Hstep)
      as [Hno|(_ & _ & _ & _ & Hdone)]; [left; exact Hno|right].
    apply (undisturbed_done _ _ _ Hu Hdone).
Qed.



Lemma precedesb_sound (P Q : obs -> bool) (h : list obs) : forall seen,
  precedesb P Q seen h = true ->
  forall h1 y h2, h = h1 ++ y :: h2 -> Q y = true ->
    seen || existsb P h1 = true.
Proof.
  induction h as [|z h IH]; intros seen Hb h1 y h2 Heq Hy.
  - destruct h1; discriminate.
  - cbn in Hb. apply andb_true_iff in Hb as [Hz Hb].
    destruct h1 as [|z' h1]; cbn in Heq; injection Heq as -> ->.
    + rewrite Hy in Hz. cbn in Hz. rewrite Hz. reflexivity.
    + specialize (IH _ Hb h1 y h2 eq_refl Hy). cbn.
      rewrite orb_assoc. exact IH.
Qed.

Lemma precedesb_precedes (P Q : obs -> bool) (h : list obs) :
  precedesb P Q false h = true -> precedes P Q h.
Proof.
  intros Hb h1 y h2 Heq Hy.
  exact (precedesb_sound P Q h false Hb h1 y h2 Heq Hy).
Qed.

Lemma run_front (s s' s'' : loop_state) (o h : list obs) :
  step s o s' -> run s' h s'' -> run s (o ++ h) s''.
Proof.
  intros Hstep Hrun. induction Hrun as [s'|s' h s1 o' s2 Hrun IH Hstep'].
  - rewrite app_nil_r. apply (run_snoc s [] s); [constructor|exact Hstep].
  - rewrite app_assoc. eapply run_snoc; [apply IH, Hstep|exact Hstep'].
Qed.

Lemma demo_signalled : signalled Demo.loop0 0 1 3 "SIGTERM".
Proof.
  repeat split.
  intros j x Hj N0 N1 N3.
  destruct j as [|[|[|[|j]]]]; try congruence; cbn in Hj; [|discriminate].
  injection Hj as <-. reflexivity.
Qed.

Lemma run_through_run (steps : list (list obs)) : forall s s',
  run_through s steps s' -> run s (concat steps) s'.
Proof.
  induction steps as [|o steps IH]; intros s s'; cbn [run_through concat].
  - intros <-. constructor.
  - intros (s1 & Hstep & Hrest). eapply run_front; [exact Hstep|].
    apply IH, Hrest.
Qed.

Lemma demo_shutdown_run : exists s, run Demo.loop0 Demo.shutdown_history s.
Proof.
  eexists. apply run_through_run.
  unfold Demo.shutdown_steps. cbn [run_through].
  eexists. split.
  { eapply (sd_start Demo.loop0 3 "SIGTERM"); reflexivity. }
  eexists. split.
  { lazymatch goal with |- step ?s _ _ => eapply (rx_cancelled s 0) end.
    reflexivity. }
  eexists. split.
  { lazymatch goal with |- step ?s _ _ => eapply (task_ends s 1 _ []) end;
      [reflexivity|reflexivity|left; reflexivity]. }
  eexists. split.
  { lazymatch goal with |- step ?s _ _ => eapply (sd_wait_main s 3) end;
      reflexivity. }
  eexists. split.
  { lazymatch goal with |- step ?s _ _ => eapply (rx_published s 0) end.
    reflexivity. }
  eexists. split.
  { lazymatch goal with |- step ?s _ _ => eapply (rx_disconnected s 0) end.
    reflexivity. }
  eexists. split.
  { lazymatch goal with |- step ?s _ _ => eapply (sd_wait_main s 3) end;
      reflexivity. }
  eexists. split.
  { lazymatch goal with |- step ?s _ _ => eapply (sd_cancel_rest s 3) end;
      reflexivity. }
  eexists. split.
  { lazymatch goal with |- step ?s _ _ => eapply (task_ends s 2 _ []) end;
      [reflexivity|reflexivity|right; reflexivity]. }
  eexists. split.
  { lazymatch goal with |- step ?s _ _ => eapply (sd_wait_rest s 3) end;
      reflexivity. }
  eexists. split.
  { lazymatch goal with |- step ?s _ _ => eapply (sd_stop s 3) end;
      reflexivity. }
  reflexivity.
Qed.




(** * Further properties of the server

    Properties of the code beyond the start-up of the outputs, the router,
    the workers, the reaper and the shutdown treated above. *)

(** ** Which topics have a name *)

Lemma to_end_cons (c : ascii) (s : string) :
  to_end (String c s)
  = negb (Ascii.eqb c newline)
    && (to_end s
        || match s with
           | EmptyString => true
           | String c' EmptyString => Ascii.eqb c' newline
           | _ => false
           end).
Proof. reflexivity. Qed.

Lemma at_end_tail (s : string) :
  at_end s
  = match s with
    | EmptyString => true
    | String c' EmptyString => Ascii.eqb c' newline
    | _ => false
    end.
Proof. reflexivity. Qed.

(** The greedy [.+] followed by [$] succeeds on the strings of [to_end],
    and on no other. *)
Lemma greedy_to_end_iff (g : option string) (s : string) : forall pos,
  greedy_dot_plus (fun pos' s' => re_match [ReEnd] pos' s' g) pos s
  = if to_end s then Some g else None.
Proof.
  induction s as [|c s IH]; intros pos; [reflexivity|].
  rewrite greedy_dot_plus_cons, to_end_cons.
  destruct (Ascii.eqb c newline); [reflexivity|].
  rewrite IH. cbn [negb andb]. destruct (to_end s); [reflexivity|].
  cbn [re_match orb]. rewrite at_end_tail.
  destruct s as [|c' [|c'' s]]; reflexivity.
Qed.

Lemma after_name_iff (pos : nat) (s : string) (g : option string) :
  re_match after_name pos s g
  = match s with
    | String c t =>
        if Ascii.eqb slash c && to_end t then Some g else None
    | EmptyString => None
    end.
Proof.
  destruct s as [|c t]; [apply after_name_nil|].
  rewrite after_name_cons. destruct (Ascii.eqb slash c); [|reflexivity].
  apply greedy_to_end_iff.
Qed.

Lemma to_end_app (x rest : string) :
  string_mem newline x = false -> to_end rest = true ->
  to_end (x +:+ rest) = true.
Proof.
  induction x as [|c x IH]; intros Hx Hr; [exact Hr|].
  rewrite string_mem_cons in Hx. apply orb_false_elim in Hx as [Hc Hx].
  change (String c x +:+ rest) with (String c (x +:+ rest)).
  rewrite to_end_cons, Ascii.eqb_sym, Hc, IH by assumption. reflexivity.
Qed.

Lemma string_app_cons_inv (c : ascii) (s a b : string) :
  String c s = a +:+ b ->
  (a = EmptyString /\ b = String c s)
  \/ exists a', a = String c a' /\ s = a' +:+ b.
Proof.
  destruct a as [|d a];
    [intros H; left; split; [reflexivity|symmetry; exact H]|].
  intros [= <- ->]. right. eauto.
Qed.

(** What the lazy group captures: a non-empty text without newline that a
    separator and an acceptable rest follow, and the shortest such text,
    so that a separator inside it can only be its first character. *)
Lemma lazy_sound (s : string) : forall pos acc m,
  lazy_dot_plus (re_match after_name) pos s acc = Some m ->
  exists name rest,
    s = name +:+ "/" +:+ rest
    /\ name <> EmptyString /\ string_mem newline name = false
    /\ to_end rest = true /\ m = Some (acc +:+ name)
    /\ forall a b, name = a +:+ "/" +:+ b -> a = EmptyString.
Proof.
  induction s as [|c s IH]; intros pos acc m; [discriminate|].
  rewrite lazy_dot_plus_cons.
  destruct (Ascii.eqb c newline) eqn:Hc; [discriminate|].
  rewrite after_name_iff.
  destruct s as [|d t].
  - discriminate.
  - destruct (Ascii.eqb slash d && to_end t) eqn:E.
    + intros [= <-]. apply andb_true_iff in E as [Hd Ht].
      apply Ascii.eqb_eq in Hd. subst d.
      exists (String c ""), t.
      split; [reflexivity|]. split; [discriminate|].
      split; [rewrite string_mem_cons, Ascii.eqb_sym, Hc; reflexivity|].
      split; [exact Ht|]. split; [reflexivity|].
      intros a b Hab. apply string_app_cons_inv in Hab as [[-> _]|(a' & -> & Hab)];
        [reflexivity|].
      destruct a'; discriminate.
    + intros H.
      apply IH in H as (name & rest & Hs & Hne & Hnl & Ht & -> & Hmin).
      exists (String c name), rest.
      split.
      { change (String c name +:+ "/" +:+ rest)
          with (String c (name +:+ "/" +:+ rest)).
        rewrite <- Hs. reflexivity. }
      split; [discriminate|].
      split; [rewrite string_mem_cons, Ascii.eqb_sym, Hc; exact Hnl|].
      split; [exact Ht|].
      split; [rewrite string_app_assoc; reflexivity|].
      intros a b Hab.
      apply string_app_cons_inv in Hab as [[-> _]|(a' & -> & Hab)];
        [reflexivity|].
      exfalso. pose proof (Hmin a' b Hab) as ->.
      change ("" +:+ "/" +:+ b) with (String slash b) in Hab. subst name.
      injection Hs as -> ->.
      rewrite Ascii.eqb_refl in E. cbn [andb] in E.
      rewrite string_mem_cons in Hnl. apply orb_false_elim in Hnl as [_ Hb].
      rewrite to_end_app in E; [discriminate|exact Hb|].
      apply (to_end_app "/" rest); [reflexivity|exact Ht].
Qed.

(** The lazy group finds a name wherever there is one, and takes the
    shortest: a leading part of any name that would do. *)
Lemma lazy_complete (name rest : string) : forall pos acc,
  name <> EmptyString -> string_mem newline name = false ->
  to_end rest = true ->
  exists found left,
    name = found +:+ left /\ found <> EmptyString
    /\ lazy_dot_plus (re_match after_name) pos (name +:+ "/" +:+ rest) acc
       = Some (Some (acc +:+ found)).
Proof.
  induction name as [|c name IH]; intros pos acc Hne Hnl Ht; [congruence|].
  rewrite string_mem_cons in Hnl. apply orb_false_elim in Hnl as [Hc Hnl].
  change (String c name +:+ "/" +:+ rest)
    with (String c (name +:+ "/" +:+ rest)).
  rewrite lazy_dot_plus_cons, Ascii.eqb_sym, Hc.
  destruct name as [|d name].
  - change ("" +:+ "/" +:+ rest) with (String slash rest).
    rewrite after_name_iff, Ascii.eqb_refl, Ht. cbn [andb].
    exists (String c ""), "". repeat split. discriminate.
  - change (String d name +:+ "/" +:+ rest)
      with (String d (name +:+ "/" +:+ rest)).
    rewrite after_name_iff.
    destruct (Ascii.eqb slash d && to_end (name +:+ "/" +:+ rest)).
    + exists (String c ""), (String d name). repeat split. discriminate.
    + destruct (IH (S pos) (acc +:+ String c "")) as (found & left & E & Hf & H);
        [discriminate|exact Hnl|exact Ht|].
      change (String d name +:+ "/" +:+ rest)
        with (String d (name +:+ "/" +:+ rest)) in H.
      exists (String c found), left. repeat split.
      * change (String c found +:+ left) with (String c (found +:+ left)).
        rewrite <- E. reflexivity.
      * discriminate.
      * rewrite H, string_app_assoc. reflexivity.
Qed.

(** X1.  [output_name_from_topic] returns a name only for a topic of the
    form [<prefix>/output/<name>/<rest>]: the name it returns is not empty,
    holds no newline, and is followed in the topic by a separator and by a
    rest that is one or more characters other than a newline, up to the
    end of the topic or to a newline that ends it.  (The prefix is one that
    [re] reads as literal text.) *)
Theorem output_name_sound (prefix topic name : string) :
  re_plain prefix = true ->
  output_name_from_topic topic prefix = Ok name ->
  exists rest,
    topic = prefix +:+ "/" +:+ OUTPUT_TOPIC +:+ "/" +:+ name +:+ "/" +:+ rest
    /\ name <> EmptyString
    /\ string_mem newline name = false
    /\ to_end rest = true.
Proof.
  intros Hp. unfold output_name_from_topic.
  rewrite topic_pattern_literal by exact Hp.
  unfold literal_pattern, after_prefix. cbn [re_match Nat.eqb].
  destruct (strip_prefix prefix topic) as [s1|] eqn:E1; [|discriminate].
  apply strip_prefix_Some in E1.
  destruct (strip_prefix "/" s1) as [s2|] eqn:E2; [|discriminate].
  apply strip_prefix_Some in E2.
  destruct (strip_prefix OUTPUT_TOPIC s2) as [s3|] eqn:E3; [|discriminate].
  apply strip_prefix_Some in E3.
  destruct (strip_prefix "/" s3) as [s4|] eqn:E4; [|discriminate].
  apply strip_prefix_Some in E4.
  destruct (lazy_dot_plus _ _ s4 "") as [m|] eqn:E; [|discriminate].
  apply lazy_sound in E as (n & rest & Hs & Hne & Hnl & Ht & -> & _).
  intros [= <-]. exists rest. subst. repeat split; assumption.
Qed.

Lemma output_name_sound_witness :
  exists rest,
    "P/output/relay1/set_on_ms"
    = "P" +:+ "/" +:+ OUTPUT_TOPIC +:+ "/" +:+ "relay1" +:+ "/" +:+ rest
    /\ "relay1" <> EmptyString
    /\ string_mem newline "relay1" = false
    /\ to_end rest = true.
Proof.
  apply (output_name_sound "P" "P/output/relay1/set_on_ms" "relay1");
    vm_compute; reflexivity.
Defined.

(** X2.  Conversely, on every topic [<prefix>/output/<name>/<rest>] with
    such a name and such a rest, [output_name_from_topic] returns a name
    and does not raise; the name it returns is the given one or a leading
    part of it, the lazy group taking the shortest text that fits. *)
Theorem output_name_complete (prefix name rest : string) :
  re_plain prefix = true ->
  name <> EmptyString -> string_mem newline name = false ->
  to_end rest = true ->
  exists found left,
    name = found +:+ left /\ found <> EmptyString
    /\ output_name_from_topic
         (prefix +:+ "/" +:+ OUTPUT_TOPIC +:+ "/" +:+ name +:+ "/" +:+ rest)
         prefix
       = Ok found.
Proof.
  intros Hp Hne Hnl Ht. unfold output_name_from_topic.
  rewrite topic_pattern_literal by exact Hp.
  rewrite topic_pattern_prefix.
  destruct (lazy_complete name rest (String.length prefix + 1 + 6 + 1) ""
              Hne Hnl Ht) as (found & left & E & Hf & ->).
  exists found, left. repeat split; assumption.
Qed.

Lemma output_name_complete_witness :
  exists found left,
    "a/b" = found +:+ left /\ found <> EmptyString
    /\ output_name_from_topic
         ("P" +:+ "/" +:+ OUTPUT_TOPIC +:+ "/" +:+ "a/b" +:+ "/" +:+ "set")
         "P"
       = Ok found.
Proof.
  apply (output_name_complete "P" "a/b" "set");
    solve [vm_compute; reflexivity | discriminate].
Defined.

Lemma string_mem_split (c : ascii) (s : string) :
  string_mem c s = true -> exists a b, s = a +:+ String c b.
Proof.
  induction s as [|d s IH]; [discriminate|].
  rewrite string_mem_cons. destruct (Ascii.eqb_spec c d) as [<-|_].
  - intros _. exists "", s. reflexivity.
  - intros H. destruct (IH H) as (a & b & ->). exists (String d a), b.
    reflexivity.
Qed.

(** X3.  The name [output_name_from_topic] returns holds no separator
    after its first character: it is the topic level that follows
    [<prefix>/output/], unless that level is empty, in which case the name
    is the separator followed by the level after it. *)
Theorem output_name_one_level (prefix topic name : string) :
  re_plain prefix = true ->
  output_name_from_topic topic prefix = Ok name ->
  string_mem slash (after_first name) = false.
Proof.
  intros Hp. unfold output_name_from_topic.
  rewrite topic_pattern_literal by exact Hp.
  unfold literal_pattern, after_prefix. cbn [re_match Nat.eqb].
  destruct (strip_prefix prefix topic) as [s1|]; [|discriminate].
  destruct (strip_prefix "/" s1) as [s2|]; [|discriminate].
  destruct (strip_prefix OUTPUT_TOPIC s2) as [s3|]; [|discriminate].
  destruct (strip_prefix "/" s3) as [s4|]; [|discriminate].
  destruct (lazy_dot_plus _ _ s4 "") as [m|] eqn:E; [|discriminate].
  apply lazy_sound in E as (n & rest & _ & _ & _ & _ & -> & Hmin).
  intros [= <-]. destruct n as [|c n]; [reflexivity|].
  cbn [after_first].
  destruct (string_mem slash n) eqn:Hn; [exfalso|reflexivity].
  apply string_mem_split in Hn as (a & b & ->).
  discriminate (Hmin (String c a) b eq_refl).
Qed.

Lemma output_name_one_level_witness :
  string_mem slash (after_first "/x") = false.
Proof.
  apply (output_name_one_level "P" "P/output//x/set" "/x");
    vm_compute; reflexivity.
Defined.

(** ** The dict of outputs *)

Lemma last_cons_cons {A : Type} (x y : A) (l : list A) :
  last (x :: y :: l) = last (y :: l).
Proof. reflexivity. Qed.

Lemma dict_fold_lookup (l : list out_conf) : forall (d : gmap string out_conf) n,
  fold_left (fun d x => <[oc_name x := x]> d) l d !! n
  = match last (List.filter (has_name n) l) with
    | Some x => Some x
    | None => d !! n
    end.
Proof.
  induction l as [|x l IH]; intros d n; [reflexivity|].
  cbn [fold_left List.filter]. rewrite IH. unfold has_name at 2.
  destruct (String.eqb_spec (oc_name x) n) as [E|E].
  - destruct (List.filter (has_name n) l) as [|y l'] eqn:F.
    + cbn [last]. rewrite <- E. apply lookup_insert_eq.
    + rewrite last_cons_cons. destruct (last (y :: l')) eqn:L; [reflexivity|].
      apply last_None in L. discriminate.
  - destruct (last (List.filter (has_name n) l)); [reflexivity|].
    apply lookup_insert_ne. exact E.
Qed.

Lemma In_dict_set (x c : out_conf) (d : list out_conf) :
  NoDup (map oc_name d) ->
  In c (dict_set x d) <-> c = x \/ (In c d /\ oc_name c <> oc_name x).
Proof.
  induction d as [|y d IH]; intros Hnd.
  - cbn [dict_set In]. split; [intros [<-|[]]; left; reflexivity|].
    intros [->|[[] _]]. left. reflexivity.
  - cbn [map] in Hnd. apply NoDup_cons in Hnd as [Hy Hnd].
    cbn [dict_set]. destruct (String.eqb_spec (oc_name y) (oc_name x)) as [E|E].
    + cbn [In]. split.
      * intros [<-|Hc]; [left; reflexivity|right].
        split; [right; exact Hc|]. intros E'. apply Hy.
        rewrite E, <- E'. apply list_elem_of_In, in_map, Hc.
      * intros [->|[[<-|Hc] Hne]]; [left; reflexivity|congruence|right; exact Hc].
    + cbn [In]. rewrite (IH Hnd). split.
      * intros [<-|[->|[Hc Hne]]].
        -- right. split; [left; reflexivity|exact E].
        -- left. reflexivity.
        -- right. split; [right; exact Hc|exact Hne].
      * intros [->|[[<-|Hc] Hne]].
        -- right. left. reflexivity.
        -- left. reflexivity.
        -- right. right. split; assumption.
Qed.

Lemma dict_set_names (x : out_conf) (d : list out_conf) (n : string) :
  n ∈ map oc_name (dict_set x d) <-> n = oc_name x \/ n ∈ map oc_name d.
Proof.
  induction d as [|y d IH]; cbn [dict_set map].
  - rewrite list_elem_of_singleton. split; [tauto|].
    intros [->|H]; [reflexivity|]. apply elem_of_nil in H as [].
  - destruct (String.eqb_spec (oc_name y) (oc_name x)) as [E|E]; cbn [map];
      rewrite !elem_of_cons; [rewrite E; tauto|]. rewrite IH. tauto.
Qed.

Lemma NoDup_dict_set (x : out_conf) (d : list out_conf) :
  NoDup (map oc_name d) -> NoDup (map oc_name (dict_set x d)).
Proof.
  induction d as [|y d IH]; intros Hnd; cbn [dict_set map].
  - apply NoDup_singleton.
  - cbn [map] in Hnd. apply NoDup_cons in Hnd as [Hy Hnd].
    destruct (String.eqb_spec (oc_name y) (oc_name x)) as [E|E]; cbn [map].
    + apply NoDup_cons. split; [rewrite <- E; exact Hy|exact Hnd].
    + apply NoDup_cons. split; [|apply IH, Hnd].
      rewrite dict_set_names. intros [H|H]; [congruence|contradiction].
Qed.

Lemma dict_values_fold (l : list out_conf) :
  forall (d : list out_conf) (m : gmap string out_conf),
    NoDup (map oc_name d) ->
    (forall c, In c d <-> m !! oc_name c = Some c) ->
    NoDup (map oc_name (fold_left (fun d x => dict_set x d) l d))
    /\ forall c,
         In c (fold_left (fun d x => dict_set x d) l d)
         <-> fold_left (fun d x => <[oc_name x := x]> d) l m !! oc_name c
             = Some c.
Proof.
  induction l as [|x l IH]; intros d m Hnd Hd; [split; assumption|].
  cbn [fold_left]. apply IH; [apply NoDup_dict_set, Hnd|].
  intros c. rewrite (In_dict_set x c d Hnd), Hd.
  destruct (String.eqb_spec (oc_name c) (oc_name x)) as [E|E].
  - rewrite E, lookup_insert_eq. split.
    + intros [->|[_ Hne]]; [reflexivity|congruence].
    + intros [= ->]. left. reflexivity.
  - rewrite lookup_insert_ne by congruence. split.
    + intros [->|[H _]]; [congruence|exact H].
    + intros H. right. split; [exact H|exact E].
Qed.

Lemma dict_by_name_last (l : list out_conf) (n : string) :
  dict_by_name l !! n = last (List.filter (has_name n) l).
Proof.
  unfold dict_by_name. rewrite dict_fold_lookup.
  destruct (last (List.filter (has_name n) l)); [reflexivity|].
  apply lookup_empty.
Qed.

Lemma dict_values_In (l : list out_conf) (c : out_conf) :
  In c (dict_values l) <-> dict_by_name l !! oc_name c = Some c.
Proof.
  apply (dict_values_fold l [] ∅); [apply NoDup_nil_2|].
  intros x. rewrite lookup_empty. split; [intros []|discriminate].
Qed.

(** X4.  In the dict [_init_digital_outputs] builds from
    [config["digital_outputs"]], a name stands for the last entry of the
    configuration that carries it: an earlier entry of the same name is
    shadowed.  The values of the dict are these entries, one for each
    name. *)
Theorem dict_last_entry_wins (l : list out_conf) :
  (forall n, dict_by_name l !! n = last (List.filter (has_name n) l))
  /\ (forall c, In c (dict_values l) <-> dict_by_name l !! oc_name c = Some c)
  /\ NoDup (map oc_name (dict_values l)).
Proof.
  split.
  - intros n. unfold dict_by_name. rewrite dict_fold_lookup.
    destruct (last (List.filter (has_name n) l)); [reflexivity|].
    apply lookup_empty.
  - destruct (dict_values_fold l [] ∅) as [Hnd Hin].
    + apply NoDup_nil_2.
    + intros c. rewrite lookup_empty. split; [intros []|discriminate].
    + split; [exact Hin|exact Hnd].
Qed.

(** ** Setting up the outputs *)

Lemma init_outputs_loop_trace (confs : list out_conf) :
  forall self tr r,
    init_outputs_loop self confs = (tr, r) ->
    exists seen,
      Forall2 (fun e c =>
                 exists module,
                   gpio_modules self !! oc_module c = Some module
                   /\ e = setup_output module c) tr seen
      /\ match r with
         | Ok self' =>
             seen = confs
             /\ gpio_modules self' = gpio_modules self
             /\ digital_output_configs self' = digital_output_configs self
             /\ config_digital_outputs self' = config_digital_outputs self
             /\ topic_prefix self' = topic_prefix self
         | Raise e =>
             exists c post,
               confs = seen ++ c :: post
               /\ gpio_modules self !! oc_module c = None
               /\ e = KeyError (oc_module c)
         end.
Proof.
  induction confs as [|c confs IH]; intros self tr r.
  - intros [= <- <-]. exists []. split; [constructor|]. repeat split.
  - cbn [init_outputs_loop].
    destruct (gpio_modules self !! oc_module c) as [module|] eqn:Hm.
    + set (self1 := match module_output_queues self !! oc_module c with
                    | Some _ => self
                    | None => _
                    end).
      assert (Hsame : gpio_modules self1 = gpio_modules self
                      /\ digital_output_configs self1 = digital_output_configs self
                      /\ config_digital_outputs self1 = config_digital_outputs self
                      /\ topic_prefix self1 = topic_prefix self).
      { subst self1.
        destruct (module_output_queues self !! oc_module c); repeat split. }
      destruct Hsame as (G & D & C & P).
      destruct (init_outputs_loop self1 confs) as [tr1 r1] eqn:E.
      intros [= <- <-].
      destruct (IH _ _ _ E) as (seen & HF & Hr).
      exists (c :: seen). split.
      * constructor; [exists module; split; [exact Hm|reflexivity]|].
        rewrite G in HF. exact HF.
      * destruct r1 as [self'|e].
        -- destruct Hr as (-> & G' & D' & C' & P').
           repeat split; congruence.
        -- destruct Hr as (c' & post & -> & Hn & ->).
           exists c', post. rewrite G in Hn. repeat split. exact Hn.
    + intros [= <- <-]. exists []. split; [constructor|].
      exists c, confs. repeat split. exact Hm.
Qed.

(** X5.  When [_init_digital_outputs] returns, it has set up the pin of
    every entry of [config["digital_outputs"]], once and in the order of
    the configuration, each on the module object its entry names; the
    dict of outputs is the one built from the configuration, and the
    modules are untouched. *)
Theorem init_outputs_sets_up_every_pin (self self' : MqttGpio)
    (tr : list event) :
  _init_digital_outputs self = (tr, Ok self') ->
  Forall2 (fun e c =>
             exists module,
               gpio_modules self !! oc_module c = Some module
               /\ e = setup_output module c)
    tr (config_digital_outputs self)
  /\ digital_output_configs self'
     = dict_by_name (config_digital_outputs self)
  /\ gpio_modules self' = gpio_modules self.
Proof.
  unfold _init_digital_outputs. intros H.
  apply init_outputs_loop_trace in H as (seen & HF & -> & G & D & _).
  split; [exact HF|]. split; [exact D|exact G].
Qed.

Lemma init_outputs_sets_up_every_pin_witness :
  Forall2 (fun e c =>
             exists module,
               gpio_modules Demo.fresh !! oc_module c = Some module
               /\ e = setup_output module c)
    [EvSetupPin "gpio" (PinNum 4) "relay1"; EvSetupPin "gpio" (PinNum 17) "lamp"]
    (config_digital_outputs Demo.fresh)
  /\ digital_output_configs Demo.server
     = dict_by_name (config_digital_outputs Demo.fresh)
  /\ gpio_modules Demo.server = gpio_modules Demo.fresh.
Proof.
  apply (init_outputs_sets_up_every_pin Demo.fresh Demo.server).
  vm_compute. reflexivity.
Defined.

(** X6.  [_init_digital_outputs] raises [KeyError] at the first entry
    whose module is not among the GPIO modules; by then it has set up the
    pins of the entries before that one, and of no other. *)
Theorem init_outputs_unknown_module (self : MqttGpio)
    (pre post : list out_conf) (c : out_conf) :
  config_digital_outputs self = pre ++ c :: post ->
  Forall (fun x => is_Some (gpio_modules self !! oc_module x)) pre ->
  gpio_modules self !! oc_module c = None ->
  exists tr,
    _init_digital_outputs self = (tr, Raise (KeyError (oc_module c)))
    /\ Forall2 (fun e x =>
                  exists module,
                    gpio_modules self !! oc_module x = Some module
                    /\ e = setup_output module x) tr pre.
Proof.
  intros Hc Hpre Hn. unfold _init_digital_outputs.
  destruct (init_outputs_loop _ (config_digital_outputs self)) as [tr r] eqn:E.
  apply init_outputs_loop_trace in E as (seen & HF & Hr).
  cbn [gpio_modules set_digital_output_configs] in HF, Hr.
  assert (Hseen : Forall (fun x => is_Some (gpio_modules self !! oc_module x)) seen).
  { clear -HF. induction HF as [|e x tr seen (m & Hm & _) _ IH]; constructor;
      [rewrite Hm; eauto|exact IH]. }
  assert (Hsplit : forall (l1 l2 : list out_conf) c1 c2 p1 p2,
             l1 ++ c1 :: p1 = l2 ++ c2 :: p2 ->
             Forall (fun x => is_Some (gpio_modules self !! oc_module x)) l1 ->
             Forall (fun x => is_Some (gpio_modules self !! oc_module x)) l2 ->
             gpio_modules self !! oc_module c1 = None ->
             gpio_modules self !! oc_module c2 = None ->
             l1 = l2 /\ c1 = c2).
  { induction l1 as [|a l1 IH]; intros [|b l2] c1 c2 p1 p2 Heq H1 H2 N1 N2;
      cbn [app] in Heq.
    - injection Heq as -> _. split; reflexivity.
    - injection Heq as -> _. apply Forall_cons in H2 as [[m Hm] _]. congruence.
    - injection Heq as -> _. apply Forall_cons in H1 as [[m Hm] _]. congruence.
    - injection Heq as -> Heq. apply Forall_cons in H1 as [_ H1].
      apply Forall_cons in H2 as [_ H2].
      destruct (IH _ _ _ _ _ Heq H1 H2 N1 N2) as [-> ->]. split; reflexivity. }
  destruct r as [self'|e].
  - exfalso. destruct Hr as (-> & _).
    rewrite Hc in Hseen. apply Forall_app in Hseen as [_ Hseen].
    apply Forall_cons in Hseen as [[m Hm] _]. congruence.
  - destruct Hr as (c' & post' & Hc' & Hn' & ->).
    rewrite Hc in Hc'.
    destruct (Hsplit _ _ _ _ _ _ Hc' Hpre Hseen Hn Hn') as [-> ->].
    exists tr. split; [reflexivity|exact HF].
Qed.

Lemma init_outputs_unknown_module_witness :
  exists tr,
    _init_digital_outputs demo_orphan
    = (tr, Raise (KeyError (oc_module demo_valve)))
    /\ Forall2 (fun e x =>
                  exists module,
                    gpio_modules demo_orphan !! oc_module x = Some module
                    /\ e = setup_output module x) tr [Demo.relay1].
Proof.
  apply (init_outputs_unknown_module demo_orphan [Demo.relay1] [Demo.lamp]
           demo_valve).
  - reflexivity.
  - constructor; [exists "gpio"; reflexivity|constructor].
  - reflexivity.
Defined.

(** ** Subscriptions *)

Section ConnectFacts.

Variable sha1_hexdigest : string -> string.
Variable publish_initial : out_conf -> bool.
Variable initial : out_conf -> string.

Lemma flat_map_constant_nil {A B : Type} (f : A -> list B) (l : list A) :
  (forall x, f x = []) -> flat_map f l = [].
Proof.
  intros H. induction l as [|x l IH]; [reflexivity|].
  cbn [flat_map]. rewrite H, IH. reflexivity.
Qed.

Lemma subscribed_app (a b : list init_event) :
  subscribed (a ++ b) = subscribed a ++ subscribed b.
Proof. apply flat_map_app. Qed.

Lemma subscribed_flat_map {A : Type} (f : A -> list init_event) (l : list A) :
  subscribed (flat_map f l) = flat_map (fun x => subscribed (f x)) l.
Proof.
  induction l as [|x l IH]; [reflexivity|].
  cbn [flat_map]. rewrite subscribed_app, IH. reflexivity.
Qed.

(** What [_init_mqtt] subscribes to: the three control topics of each
    value of the dict of outputs. *)
Lemma subscribed_init_mqtt (self : MqttGpio) (config : mqtt_conf) :
  subscribed (_init_mqtt sha1_hexdigest publish_initial initial self config)
  = flat_map
      (fun out_conf =>
         map (control_topic (topic_prefix self) (oc_name out_conf))
           control_suffixes)
      (dict_values (config_digital_outputs self)).
Proof.
  unfold _init_mqtt. rewrite !subscribed_app, !subscribed_flat_map.
  cbn [subscribed flat_map app].
  rewrite (flat_map_constant_nil
             (fun x => subscribed
                (if negb (publish_initial x) then []
                 else [Init (publish_output (topic_prefix self) x
                               (initial_payload (initial x) x))]))),
    app_nil_r; [reflexivity|].
  intros x. destruct (publish_initial x); reflexivity.
Qed.

End ConnectFacts.

Lemma last_In {A : Type} (l : list A) (x : A) : last l = Some x -> In x l.
Proof.
  intros H. apply list_elem_of_In, list_elem_of_lookup.
  rewrite last_lookup in H. eauto.
Qed.

(** The server as [run] has it when it connects. *)
Lemma booted_registries (prefix status stopped : string)
    (modules : list string) (outputs : list out_conf) (s : Serial.system) :
  Serial.booted prefix status stopped modules outputs s ->
  topic_prefix (Serial.server s) = prefix
  /\ config_digital_outputs (Serial.server s) = outputs
  /\ digital_output_configs (Serial.server s) = dict_by_name outputs
  /\ forall c, In c outputs ->
       (exists module,
          gpio_modules (Serial.server s) !! oc_module c = Some module)
       /\ exists q, module_output_queues (Serial.server s) !! oc_module c = Some q.
Proof.
  intros Hb. pose proof (booted_aligned _ _ _ _ _ _ Hb) as (Hal & Hp & _).
  destruct Hb as (tr & Hinit & _).
  unfold _init_digital_outputs in Hinit.
  apply init_outputs_loop_trace in Hinit as (seen & HF & -> & G & D & C & _).
  cbn in C, D, HF.
  split; [exact Hp|]. split; [exact C|]. split; [exact D|].
  intros c Hc. split.
  - rewrite G. cbn.
    clear -HF Hc. induction HF as [|e x tr seen (m & Hm & _) _ IH]; [destruct Hc|].
    destruct Hc as [->|Hc]; [eauto|apply IH, Hc].
  - destruct Hal as (_ & Hq & _).
    assert (Hm : oc_module c ∈ first_modules outputs)
      by (apply first_modules_elem; eauto).
    apply list_elem_of_lookup in Hm as [q Hm]. exists q. apply Hq, Hm.
Qed.

(** X7.  Start-up and routing fit together.  On the server [run] has built
    ([__init__], [_init_gpio_modules], [_init_digital_outputs]), when the
    configured names are single topic levels: [_init_mqtt] subscribes to
    the three control topics of every configured output, and a message on
    any topic it subscribed to is taken by [_handle_mqtt_msg] without an
    exception and without a warning: it becomes a command on the queue of
    the output's module, or a pulse task. *)
Theorem subscribed_topics_are_routed
    (sha1_hexdigest : string -> string)
    (publish_initial : out_conf -> bool) (initial : out_conf -> string)
    (prefix status stopped : string) (modules : list string)
    (outputs : list out_conf) (s : Serial.system) (config : mqtt_conf) :
  Serial.booted prefix status stopped modules outputs s ->
  re_plain prefix = true ->
  forallb (fun c => segment (oc_name c)) outputs = true ->
  let self := Serial.server s in
  let topics :=
    subscribed (_init_mqtt sha1_hexdigest publish_initial initial self config) in
  (forall c suffix, In c outputs -> In suffix control_suffixes ->
     In (control_topic prefix (oc_name c) suffix) topics)
  /\ (forall topic payload, In topic topics ->
        exists c module,
          In c outputs
          /\ gpio_modules self !! oc_module c = Some module
          /\ ((exists q,
                 module_output_queues self !! oc_module c = Some q
                 /\ _handle_mqtt_msg self topic payload
                    = ([EvQueuePut q (module, c, payload)],
                       Ok (put_nowait self q (module, c, payload))))
              \/ (exists desired_value,
                    _handle_mqtt_msg self topic payload
                    = ([], Ok (spawn_unawaited self
                                 (CoSetMs module c desired_value payload)))))).
Proof.
  intros Hb Hplain Hseg self topics.
  destruct (booted_registries _ _ _ _ _ _ Hb) as (Hp & Hc & Hd & Hreg).
  pose proof (dict_by_name_last outputs) as Hlast.
  pose proof (dict_values_In outputs) as Hval.
  assert (Htopics : topics
            = flat_map (fun c => map (control_topic prefix (oc_name c))
                                   control_suffixes) (dict_values outputs)).
  { subst topics. rewrite subscribed_init_mqtt. subst self.
    rewrite Hp, Hc. reflexivity. }
  rewrite Htopics. clear Htopics topics.
  assert (Hin : forall c, In c (dict_values outputs) -> In c outputs).
  { intros c H. apply Hval in H. rewrite Hlast in H.
    apply last_In, filter_In in H as [H _]. exact H. }
  split.
  - intros c suffix Hc' Hs. apply in_flat_map.
    destruct (last (List.filter (has_name (oc_name c)) outputs)) as [c'|] eqn:L.
    + assert (Hn : oc_name c' = oc_name c).
      { apply last_In, filter_In in L as [_ L]. apply String.eqb_eq, L. }
      exists c'. split.
      * apply Hval. rewrite Hn, Hlast. exact L.
      * rewrite Hn. apply in_map, Hs.
    + apply last_None in L.
      assert (In c (List.filter (has_name (oc_name c)) outputs)) as Hf.
      { apply filter_In. split; [exact Hc'|apply String.eqb_refl]. }
      rewrite L in Hf. destruct Hf.
  - intros topic payload Ht.
    apply in_flat_map in Ht as (c & Hcv & Ht).
    apply in_map_iff in Ht as (suffix & <- & Hs).
    pose proof (Hin c Hcv) as Hco.
    destruct (Hreg c Hco) as [[module Hm] [q Hq]].
    exists c, module. split; [exact Hco|]. split; [exact Hm|].
    assert (Hconf : digital_output_configs self !! oc_name c = Some c).
    { subst self. rewrite Hd. apply Hval, Hcv. }
    assert (Hsegc : segment (oc_name c) = true).
    { rewrite forallb_forall in Hseg. apply Hseg, Hco. }
    rewrite <- Hp in Hplain |- *.
    destruct Hs as [<-|[<-|[<-|[]]]].
    + left. exists q. split; [exact Hq|].
      apply (route_set self c module payload Hconf Hm Hsegc Hplain q Hq).
    + right. exists true.
      apply (route_set_ms self c module payload Hconf Hm Hsegc Hplain true).
    + right. exists false.
      apply (route_set_ms self c module payload Hconf Hm Hsegc Hplain false).
Qed.

Lemma subscribed_topics_are_routed_witness :
  exists c module,
    In c [Demo.relay1; Demo.lamp]
    /\ gpio_modules Demo.server !! oc_module c = Some module
    /\ ((exists q,
           module_output_queues Demo.server !! oc_module c = Some q
           /\ _handle_mqtt_msg Demo.server "P/output/lamp/set_off_ms" "250"
              = ([EvQueuePut q (module, c, "250")],
                 Ok (put_nowait Demo.server q (module, c, "250"))))
        \/ (exists desired_value,
              _handle_mqtt_msg Demo.server "P/output/lamp/set_off_ms" "250"
              = ([], Ok (spawn_unawaited Demo.server
                           (CoSetMs module c desired_value "250"))))).
Proof.
  apply (proj2 (subscribed_topics_are_routed
                  (fun _ => "da39a3ee") (fun _ => true) (fun _ => "low")
                  "P" "status" "stopped" ["gpio"] [Demo.relay1; Demo.lamp]
                  Demo.s0 demo_broker demo_booted eq_refl eq_refl)
           "P/output/lamp/set_off_ms" "250").
  vm_compute. do 5 right. left. reflexivity.
Defined.

(** ** The status published at start-up *)

Lemma initial_payload_on (initial : string) (c : out_conf) :
  oc_on_payload c <> oc_off_payload c ->
  String.eqb (initial_payload initial c) (oc_on_payload c)
  = xorb (String.eqb initial "high") (oc_inverted c).
Proof.
  intros Hne. unfold initial_payload.
  destruct (xorb (String.eqb initial "high") (oc_inverted c)).
  - apply String.eqb_refl.
  - apply String.eqb_neq. congruence.
Qed.

Lemma initial_payload_valid (initial : string) (c : out_conf) :
  valid_payload c (initial_payload initial c) = true.
Proof.
  unfold valid_payload, initial_payload.
  destruct (xorb _ _); rewrite String.eqb_refl; [reflexivity|apply orb_true_r].
Qed.

(** X8.  The status [_init_mqtt] publishes at start-up for an output that
    asks for it agrees with the worker: when the output's two payloads
    differ, the payload published for the initial level, sent back on the
    output's [set] topic, makes [digital_output_loop] write that very
    level to the pin and echo the same payload. *)
Theorem initial_status_agrees_with_worker
    (sha1_hexdigest : string -> string)
    (publish_initial : out_conf -> bool) (initial : out_conf -> string)
    (self : MqttGpio) (config : mqtt_conf) (module : gpio_module)
    (c : out_conf) (rest : list command) :
  In c (dict_values (config_digital_outputs self)) ->
  publish_initial c = true ->
  oc_on_payload c <> oc_off_payload c ->
  let payload := initial_payload (initial c) c in
  let high := String.eqb (initial c) "high" in
  In (Init (publish_output (topic_prefix self) c payload))
    (_init_mqtt sha1_hexdigest publish_initial initial self config)
  /\ worker_run (topic_prefix self) 2 WGet ((module, c, payload) :: rest)
     = ([EvQueueGet (module, c, payload);
         EvSetPin module (oc_pin c) high;
         set_pin_log c (xorb high (oc_inverted c));
         publish_output (topic_prefix self) c payload],
        WPublish (module, c, payload), rest).
Proof.
  intros Hc Hp Hne payload high. split.
  - unfold _init_mqtt. apply in_or_app. right. apply in_or_app. right.
    apply in_or_app. right. apply in_flat_map. exists c.
    split; [exact Hc|]. rewrite Hp. left. reflexivity.
  - cbn [worker_run worker_step].
    rewrite loop_head_valid by apply initial_payload_valid.
    cbn [worker_run worker_step app].
    unfold set_pin_call, set_value. subst payload.
    rewrite initial_payload_on by exact Hne. fold high.
    rewrite xorb_assoc, xorb_nilpotent, xorb_false_r. reflexivity.
Qed.

Lemma initial_status_agrees_with_worker_witness :
  In (Init (publish_output "P" Demo.lamp "1"))
    (_init_mqtt (fun _ => "da39a3ee") (fun _ => true) (fun _ => "low")
       Demo.server demo_broker)
  /\ worker_run "P" 2 WGet [("gpio", Demo.lamp, "1")]
     = ([EvQueueGet ("gpio", Demo.lamp, "1");
         EvSetPin "gpio" (PinNum 17) false;
         set_pin_log Demo.lamp true;
         publish_output "P" Demo.lamp "1"],
        WPublish ("gpio", Demo.lamp, "1"), []).
Proof.
  apply (initial_status_agrees_with_worker
           (fun _ => "da39a3ee") (fun _ => true) (fun _ => "low")
           Demo.server demo_broker "gpio" Demo.lamp []).
  - vm_compute. right. left. reflexivity.
  - reflexivity.
  - discriminate.
Defined.

(** ** What the router leaves alone *)

(** X9.  [_handle_mqtt_msg] only routes.  For a topic prefix in which
    no character but the dot is special in a pattern, whatever the topic
    and the payload, it writes to no pin, publishes nothing, does not sleep
    and does not disconnect.  When it returns, the configuration, the dict
    of outputs, the modules and the map of module queues are as before, no
    queue was made or dropped, and at most one task was created, the tasks
    there were being untouched.  The only exception that can leave it is a
    [KeyError], and then nothing was logged. *)
Theorem handler_only_routes (self : MqttGpio) (topic payload : string) :
  re_dotted (topic_prefix self) = true ->
  let tr := fst (_handle_mqtt_msg self topic payload) in
  actions tr = []
  /\ List.filter is_disconnect tr = []
  /\ match snd (_handle_mqtt_msg self topic payload) with
     | Ok self' =>
         topic_prefix self' = topic_prefix self
         /\ status_topic self' = status_topic self
         /\ status_payload_stopped self' = status_payload_stopped self
         /\ config_digital_outputs self' = config_digital_outputs self
         /\ digital_output_configs self' = digital_output_configs self
         /\ gpio_modules self' = gpio_modules self
         /\ module_output_queues self' = module_output_queues self
         /\ length (queues self') = length (queues self)
         /\ exists new,
              loop_tasks self' = loop_tasks self ++ new
              /\ (length new <= 1)%nat
     | Raise e => tr = [] /\ exists key, e = KeyError key
     end.
Proof.
  intros _. unfold _handle_mqtt_msg.
  destruct (negb (existsb _ control_suffixes)).
  { cbn. repeat split. exists []. rewrite app_nil_r. split; [reflexivity|cbn; lia]. }
  unfold output_name_from_topic.
  destruct (re_match (topic_pattern (topic_prefix self)) 0 topic None)
    as [g1|].
  2:{ cbn. repeat split. exists []. rewrite app_nil_r.
      split; [reflexivity|cbn; lia]. }
  destruct (digital_output_configs self !! default "" g1) as [output_config|];
    [|cbn; repeat split; eauto].
  destruct (gpio_modules self !! oc_module output_config) as [module|];
    [|cbn; repeat split; eauto].
  destruct (endswith topic ("/" +:+ SET_TOPIC)).
  - destruct (module_output_queues self !! oc_module output_config) as [q|];
      [|cbn; repeat split; eauto].
    cbn. repeat split.
    + apply length_alter.
    + exists []. rewrite app_nil_r. split; [reflexivity|cbn; lia].
  - cbn. repeat split. eexists. split; [reflexivity|]. cbn. lia.
Qed.

Lemma handler_only_routes_witness :
  (let self := Demo.server in
   let tr := fst (_handle_mqtt_msg self "P/output/lamp/set_on_ms" "250") in
   actions tr = []
   /\ List.filter is_disconnect tr = []
   /\ match snd (_handle_mqtt_msg self "P/output/lamp/set_on_ms" "250") with
      | Ok self' =>
          topic_prefix self' = topic_prefix self
          /\ status_topic self' = status_topic self
          /\ status_payload_stopped self' = status_payload_stopped self
          /\ config_digital_outputs self' = config_digital_outputs self
          /\ digital_output_configs self' = digital_output_configs self
          /\ gpio_modules self' = gpio_modules self
          /\ module_output_queues self' = module_output_queues self
          /\ length (queues self') = length (queues self)
          /\ exists new,
               loop_tasks self' = loop_tasks self ++ new
               /\ (length new <= 1)%nat
      | Raise e => tr = [] /\ exists key, e = KeyError key
      end)
  /\ fst (_handle_mqtt_msg Demo.server "P/output/ghost/set" "ON") = []
  /\ exists key,
       snd (_handle_mqtt_msg Demo.server "P/output/ghost/set" "ON")
       = Raise (KeyError key).
Proof.
  split.
  - apply (handler_only_routes Demo.server "P/output/lamp/set_on_ms" "250").
    reflexivity.
  - pose proof (handler_only_routes Demo.server "P/output/ghost/set" "ON"
                  eq_refl) as (_ & _ & H).
    destruct (snd (_handle_mqtt_msg Demo.server "P/output/ghost/set" "ON"))
      as [self'|e] eqn:E; [vm_compute in E; discriminate E|].
    destruct H as (Htr & key & ->). split; [exact Htr|]. exists key.
    reflexivity.
Defined.

(** ** The receive loop as a whole *)

Lemma rx_finalizer_config (a b : MqttGpio) :
  topic_prefix a = topic_prefix b -> status_topic a = status_topic b ->
  status_payload_stopped a = status_payload_stopped b ->
  rx_finalizer a = rx_finalizer b.
Proof. intros H1 H2 H3. unfold rx_finalizer. rewrite H1, H2, H3. reflexivity. Qed.

Lemma filter_app_nil {A : Type} (f : A -> bool) (a b : list A) :
  List.filter f a = [] -> List.filter f b = [] -> List.filter f (a ++ b) = [].
Proof. intros Ha Hb. rewrite List.filter_app, Ha, Hb. reflexivity. Qed.

Lemma handle_raise (self : MqttGpio) (topic payload : string)
    (tr : list event) (e : exn) :
  _handle_mqtt_msg self topic payload = (tr, Raise e) ->
  tr = [] /\ exists key, e = KeyError key.
Proof.
  unfold _handle_mqtt_msg.
  destruct (negb (existsb _ control_suffixes)); [discriminate|].
  unfold output_name_from_topic.
  destruct (re_match (topic_pattern (topic_prefix self)) 0 topic None)
    as [g1|]; [|discriminate].
  destruct (digital_output_configs self !! default "" g1) as [output_config|];
    [|intros [= <- <-]; eauto].
  destruct (gpio_modules self !! oc_module output_config) as [module|];
    [|intros [= <- <-]; eauto].
  destruct (endswith topic ("/" +:+ SET_TOPIC)); [|discriminate].
  destruct (module_output_queues self !! oc_module output_config) as [q|];
    [discriminate|intros [= <- <-]; eauto].
Qed.

Lemma handler_quiet (self : MqttGpio) (topic payload : string) :
  List.filter is_disconnect (fst (_handle_mqtt_msg self topic payload)) = []
  /\ List.filter is_publish (fst (_handle_mqtt_msg self topic payload)) = [].
Proof.
  unfold _handle_mqtt_msg.
  destruct (negb (existsb _ control_suffixes)); [split; reflexivity|].
  destruct (output_name_from_topic topic (topic_prefix self)) as [n|[]];
    try (split; reflexivity).
  destruct (digital_output_configs self !! n) as [output_config|];
    [|split; reflexivity].
  destruct (gpio_modules self !! oc_module output_config) as [module|];
    [|split; reflexivity].
  destruct (endswith topic ("/" +:+ SET_TOPIC)); [|split; reflexivity].
  destruct (module_output_queues self !! oc_module output_config);
    split; reflexivity.
Qed.

Section DeliveredFacts.

Variable decode_utf8 : list Byte.byte -> option string.

(** On messages whose data is UTF-8 text, the loop is [_mqtt_rx_loop] on
    the decoded messages. *)
Lemma rx_loop_on_text (msgs : list (string * list Byte.byte))
    (texts : list (string * string)) :
  forall self,
    Forall2 (fun m t => fst m = fst t /\ decode_utf8 (snd m) = Some (snd t))
      msgs texts ->
    _mqtt_rx_loop_data decode_utf8 self msgs = _mqtt_rx_loop self texts.
Proof.
  intros self H. revert self.
  induction H as [|[topic data] [topic' payload] msgs texts [Ht Hd] _ IH];
    intros self; [reflexivity|].
  cbn [fst snd] in Ht, Hd. subst topic'.
  cbn [_mqtt_rx_loop_data _mqtt_rx_loop]. rewrite Hd.
  destruct (_handle_mqtt_msg self topic payload) as [tr [self'|e]];
    [|reflexivity].
  rewrite IH. reflexivity.
Qed.

(** The loop leaves the settings the [finally] block reads as they are. *)
Lemma rx_loop_config (msgs : list (string * list Byte.byte)) :
  forall self,
    rx_finalizer (snd (fst (_mqtt_rx_loop_data decode_utf8 self msgs)))
    = rx_finalizer self.
Proof.
  induction msgs as [|[topic data] msgs IH]; intros self; [reflexivity|].
  cbn [_mqtt_rx_loop_data].
  destruct (decode_utf8 data) as [payload|]; [|reflexivity].
  destruct (_handle_mqtt_msg self topic payload) as [tr0 [self1|e]] eqn:Hh;
    [|reflexivity].
  destruct (handle_config _ _ _ _ _ Hh) as (P & S & T).
  specialize (IH self1).
  destruct (_mqtt_rx_loop_data decode_utf8 self1 msgs) as [[tr1 self2] st].
  cbn [fst snd] in IH |- *. rewrite IH.
  apply rx_finalizer_config; assumption.
Qed.

Lemma rx_loop_app (msgs later : list (string * list Byte.byte)) :
  forall self,
    _mqtt_rx_loop_data decode_utf8 self (msgs ++ later)
    = match _mqtt_rx_loop_data decode_utf8 self msgs with
      | (tr, self', RxWaiting) =>
          let '(tr', self'', st) :=
            _mqtt_rx_loop_data decode_utf8 self' later in
          (tr ++ tr', self'', st)
      | (tr, self', RxEnded e) => (tr, self', RxEnded e)
      end.
Proof.
  induction msgs as [|[topic data] msgs IH]; intros self.
  - cbn [app _mqtt_rx_loop_data].
    destruct (_mqtt_rx_loop_data decode_utf8 self later) as [[tr' self''] st].
    reflexivity.
  - cbn [app _mqtt_rx_loop_data].
    destruct (decode_utf8 data) as [payload|]; [|reflexivity].
    destruct (_handle_mqtt_msg self topic payload) as [tr0 [self1|e]];
      [|reflexivity].
    rewrite IH.
    destruct (_mqtt_rx_loop_data decode_utf8 self1 msgs)
      as [[tr1 self2] [|e]]; [|reflexivity].
    destruct (_mqtt_rx_loop_data decode_utf8 self2 later) as [[tr2 self3] st].
    cbn [app]. rewrite app_assoc. reflexivity.
Qed.

End DeliveredFacts.

(** X10.  For a topic prefix in which no character but the dot is special
    in a pattern, the receive loop publishes and disconnects in its
    [finally] block and nowhere else.  While it waits for the next message
    it has published nothing and is connected; when it has ended, the
    exception that ended it is a [KeyError] out of the router or the
    [UnicodeDecodeError] of a payload that is not UTF-8, and the last
    things it did are the retained "stopped" status on the status topic
    and, after it, the one disconnect. *)
Theorem rx_loop_disconnects_at_its_end
    (decode_utf8 : list Byte.byte -> option string) (self : MqttGpio)
    (msgs : list (string * list Byte.byte)) :
  re_dotted (topic_prefix self) = true ->
  let tr := fst (fst (_mqtt_rx_loop_data decode_utf8 self msgs)) in
  match snd (_mqtt_rx_loop_data decode_utf8 self msgs) with
  | RxWaiting =>
      List.filter is_disconnect tr = [] /\ List.filter is_publish tr = []
  | RxEnded e =>
      ((exists key, e = KeyError key) \/ e = UnicodeDecodeError)
      /\ exists before,
           tr = before ++ rx_finalizer self
           /\ List.filter is_disconnect before = []
           /\ List.filter is_publish before = []
  end.
Proof.
  intros _. revert self.
  induction msgs as [|[topic data] msgs IH]; intros self.
  - split; reflexivity.
  - cbn [_mqtt_rx_loop_data].
    destruct (decode_utf8 data) as [payload|].
    2:{ cbn [fst snd]. split; [right; reflexivity|].
        exists []. repeat split. }
    pose proof (handler_quiet self topic payload) as [Hd Hp].
    destruct (_handle_mqtt_msg self topic payload) as [tr0 [self1|e]] eqn:Hh.
    + cbn [fst snd] in Hd, Hp.
      destruct (handle_config _ _ _ _ _ Hh) as (P & S & T).
      specialize (IH self1).
      destruct (_mqtt_rx_loop_data decode_utf8 self1 msgs) as [[tr1 self2] st].
      cbn [fst snd] in IH |- *. destruct st as [|e].
      * destruct IH as [Hd1 Hp1]. split.
        -- cbn [List.filter is_disconnect]. apply filter_app_nil; assumption.
        -- cbn [List.filter is_publish]. apply filter_app_nil; assumption.
      * destruct IH as (Hk & before & -> & Hd1 & Hp1).
        split; [exact Hk|].
        exists (EvLog INFO "Received message on topic %r: %r"
                  [VStr topic; VStr payload] :: tr0 ++ before).
        split.
        { rewrite (rx_finalizer_config self self1) by congruence.
          cbn [app]. rewrite app_assoc. reflexivity. }
        split.
        -- cbn [List.filter is_disconnect]. apply filter_app_nil; assumption.
        -- cbn [List.filter is_publish]. apply filter_app_nil; assumption.
    + cbn [fst snd] in Hd, Hp |- *.
      destruct (handle_raise _ _ _ _ _ Hh) as (_ & Hk).
      split; [left; exact Hk|].
      exists (EvLog INFO "Received message on topic %r: %r"
                [VStr topic; VStr payload] :: tr0).
      repeat split; assumption.
Qed.

Lemma rx_loop_disconnects_at_its_end_witness :
  _mqtt_rx_loop_data demo_decode Demo.server
    [("P/output/relay1/set", list_byte_of_string "ON");
     ("P/output/relay1/set", [Byte.xff; Byte.xfe]);
     ("P/output/lamp/set", list_byte_of_string "1")]
  = ([EvLog INFO "Received message on topic %r: %r"
        [VStr "P/output/relay1/set"; VStr "ON"];
      EvQueuePut 0 ("gpio", Demo.relay1, "ON");
      EvPublish "P/status" "stopped" (Some 1%Z) (Some true);
      EvLog INFO "Disconnecting from MQTT..." [];
      EvDisconnect;
      EvLog INFO "MQTT disconnected" []],
     put_nowait Demo.server 0 ("gpio", Demo.relay1, "ON"),
     RxEnded UnicodeDecodeError)
  /\ exists before,
       fst (fst (_mqtt_rx_loop_data demo_decode Demo.server
                   [("P/output/relay1/set", list_byte_of_string "ON");
                    ("P/output/relay1/set", [Byte.xff; Byte.xfe]);
                    ("P/output/lamp/set", list_byte_of_string "1")]))
       = before ++ rx_finalizer Demo.server
       /\ List.filter is_disconnect before = []
       /\ List.filter is_publish before = [].
Proof.
  split; [vm_compute; reflexivity|].
  pose proof (rx_loop_disconnects_at_its_end demo_decode Demo.server
                [("P/output/relay1/set", list_byte_of_string "ON");
                 ("P/output/relay1/set", [Byte.xff; Byte.xfe]);
                 ("P/output/lamp/set", list_byte_of_string "1")]
                eq_refl) as H.
  destruct (snd (_mqtt_rx_loop_data demo_decode Demo.server _))
    as [|e] eqn:E; [vm_compute in E; discriminate E|].
  exact (proj2 H).
Defined.

(** X11.  The receive loop takes the messages in the order of their
    delivery, each on the server the one before left, and the first
    failure ends it.  For a topic prefix in which no character but the dot
    is special in a pattern, and a loop that waits after the messages
    [msgs]: if the data of the next message is not UTF-8, the loop ends
    with the [UnicodeDecodeError], without a record of the message; if the
    router raises on it, the loop ends with the router's exception, after
    the record of the message; both times the [finally] block runs and the
    messages delivered later are never handled.  If the router returns,
    the loop waits again, on the server the router left. *)
Theorem rx_loop_stops_at_first_failure
    (decode_utf8 : list Byte.byte -> option string) (self self' : MqttGpio)
    (msgs later : list (string * list Byte.byte)) (tr : list event)
    (topic : string) (data : list Byte.byte) :
  re_dotted (topic_prefix self) = true ->
  _mqtt_rx_loop_data decode_utf8 self msgs = (tr, self', RxWaiting) ->
  (decode_utf8 data = None ->
   _mqtt_rx_loop_data decode_utf8 self (msgs ++ (topic, data) :: later)
   = (tr ++ rx_finalizer self, self', RxEnded UnicodeDecodeError))
  /\ (forall payload tr1 e,
        decode_utf8 data = Some payload ->
        _handle_mqtt_msg self' topic payload = (tr1, Raise e) ->
        _mqtt_rx_loop_data decode_utf8 self (msgs ++ (topic, data) :: later)
        = (tr ++ EvLog INFO "Received message on topic %r: %r"
                   [VStr topic; VStr payload] :: tr1 ++ rx_finalizer self,
           self', RxEnded e))
  /\ (forall payload tr1 self'',
        decode_utf8 data = Some payload ->
        _handle_mqtt_msg self' topic payload = (tr1, Ok self'') ->
        _mqtt_rx_loop_data decode_utf8 self (msgs ++ [(topic, data)])
        = (tr ++ EvLog INFO "Received message on topic %r: %r"
                   [VStr topic; VStr payload] :: tr1,
           self'', RxWaiting)).
Proof.
  intros _ Hw.
  pose proof (rx_loop_config decode_utf8 msgs self) as Hfin.
  rewrite Hw in Hfin. cbn [fst snd] in Hfin.
  split; [|split].
  - intros Hd. rewrite rx_loop_app, Hw. cbn [_mqtt_rx_loop_data].
    rewrite Hd, Hfin. reflexivity.
  - intros payload tr1 e Hd Hh. rewrite rx_loop_app, Hw.
    cbn [_mqtt_rx_loop_data]. rewrite Hd, Hh, Hfin. reflexivity.
  - intros payload tr1 self'' Hd Hh. rewrite rx_loop_app, Hw.
    cbn [_mqtt_rx_loop_data]. rewrite Hd, Hh. rewrite app_nil_r.
    reflexivity.
Qed.

Lemma rx_loop_stops_at_first_failure_witness :
  _mqtt_rx_loop_data demo_decode Demo.server
    ([("P/output/relay1/set", list_byte_of_string "ON")]
     ++ [("P/output/lamp/set", [Byte.xff]);
         ("P/output/lamp/set", list_byte_of_string "1")])
  = ([EvLog INFO "Received message on topic %r: %r"
        [VStr "P/output/relay1/set"; VStr "ON"];
      EvQueuePut 0 ("gpio", Demo.relay1, "ON")]
     ++ rx_finalizer Demo.server,
     put_nowait Demo.server 0 ("gpio", Demo.relay1, "ON"),
     RxEnded UnicodeDecodeError)
  /\ _mqtt_rx_loop_data demo_decode Demo.server
       ([("P/output/relay1/set", list_byte_of_string "ON")]
        ++ [("P/output/ghost/set", list_byte_of_string "ON");
            ("P/output/lamp/set", list_byte_of_string "1")])
     = ([EvLog INFO "Received message on topic %r: %r"
           [VStr "P/output/relay1/set"; VStr "ON"];
         EvQueuePut 0 ("gpio", Demo.relay1, "ON")]
        ++ EvLog INFO "Received message on topic %r: %r"
             [VStr "P/output/ghost/set"; VStr "ON"]
           :: [] ++ rx_finalizer Demo.server,
        put_nowait Demo.server 0 ("gpio", Demo.relay1, "ON"),
        RxEnded (KeyError "ghost")).
Proof.
  split.
  - destruct (rx_loop_stops_at_first_failure demo_decode Demo.server
                (put_nowait Demo.server 0 ("gpio", Demo.relay1, "ON"))
                [("P/output/relay1/set", list_byte_of_string "ON")]
                [("P/output/lamp/set", list_byte_of_string "1")]
                [EvLog INFO "Received message on topic %r: %r"
                   [VStr "P/output/relay1/set"; VStr "ON"];
                 EvQueuePut 0 ("gpio", Demo.relay1, "ON")]
                "P/output/lamp/set" [Byte.xff] eq_refl eq_refl)
      as (Hdecode & _).
    apply Hdecode. reflexivity.
  - destruct (rx_loop_stops_at_first_failure demo_decode Demo.server
                (put_nowait Demo.server 0 ("gpio", Demo.relay1, "ON"))
                [("P/output/relay1/set", list_byte_of_string "ON")]
                [("P/output/lamp/set", list_byte_of_string "1")]
                [EvLog INFO "Received message on topic %r: %r"
                   [VStr "P/output/relay1/set"; VStr "ON"];
                 EvQueuePut 0 ("gpio", Demo.relay1, "ON")]
                "P/output/ghost/set" (list_byte_of_string "ON")
                eq_refl eq_refl)
      as (_ & Hraise & _).
    apply (Hraise "ON" [] (KeyError "ghost")); reflexivity.
Defined.

(** ** More on the reaper *)

Lemma task_done_tracked (self : MqttGpio) (ts : list nat) (t : nat) :
  task_done (set_unawaited_tasks self ts) t = task_done self t.
Proof. reflexivity. Qed.

Lemma filter_done_pruned (self : MqttGpio) (l : list nat) :
  List.filter (task_done self)
    (List.filter (fun x => negb (task_done self x)) l) = [].
Proof.
  induction l as [|t l IH]; [reflexivity|].
  cbn [List.filter]. destruct (task_done self t) eqn:E; cbn [negb]; [exact IH|].
  cbn [List.filter]. rewrite E. exact IH.
Qed.

(** X12.  A finished task is reported once.  After a pass of the reaper
    that returned to the top of its loop, a pass made on the same task
    states finds nothing to do: it sleeps, logs nothing and leaves the
    tracked list as it is. *)
Theorem reaper_second_pass_is_quiet (cancelled_is_exception : bool)
    (self self' : MqttGpio) (tr : list event) :
  reaper_pass cancelled_is_exception self = (tr, Ok self') ->
  reaper_pass cancelled_is_exception self' = ([EvSleep (PyInt 1)], Ok self').
Proof.
  unfold reaper_pass at 1.
  destruct (List.filter (task_done self) (unawaited_tasks self))
    as [|t l] eqn:F.
  - intros [= <- <-]. unfold reaper_pass. rewrite F. reflexivity.
  - destruct (await_finished cancelled_is_exception self (t :: l))
      as [tr0 [e|]]; [discriminate|].
    intros [= <- <-]. unfold reaper_pass.
    cbn [unawaited_tasks set_unawaited_tasks].
    rewrite (filter_ext _ (task_done self)) by (intros; apply task_done_tracked).
    rewrite filter_done_pruned. reflexivity.
Qed.

Lemma reaper_second_pass_is_quiet_witness :
  reaper_pass false
    (set_unawaited_tasks Demo.busy [0; 3]%nat)
  = ([EvSleep (PyInt 1)], Ok (set_unawaited_tasks Demo.busy [0; 3]%nat)).
Proof.
  apply (reaper_second_pass_is_quiet false Demo.busy _
           [EvSleep (PyInt 1); exception_log 2]).
  reflexivity.
Defined.

Lemma await_finished_app (cancelled_is_exception : bool) (self : MqttGpio)
    (l1 l2 : list nat) :
  (forall t e, In t l1 -> task_state_of self t = Failed e ->
     is_Exception cancelled_is_exception e = true) ->
  await_finished cancelled_is_exception self (l1 ++ l2)
  = (map exception_log (List.filter (task_failed self) l1)
       ++ fst (await_finished cancelled_is_exception self l2),
     snd (await_finished cancelled_is_exception self l2)).
Proof.
  induction l1 as [|t l1 IH]; intros H.
  - cbn [app List.filter map]. destruct (await_finished _ self l2). reflexivity.
  - cbn [app await_finished List.filter]. unfold task_failed at 1.
    destruct (task_state_of self t) as [| |e] eqn:E; cbn [failed].
    + apply IH. intros t' e' Hin. apply H. right. exact Hin.
    + apply IH. intros t' e' Hin. apply H. right. exact Hin.
    + rewrite (H t e (or_introl eq_refl) E), IH
        by (intros t' e' Hin; apply H; right; exact Hin).
      reflexivity.
Qed.

(** X13.  What [except Exception] does not catch ends the reaper.  When
    one of the finished tasks ended with an exception that is not an
    instance of [Exception], the pass logs the failed tasks before that
    one and then raises its exception, the tasks after it not being looked
    at; with it [_remove_finished_tasks] is over, whatever the tasks do
    later. *)
Theorem reaper_ends_on_uncaught_exception (cancelled_is_exception : bool)
    (self : MqttGpio) (before after : list nat) (t : nat) (e : exn)
    (woken : MqttGpio) (env : MqttGpio -> MqttGpio)
    (progress : list (MqttGpio -> MqttGpio)) :
  env woken = self ->
  List.filter (task_done self) (unawaited_tasks self) = before ++ t :: after ->
  (forall t' e', In t' before -> task_state_of self t' = Failed e' ->
     is_Exception cancelled_is_exception e' = true) ->
  task_state_of self t = Failed e ->
  is_Exception cancelled_is_exception e = false ->
  let log := map exception_log (List.filter (task_failed self) before) in
  reaper_pass cancelled_is_exception self
  = (EvSleep (PyInt 1) :: log, Raise e)
  /\ _remove_finished_tasks cancelled_is_exception woken (env :: progress)
     = (EvSleep (PyInt 1) :: log, Raise e).
Proof.
  intros Henv F Hb Ht He log.
  assert (Hpass : reaper_pass cancelled_is_exception self
                  = (EvSleep (PyInt 1) :: log, Raise e)).
  { unfold reaper_pass. rewrite F.
    destruct (before ++ t :: after) as [|x l] eqn:E;
      [destruct before; discriminate|].
    rewrite <- E, await_finished_app by exact Hb.
    cbn [await_finished]. rewrite Ht, He. cbn [fst snd].
    rewrite app_nil_r. reflexivity. }
  split; [exact Hpass|].
  cbn [_remove_finished_tasks]. rewrite Henv, Hpass. reflexivity.
Qed.

Lemma reaper_ends_on_uncaught_exception_witness :
  reaper_pass false demo_cancelled
  = (EvSleep (PyInt 1) :: map exception_log
                            (List.filter (task_failed demo_cancelled) [1%nat]),
     Raise CancelledError)
  /\ _remove_finished_tasks false demo_cancelled [fun s => s; fun s => s]
     = (EvSleep (PyInt 1) :: map exception_log
                               (List.filter (task_failed demo_cancelled) [1%nat]),
        Raise CancelledError).
Proof.
  apply (reaper_ends_on_uncaught_exception false demo_cancelled
           [1%nat] [3%nat] 2 CancelledError demo_cancelled (fun s => s)
           [fun s => s]); try reflexivity.
  intros t' e' [<-|[]] [= <-]. reflexivity.
Defined.

(** ** The worker over a whole queue *)

Lemma loop_head_shrinks (content : list command) :
  forall tr pc' content',
    loop_head content = (tr, pc', content') ->
    match pc' with
    | WGet => content' = []
    | WSetPin _ => (length content' < length content)%nat
    | WPublish _ => False
    end.
Proof.
  induction content as [|[[module output_config] payload] content IH];
    intros tr pc' content'.
  - intros [= <- <- <-]. reflexivity.
  - cbn [loop_head].
    destruct (negb (valid_payload output_config payload)).
    + destruct (loop_head content) as [[tr0 pc0] rest0] eqn:E.
      intros [= <- <- <-]. specialize (IH _ _ _ eq_refl).
      destruct pc0; [exact IH|cbn [length]; lia|exact IH].
    + intros [= <- <- <-]. cbn [length]. lia.
Qed.

Lemma worker_run_idle (prefix : string) (n : nat) :
  worker_run prefix n WGet [] = ([], WGet, []).
Proof. destruct n; reflexivity. Qed.

(** From the head of its loop, the worker comes to rest once the queue is
    empty, having taken the turn of every command. *)
Lemma worker_run_from_head (prefix : string) (k : nat) :
  forall (content : list command) (n : nat) tr pc' content',
    (length content <= k)%nat ->
    loop_head content = (tr, pc', content') ->
    (2 * length content <= n)%nat ->
    worker_run prefix n pc' content'
    = (pending prefix pc' ++ flat_map (process prefix) content', WGet, []).
Proof.
  induction k as [|k IH]; intros content n tr pc' content' Hk Hh Hn.
  - destruct content; [|cbn [length] in Hk; lia].
    injection Hh as <- <- <-. apply worker_run_idle.
  - pose proof (loop_head_shrinks _ _ _ _ Hh) as Hs.
    destruct pc' as [|[[module output_config] payload]|c]; [| |destruct Hs].
    + subst content'. apply worker_run_idle.
    + destruct n as [|[|n]]; [cbn [length] in *; lia..|].
      cbn [worker_run worker_step pending].
      destruct (loop_head content') as [[tr1 pc1] rest1] eqn:E.
      rewrite (IH content' n tr1 pc1 rest1) by (try exact E; lia).
      rewrite (loop_head_turns prefix content' _ _ _ E).
      cbn [app]. reflexivity.
Qed.

(** X14.  Left alone with its queue, [digital_output_loop] drains it.  From
    its [queue.get()], within two schedulings for each command and one
    more, the worker is back in [queue.get()] on an empty queue, and what
    it did is the turn of every command, in the order of the queue: a
    warning for a payload it rejects, the write and the publish for one
    it accepts.  No command is skipped, none is taken twice. *)
Theorem worker_drains_its_queue (topic_prefix : string)
    (queue : list command) (n : nat) :
  (2 * length queue + 1 <= n)%nat ->
  worker_run topic_prefix n WGet queue
  = (flat_map (process topic_prefix) queue, WGet, []).
Proof.
  intros Hn. destruct queue as [|c queue]; [apply worker_run_idle|].
  destruct n as [|n]; [lia|].
  cbn [worker_run worker_step].
  destruct (loop_head (c :: queue)) as [[tr pc'] content'] eqn:E.
  rewrite (worker_run_from_head topic_prefix (length (c :: queue))
             (c :: queue) n tr pc' content') by (try exact E; lia).
  rewrite (loop_head_turns topic_prefix (c :: queue) _ _ _ E). reflexivity.
Qed.

Lemma worker_drains_its_queue_witness :
  worker_run "P" 5 WGet
    [("gpio", Demo.relay1, "toggle"); ("gpio", Demo.lamp, "1")]
  = (flat_map (process "P")
       [("gpio", Demo.relay1, "toggle"); ("gpio", Demo.lamp, "1")],
     WGet, []).
Proof.
  apply (worker_drains_its_queue "P"
           [("gpio", Demo.relay1, "toggle"); ("gpio", Demo.lamp, "1")] 5).
  cbn [length]. lia.
Defined.

(** X15.  The off-payload.  A command that carries the output's
    off-payload makes the worker write [False != inverted], that is the
    [inverted] flag itself, and echo the payload with the output's retain
    flag, provided the two payloads differ; an output configured with the
    same text for both is switched on by it: the comparison with the
    on-payload comes first. *)
Theorem set_off_payload (topic_prefix : string) (module : gpio_module)
    (output_config : out_conf) (rest : list command) :
  let payload := oc_off_payload output_config in
  let c := (module, output_config, payload) in
  let same := String.eqb payload (oc_on_payload output_config) in
  worker_run topic_prefix 2 WGet (c :: rest)
  = ([EvQueueGet c;
      EvSetPin module (oc_pin output_config)
        (xorb same (oc_inverted output_config));
      set_pin_log output_config same;
      publish_output topic_prefix output_config payload],
     WPublish c, rest)
  /\ (oc_off_payload output_config <> oc_on_payload output_config ->
      actions (process topic_prefix c)
      = [EvSetPin module (oc_pin output_config) (oc_inverted output_config);
         publish_output topic_prefix output_config payload])
  /\ (oc_off_payload output_config = oc_on_payload output_config ->
      actions (process topic_prefix c)
      = [EvSetPin module (oc_pin output_config)
           (negb (oc_inverted output_config));
         publish_output topic_prefix output_config payload]).
Proof.
  intros payload c same.
  assert (Hv : valid_payload output_config payload = true).
  { unfold valid_payload, payload. rewrite String.eqb_refl. apply orb_true_r. }
  split; [|split].
  - cbn [worker_run worker_step]. unfold c.
    rewrite loop_head_valid by exact Hv.
    cbn [worker_run worker_step app]. reflexivity.
  - intros Hne. unfold c, process. rewrite Hv. cbn [negb].
    unfold set_digital_output, set_pin_call, set_value.
    apply String.eqb_neq in Hne. fold payload in Hne. rewrite Hne.
    reflexivity.
  - intros He. unfold c, process. rewrite Hv. cbn [negb].
    unfold set_digital_output, set_pin_call, set_value.
    apply String.eqb_eq in He. fold payload in He. rewrite He.
    destruct (oc_inverted output_config); reflexivity.
Qed.

Lemma set_off_payload_witness :
  actions (process "P" ("gpio", Demo.lamp, "0"))
  = [EvSetPin "gpio" (PinNum 17) true;
     publish_output "P" Demo.lamp "0"].
Proof.
  apply (proj1 (proj2 (set_off_payload "P" "gpio" Demo.lamp []))).
  discriminate.
Defined.

(** ** Nothing is lost between the router and the workers *)

(** X16.  No command is lost or repeated on its way through a module
    queue.  In any execution of the started server, whatever the order in
    which the scheduler runs the router and the workers: whenever a
    worker's queue is empty and the worker is not in the middle of a turn,
    what the worker did so far is exactly the turns of the commands the
    router put on its queue, in the order in which it put them. *)
Theorem no_command_is_lost
    (prefix status stopped : string) (modules : list string)
    (outputs : list out_conf) (s0 s : Serial.system)
    (h : list (Serial.label * list event)) (t q : nat) :
  Serial.booted prefix status stopped modules outputs s0 ->
  Serial.run s0 h s ->
  Serial.is_worker (Serial.server s) t q ->
  queues (Serial.server s) !! q = Some [] ->
  pending prefix (Serial.pc_of s t) = [] ->
  Serial.trace_of t h = flat_map (process prefix) (Serial.puts_of q h).
Proof.
  intros Hb Hrun Hw Hq Hp.
  pose proof (run_inv prefix s0 s h (booted_inv _ _ _ _ _ _ Hb) Hrun)
    as (_ & _ & _ & _ & Hinv).
  specialize (Hinv t q [] Hw Hq). rewrite Hp in Hinv.
  cbn [flat_map app] in Hinv. rewrite app_nil_r in Hinv. exact Hinv.
Qed.

Lemma demo_drained_run : Serial.run Demo.s0 demo_drained demo_written.
Proof.
  apply (Serial.run_snoc Demo.s0 (firstn 2 demo_drained) demo_writing).
  - apply (Serial.run_snoc Demo.s0 (firstn 1 demo_drained) Demo.s1).
    + apply (Serial.run_snoc Demo.s0 [] Demo.s0); [constructor|].
      apply (Serial.step_msg Demo.s0). vm_compute. reflexivity.
    + apply (Serial.step_worker Demo.s1 0 0 [Demo.relay_on]);
        vm_compute; reflexivity.
  - apply (Serial.step_worker demo_writing 0 0 []); vm_compute; reflexivity.
Qed.

Lemma no_command_is_lost_witness :
  Serial.trace_of 0 demo_drained
  = flat_map (process "P") (Serial.puts_of 0 demo_drained).
Proof.
  apply (no_command_is_lost "P" "status" "stopped" ["gpio"]
           [Demo.relay1; Demo.lamp] Demo.s0 demo_written demo_drained 0 0
           demo_booted demo_drained_run);
    vm_compute; reflexivity.
Defined.

(** ** Sensor readings *)

(** X17.  [poll_sensor] fires one [SensorReadEvent] for each reading that
    is not [None], in the order of the readings, carrying the sensor's
    name and the reading rounded to the configured digits; and it sleeps
    for the configured interval once per reading asked for, a reading of
    [None] included. *)
Theorem poll_sensor_fires_per_reading (py_round : pynum -> Z -> pynum)
    (sensor_module : string) (sc : sens_conf)
    (values : list (option pynum)) :
  List.filter is_fire (poll_sensor py_round sensor_module sc values)
  = map (fun v => EvFire (SensorReadEvent (sc_name sc)
                            (py_round v (sc_digits sc))))
      (omap id values)
  /\ List.filter is_sleep (poll_sensor py_round sensor_module sc values)
     = repeat (EvSleep (sc_interval sc)) (length values).
Proof.
  induction values as [|v values [IHf IHs]]; [split; reflexivity|].
  cbn [poll_sensor]. rewrite !List.filter_app, IHf, IHs.
  destruct v as [v|]; split; reflexivity.
Qed.

(** ** Leaving [run] *)

Lemma cleanup_modules_all (cancelled_is_exception : bool) (fmt : string)
    (modules : list (string * option exn)) :
  (forall m e, In (m, Some e) modules ->
     is_Exception cancelled_is_exception e = true) ->
  snd (cleanup_modules cancelled_is_exception fmt modules) = None
  /\ List.filter is_cleanup
       (fst (cleanup_modules cancelled_is_exception fmt modules))
     = map (fun x => Cleanup (fst x)) modules
  /\ List.filter is_exception_record
       (fst (cleanup_modules cancelled_is_exception fmt modules))
     = map (fun x => Exit (EvLog EXCEPTION fmt [VStr (fst x)]))
         (List.filter cleanup_fails modules).
Proof.
  induction modules as [|[m [e|]] modules IH]; intros H.
  - repeat split.
  - cbn [cleanup_modules].
    rewrite (H m e (or_introl eq_refl)).
    destruct IH as (I1 & I2 & I3); [intros; eapply H; right; eassumption|].
    destruct (cleanup_modules _ fmt modules) as [tr r].
    cbn [fst snd] in *. repeat split; [exact I1|..].
    + cbn [List.filter is_cleanup map fst]. rewrite I2. reflexivity.
    + cbn [List.filter is_exception_record cleanup_fails map fst snd].
      rewrite I3. reflexivity.
  - cbn [cleanup_modules].
    destruct IH as (I1 & I2 & I3); [intros; eapply H; right; eassumption|].
    destruct (cleanup_modules _ fmt modules) as [tr r].
    cbn [fst snd] in *. repeat split; [exact I1|..].
    + cbn [List.filter is_cleanup map fst]. rewrite I2. reflexivity.
    + cbn [List.filter is_exception_record cleanup_fails map fst snd].
      exact I3.
Qed.

(** X18.  On the way out of [run], a module whose [cleanup()] fails does
    not keep the others from theirs.  When the failures are instances of
    [Exception], the loop is closed first, then [cleanup()] is called once
    on every GPIO module and after them once on every sensor module, in
    the order of the dicts; each failure is logged and passed over; and
    what leaves [run] in the end is what left [run_forever]: nothing, or
    its exception. *)
Theorem every_module_is_cleaned_up (cancelled_is_exception : bool)
    (forever : option exn)
    (gpio_modules sensor_modules : list (string * option exn)) :
  (forall m e, In (m, Some e) (gpio_modules ++ sensor_modules) ->
     is_Exception cancelled_is_exception e = true) ->
  let tr :=
    fst (run_exit cancelled_is_exception forever gpio_modules sensor_modules) in
  head tr = Some LoopClose
  /\ List.filter is_cleanup tr
     = map (fun x => Cleanup (fst x)) (gpio_modules ++ sensor_modules)
  /\ length (List.filter is_exception_record tr)
     = length (List.filter cleanup_fails (gpio_modules ++ sensor_modules))
  /\ snd (run_exit cancelled_is_exception forever gpio_modules sensor_modules)
     = forever.
Proof.
  intros H tr. subst tr. unfold run_exit.
  destruct (cleanup_modules_all cancelled_is_exception
              "Exception while cleaning up gpio module %s" gpio_modules)
    as (G1 & G2 & G3);
    [intros m e Hin; apply (H m e), in_or_app; left; exact Hin|].
  destruct (cleanup_modules_all cancelled_is_exception
              "Exception while cleaning up sensor module %s" sensor_modules)
    as (S1 & S2 & S3);
    [intros m e Hin; apply (H m e), in_or_app; right; exact Hin|].
  destruct (cleanup_modules _ _ gpio_modules) as [tr1 r1].
  destruct (cleanup_modules _ _ sensor_modules) as [tr2 r2].
  cbn [fst snd] in *. subst r1 r2.
  apply (f_equal length) in G3, S3. rewrite length_map in G3, S3.
  rewrite map_app, List.filter_app, length_app, <- G2, <- S2, <- G3, <- S3.
  destruct forever as [e|];
    cbn [fst snd app head List.filter is_cleanup is_exception_record];
    rewrite !List.filter_app;
    cbn [List.filter is_cleanup is_exception_record];
    rewrite ?app_nil_r, ?length_app; repeat split.
Qed.

Lemma every_module_is_cleaned_up_witness :
  let tr :=
    fst (run_exit false None
           [("gpio", Some (OtherException "RuntimeError('busy')"));
            ("expander", None)]
           [("dht22", None)]) in
  head tr = Some LoopClose
  /\ List.filter is_cleanup tr
     = map (fun x => Cleanup (fst x))
         ([("gpio", Some (OtherException "RuntimeError('busy')"));
           ("expander", None)] ++ [("dht22", None)])
  /\ length (List.filter is_exception_record tr)
     = length (List.filter cleanup_fails
                 ([("gpio", Some (OtherException "RuntimeError('busy')"));
                   ("expander", None)] ++ [("dht22", None)]))
  /\ snd (run_exit false None
            [("gpio", Some (OtherException "RuntimeError('busy')"));
             ("expander", None)]
            [("dht22", None)])
     = None.
Proof.
  apply (every_module_is_cleaned_up false None
           [("gpio", Some (OtherException "RuntimeError('busy')"));
            ("expander", None)]
           [("dht22", None)]).
  intros m e [[= <- <-]|[[=]|[[=]|[]]]]. reflexivity.
Defined.

(** ** The end of [shutdown] *)

Lemma filter_none {A : Type} (P : A -> bool) (l : list A) :
  existsb P l = false -> List.filter P l = [].
Proof.
  induction l as [|a l IH]; [reflexivity|].
  cbn [existsb List.filter]. intros H. apply orb_false_elim in H as [Ha Hl].
  rewrite Ha. apply IH, Hl.
Qed.

(** What a step can add to the history: only a step of a shutdown task
    that is not done cancels tasks or stops the loop, and the one that
    stops the loop does it once and cancels nothing. *)
Lemma step_emits (s s' : loop_state) (o : list obs) :
  step s o s' ->
  (existsb is_stop o = false /\ existsb is_cancel o = false)
  \/ exists i x pc,
       all_tasks s !! i = Some x /\ t_done x = false
       /\ t_code x = ShutdownTask pc
       /\ (existsb is_stop o = false
           \/ (List.filter is_stop o = [ObsStop]
               /\ existsb is_cancel o = false)).
Proof.
  intros Hstep.
  destruct Hstep;
    try (left; rewrite ?existsb_app, ?existsb_effects by reflexivity;
         split; reflexivity).
  - right. exists i, x, (SdCreated sig). repeat split; try assumption.
    left. cbn [existsb is_stop]. rewrite existsb_app, existsb_cancels.
    cbn. clear. induction (main_tasks s); [reflexivity|assumption].
  - right. exists i, x, (SdWaitMain true). repeat split; try assumption.
    left. cbn [existsb is_stop]. rewrite existsb_app, existsb_cancels.
    cbn. clear. induction tasks; [reflexivity|assumption].
  - right. exists i, x, (SdWaitRest tasks true). repeat split; try assumption.
    right. split; reflexivity.
Qed.

Section ShutdownEnd.

Variables (s0 : loop_state) (rx rp sd : nat).

Lemma pending_shutdown_no_stop (h : list obs) (s : loop_state) (i : nat)
    (x : task) (pc : shutdown_pc) :
  shape s0 rx rp sd h s -> phase rx rp sd h s ->
  all_tasks s !! i = Some x -> t_done x = false ->
  t_code x = ShutdownTask pc ->
  existsb is_stop h = false.
Proof.
  intros (_ & _ & Hroles & _) Hph Hi Hd Hc.
  pose proof (roles_sd _ _ _ _ _ _ _ Hroles Hi Hc) as ->.
  unfold phase in Hph. rewrite Hi, Hc in Hph.
  destruct pc as [sg|b|tasks b]; tauto.
Qed.

Lemma stopped_state (h : list obs) (s : loop_state) :
  phase rx rp sd h s -> existsb is_stop h = true ->
  is_done (all_tasks s) sd = true
  /\ is_done (all_tasks s) rx = true /\ is_done (all_tasks s) rp = true.
Proof.
  intros Hph Hs. unfold is_done at 1. unfold phase in Hph.
  destruct (all_tasks s !! sd) as [x|]; [|contradiction].
  destruct (t_code x) as [| |[sg|b|tasks b]|]; try contradiction.
  - destruct Hph as (_ & _ & H). congruence.
  - destruct Hph as (_ & _ & _ & _ & H & _). congruence.
  - destruct Hph as (Hrx & Hrp & _ & _ & _ & _ & H).
    destruct (t_done x); [repeat split; assumption|].
    destruct (H eq_refl) as [H' _]. congruence.
Qed.

End ShutdownEnd.

(** X19.  [loop.stop()] is the last thing [shutdown] does.  In every
    execution after one signal: the loop is stopped at most once; every
    cancellation comes before the stop; and once the loop has been
    stopped, the shutdown task and the two primary tasks are done. *)
Theorem loop_is_stopped_last (s0 s : loop_state) (rx rp sd : nat)
    (sig : string) (h : list obs) :
  signalled s0 rx rp sd sig -> run s0 h s ->
  length (List.filter is_stop h) <= 1
  /\ (forall h1 c h2, h = h1 ++ c :: h2 -> is_cancel c = true ->
        existsb is_stop h1 = false)
  /\ (existsb is_stop h = true ->
        is_done (all_tasks s) sd = true
        /\ is_done (all_tasks s) rx = true
        /\ is_done (all_tasks s) rp = true).
Proof.
  intros Hsig Hrun.
  split; [|split].
  - induction Hrun as [s|s h s' o s'' Hrun IH Hstep]; [cbn; lia|].
    destruct (run_invariants _ _ _ _ _ _ _ Hsig Hrun) as (Hsh & Hph & _).
    specialize (IH Hsig). rewrite List.filter_app, length_app.
    destruct (step_emits _ _ _ Hstep)
      as [[Ho _]|(i & x & pc & Hi & Hd & Hc & [Ho|[Ho _]])].
    + rewrite (filter_none _ _ Ho). cbn [length]. lia.
    + rewrite (filter_none _ _ Ho). cbn [length]. lia.
    + rewrite Ho, (filter_none _ h); [cbn [length]; lia|].
      eapply pending_shutdown_no_stop; eassumption.
  - induction Hrun as [s|s h s' o s'' Hrun IH Hstep].
    + intros [|? ?] c h2 [=].
    + intros h1 c h2 Heq Hc. specialize (IH Hsig).
      destruct (run_invariants _ _ _ _ _ _ _ Hsig Hrun) as (Hsh & Hph & _).
      apply app_eq_app in Heq as (k & [[Hh Hk]|[-> Hk]]).
      * destruct k as [|c' k].
        -- rewrite app_nil_r in Hh. cbn [app] in Hk. subst o h1.
           destruct (step_emits _ _ _ Hstep)
             as [[_ Ho]|(i & x & pc & Hi & Hd & Hx & _)].
           ++ cbn [existsb] in Ho. rewrite Hc in Ho. discriminate.
           ++ eapply pending_shutdown_no_stop; eassumption.
        -- injection Hk as <- ->. eapply IH; [exact Hh|exact Hc].
      * rewrite existsb_app.
        destruct (step_emits _ _ _ Hstep)
          as [[_ Ho]|(i & x & pc & Hi & Hd & Hx & [Ho|[_ Ho]])].
        -- subst o. rewrite existsb_app in Ho. cbn [existsb] in Ho.
           rewrite Hc, orb_true_r in Ho. discriminate.
        -- rewrite (pending_shutdown_no_stop _ _ _ _ _ _ _ _ _ Hsh Hph Hi Hd Hx).
           subst o. rewrite existsb_app in Ho.
           apply orb_false_elim in Ho as [Ho _]. exact Ho.
        -- subst o. rewrite existsb_app in Ho. cbn [existsb] in Ho.
           rewrite Hc, orb_true_r in Ho. discriminate.
  - intros Hs.
    destruct (run_invariants _ _ _ _ _ _ _ Hsig Hrun) as (_ & Hph & _).
    eapply stopped_state; eassumption.
Qed.

Lemma loop_is_stopped_last_witness :
  length (List.filter is_stop Demo.shutdown_history) <= 1.
Proof.
  destruct demo_shutdown_run as [s Hrun].
  exact (proj1 (loop_is_stopped_last Demo.loop0 s 0 1 3 "SIGTERM"
                  Demo.shutdown_history demo_signalled Hrun)).
Defined.

(** ** What the router acts on *)

Lemma output_name_shape (prefix topic name : string) :
  re_plain prefix = true ->
  output_name_from_topic topic prefix = Ok name ->
  exists rest,
    topic = prefix +:+ "/" +:+ OUTPUT_TOPIC +:+ "/" +:+ name +:+ "/" +:+ rest
    /\ to_end rest = true.
Proof.
  intros Hp. unfold output_name_from_topic.
  rewrite topic_pattern_literal by exact Hp.
  unfold literal_pattern, after_prefix. cbn [re_match Nat.eqb].
  destruct (strip_prefix prefix topic) as [s1|] eqn:E1; [|discriminate].
  apply strip_prefix_Some in E1.
  destruct (strip_prefix "/" s1) as [s2|] eqn:E2; [|discriminate].
  apply strip_prefix_Some in E2.
  destruct (strip_prefix OUTPUT_TOPIC s2) as [s3|] eqn:E3; [|discriminate].
  apply strip_prefix_Some in E3.
  destruct (strip_prefix "/" s3) as [s4|] eqn:E4; [|discriminate].
  apply strip_prefix_Some in E4.
  destruct (lazy_dot_plus _ _ s4 "") as [m|] eqn:E; [|discriminate].
  apply lazy_sound in E as (n & rest & Hs & _ & _ & Ht & -> & _).
  intros [= <-]. exists rest. subst. split; [reflexivity|exact Ht].
Qed.

(** X20.  The router acts on the output the topic names, and on no other.
    Whenever [_handle_mqtt_msg] puts a command on a queue or creates a
    pulse task, the topic is [<prefix>/output/<name>/<rest>], the command
    or the task is for the entry the dict of outputs has under that name,
    with the module object of that entry and the payload as it was
    received; a topic that ends in [/set] goes to the queue of the entry's
    module, any other one makes a pulse, which starts "on" exactly when the
    topic ends in [/set_on_ms].  In every other case in which it returns,
    it has left the server as it was. *)
Theorem router_acts_on_named_output (self self' : MqttGpio)
    (topic payload : string) (tr : list event) :
  re_plain (topic_prefix self) = true ->
  _handle_mqtt_msg self topic payload = (tr, Ok self') ->
  self' = self
  \/ exists name rest output_config module,
       topic = topic_prefix self +:+ "/" +:+ OUTPUT_TOPIC +:+ "/" +:+ name
               +:+ "/" +:+ rest
       /\ digital_output_configs self !! name = Some output_config
       /\ gpio_modules self !! oc_module output_config = Some module
       /\ if endswith topic ("/" +:+ SET_TOPIC) then
            exists q,
              module_output_queues self !! oc_module output_config = Some q
              /\ tr = [EvQueuePut q (module, output_config, payload)]
              /\ self' = put_nowait self q (module, output_config, payload)
          else
            tr = []
            /\ self' = spawn_unawaited self
                         (CoSetMs module output_config
                            (endswith topic ("/" +:+ SET_ON_MS_TOPIC)) payload).
Proof.
  intros Hp. unfold _handle_mqtt_msg.
  destruct (negb (existsb _ control_suffixes)); [intros [= _ <-]; left; reflexivity|].
  destruct (output_name_from_topic topic (topic_prefix self)) as [name|e] eqn:En.
  2:{ destruct e; try discriminate. intros [= _ <-]. left. reflexivity. }
  destruct (output_name_shape _ _ _ Hp En) as (rest & Ht & _).
  destruct (digital_output_configs self !! name) as [output_config|] eqn:Ec;
    [|discriminate].
  destruct (gpio_modules self !! oc_module output_config) as [module|] eqn:Em;
    [|discriminate].
  destruct (endswith topic ("/" +:+ SET_TOPIC)) eqn:Es.
  - destruct (module_output_queues self !! oc_module output_config) as [q|] eqn:Eq;
      [|discriminate].
    intros [= <- <-]. right. exists name, rest, output_config, module.
    split; [exact Ht|]. split; [exact Ec|]. split; [exact Em|].
    exists q. repeat split. exact Eq.
  - intros [= <- <-]. right. exists name, rest, output_config, module.
    split; [exact Ht|]. split; [exact Ec|]. split; [exact Em|].
    split; reflexivity.
Qed.

Lemma router_acts_on_named_output_witness :
  spawn_unawaited Demo.server (CoSetMs "gpio" Demo.lamp false "250")
  = Demo.server
  \/ exists name rest output_config module,
       "P/output/lamp/set_off_ms"
       = "P" +:+ "/" +:+ OUTPUT_TOPIC +:+ "/" +:+ name +:+ "/" +:+ rest
       /\ digital_output_configs Demo.server !! name = Some output_config
       /\ gpio_modules Demo.server !! oc_module output_config = Some module
       /\ @nil event = []
       /\ spawn_unawaited Demo.server (CoSetMs "gpio" Demo.lamp false "250")
          = spawn_unawaited Demo.server
              (CoSetMs module output_config false "250").
Proof.
  apply (router_acts_on_named_output Demo.server _ "P/output/lamp/set_off_ms"
           "250" []); vm_compute; reflexivity.
Defined.

(** ** Digital inputs *)

(** The loop on its own. *)
Lemma init_inputs_loop_ok (confs : list in_conf) :
  forall self tr self',
    init_inputs_loop self confs = (tr, Ok self') ->
    (exists modules,
       Forall2 (fun c module => gpio_modules self !! ic_module c = Some module)
         confs modules
       /\ tr = concat (zip_with input_setup confs modules))
    /\ loop_tasks self'
       = loop_tasks self ++ replicate (length confs) (input_poller, Pending)
    /\ unawaited_tasks self'
       = unawaited_tasks self ++ seq (length (loop_tasks self)) (length confs)
    /\ queues self' = queues self
    /\ topic_prefix self' = topic_prefix self.
Proof.
  induction confs as [|c confs IH]; intros self tr self'.
  - intros [= <- <-]. cbn. rewrite !app_nil_r. repeat split.
    exists []. split; [constructor|reflexivity].
  - cbn [init_inputs_loop].
    destruct (gpio_modules self !! ic_module c) as [module|] eqn:Hm;
      [|discriminate].
    destruct (init_inputs_loop (spawn_unawaited self input_poller) confs)
      as [tr1 r1] eqn:E.
    intros [= <- ->].
    destruct (IH _ _ _ E) as ((modules & HF & ->) & Ht & Hu & Hq & Hp).
    cbn [gpio_modules loop_tasks unawaited_tasks queues topic_prefix
           spawn_unawaited] in HF, Ht, Hu, Hq, Hp.
    split; [|split; [|split; [|split]]].
    + exists (module :: modules). split; [constructor; assumption|reflexivity].
    + rewrite Ht. cbn [length replicate]. rewrite <- app_assoc. reflexivity.
    + rewrite Hu, length_app. cbn [length seq].
      rewrite <- app_assoc, Nat.add_1_r. reflexivity.
    + exact Hq.
    + exact Hp.
Qed.

(** X21.  When [_init_digital_inputs] returns, it has subscribed its
    publish callback and then, for every entry of
    [config["digital_inputs"]] in the order of the configuration, set the
    pin up as an input on the module object the entry names, with the pull
    the entry asks for, and created its poller task.  Every poller is a
    new task appended to the tracked tasks, so that the reaper sees it; no
    queue is touched. *)
Theorem init_inputs_sets_up_every_input (self self' : MqttGpio)
    (digital_inputs : list in_conf) (tr : list input_event)
    (digital_input_configs : gmap string in_conf) :
  _init_digital_inputs self digital_inputs
  = (tr, Ok (self', digital_input_configs)) ->
  (exists modules,
     Forall2 (fun c module => gpio_modules self !! ic_module c = Some module)
       digital_inputs modules
     /\ tr = BusSubscribe
             :: concat (zip_with input_setup digital_inputs modules))
  /\ loop_tasks self'
     = loop_tasks self
       ++ replicate (length digital_inputs) (input_poller, Pending)
  /\ unawaited_tasks self'
     = unawaited_tasks self
       ++ seq (length (loop_tasks self)) (length digital_inputs)
  /\ queues self' = queues self.
Proof.
  unfold _init_digital_inputs.
  destruct (init_inputs_loop self digital_inputs) as [tr1 [self1|e]] eqn:E;
    [|discriminate].
  intros [= <- <- <-].
  destruct (init_inputs_loop_ok _ _ _ _ E)
    as ((modules & HF & ->) & Ht & Hu & Hq & _).
  split; [exists modules; split; [exact HF|reflexivity]|].
  split; [exact Ht|]. split; [exact Hu|exact Hq].
Qed.

Lemma init_inputs_sets_up_every_input_witness :
  exists modules,
    Forall2 (fun c module =>
               gpio_modules Demo.server !! ic_module c = Some module)
      [demo_button; demo_door] modules
    /\ [BusSubscribe;
        SetupPin "gpio" (PinNum 22) INPUT (Some PUD_UP) "button";
        CreatePoller "gpio" demo_button;
        SetupPin "gpio" (PinNum 23) INPUT None "door";
        CreatePoller "gpio" demo_door]
       = BusSubscribe
         :: concat (zip_with input_setup [demo_button; demo_door] modules).
Proof.
  apply (init_inputs_sets_up_every_input Demo.server
           (spawn_unawaited (spawn_unawaited Demo.server input_poller)
              input_poller)
           [demo_button; demo_door] _ (inputs_by_name [demo_button; demo_door])).
  vm_compute. reflexivity.
Defined.

Lemma inputs_fold_lookup (l : list in_conf) :
  forall (d : gmap string in_conf) n,
    fold_left (fun d x => <[ic_name x := x]> d) l d !! n
    = match last (List.filter (fun x => String.eqb (ic_name x) n) l) with
      | Some x => Some x
      | None => d !! n
      end.
Proof.
  induction l as [|x l IH]; intros d n; [reflexivity|].
  cbn [fold_left List.filter]. rewrite IH.
  destruct (String.eqb_spec (ic_name x) n) as [E|E].
  - destruct (List.filter _ l) as [|y l'] eqn:F.
    + cbn [last]. rewrite <- E. apply lookup_insert_eq.
    + rewrite last_cons_cons. destruct (last (y :: l')) eqn:L; [reflexivity|].
      apply last_None in L. discriminate.
  - destruct (last (List.filter _ l)); [reflexivity|].
    apply lookup_insert_ne. exact E.
Qed.

(** X22.  Once [_init_digital_inputs] has returned, the publish callback
    never fails on an event of a configured input: for the name of any
    entry of [config["digital_inputs"]] it publishes one message on
    [<prefix>/input/<name>], without [qos] or [retain], whose payload is
    the on- or off-payload, by the value of the event, of the last entry
    configured under that name.  For a name that is not configured it
    raises [KeyError] and publishes nothing. *)
Theorem input_status_is_published (self self' : MqttGpio)
    (digital_inputs : list in_conf) (tr : list input_event)
    (digital_input_configs : gmap string in_conf) (to_value : bool) :
  _init_digital_inputs self digital_inputs
  = (tr, Ok (self', digital_input_configs)) ->
  (forall c, In c digital_inputs ->
     exists c',
       last (List.filter (fun x => String.eqb (ic_name x) (ic_name c))
               digital_inputs) = Some c'
       /\ publish_callback digital_input_configs (topic_prefix self')
            (ic_name c) to_value
          = ([EvPublish (topic_prefix self +:+ "/input/" +:+ ic_name c)
                (if to_value then ic_on_payload c' else ic_off_payload c')
                None None], None))
  /\ (forall input_name,
        (forall c, In c digital_inputs -> ic_name c <> input_name) ->
        publish_callback digital_input_configs (topic_prefix self')
          input_name to_value
        = ([], Some (KeyError input_name))).
Proof.
  unfold _init_digital_inputs.
  destruct (init_inputs_loop self digital_inputs) as [tr1 [self1|e]] eqn:E;
    [|discriminate].
  intros [= <- <- <-].
  destruct (init_inputs_loop_ok _ _ _ _ E) as (_ & _ & _ & _ & Hp).
  split.
  - intros c Hc. unfold publish_callback, inputs_by_name.
    rewrite inputs_fold_lookup.
    destruct (last (List.filter _ digital_inputs)) as [c'|] eqn:L.
    + exists c'. split; [reflexivity|]. rewrite Hp. reflexivity.
    + exfalso. apply last_None in L.
      assert (In c (List.filter (fun x => String.eqb (ic_name x) (ic_name c))
                      digital_inputs)) as Hf.
      { apply filter_In. split; [exact Hc|apply String.eqb_refl]. }
      rewrite L in Hf. destruct Hf.
  - intros input_name Hn. unfold publish_callback, inputs_by_name.
    rewrite inputs_fold_lookup.
    destruct (last (List.filter _ digital_inputs)) as [c'|] eqn:L.
    + exfalso. apply last_In, filter_In in L as [Hc Hname].
      apply String.eqb_eq in Hname. exact (Hn c' Hc Hname).
    + rewrite lookup_empty. reflexivity.
Qed.

Lemma input_status_is_published_witness :
  exists c',
    last (List.filter (fun x => String.eqb (ic_name x) (ic_name demo_door))
            [demo_button; demo_door]) = Some c'
    /\ publish_callback (inputs_by_name [demo_button; demo_door])
         (topic_prefix
            (spawn_unawaited (spawn_unawaited Demo.server input_poller)
               input_poller))
         (ic_name demo_door) true
       = ([EvPublish (topic_prefix Demo.server +:+ "/input/"
                      +:+ ic_name demo_door)
             (if true then ic_on_payload c' else ic_off_payload c')
             None None], None).
Proof.
  apply (proj1 (input_status_is_published Demo.server
                  (spawn_unawaited (spawn_unawaited Demo.server input_poller)
                     input_poller)
                  [demo_button; demo_door]
                  (fst (_init_digital_inputs Demo.server
                          [demo_button; demo_door]))
                  (inputs_by_name [demo_button; demo_door]) true eq_refl)
           demo_door).
  right. left. reflexivity.
Defined.
